(** * Mercury: packet capture, index and query

    A shallow embedding of the Go packages [index], [capture], [common] and
    [serve] of the mercury repository, and the properties of its
    specification that can be stated over that embedding.

    Conventions.
    - Go's [uintN] values are [Z] with the wrap-around written as [wrap N].
    - A byte is [Byte.byte]; a [[]byte] whose capacity does not matter is a
      [list byte]; where a function re-slices up to the capacity the
      argument is a [slice], which also carries the bytes of the backing
      array that lie between the length and the capacity.
    - A Go panic (index out of range, nil dereference, failed type
      assertion) is the outcome [Panic]; an unbounded [for] loop is run
      with fuel and [OutOfFuel] says that the loop was still running.
    - Answers of the operating system (file creation, seek, write) and the
      readings of the wall clock are inputs of the step functions. *)

From Stdlib Require Import ZArith Lia.
From Stdlib Require Import Init.Byte Strings.Byte Strings.Ascii.
From stdpp Require Import gmap strings list fin_maps sorting.

Local Open Scope Z_scope.

(* ===================================================================== *)
(** * Definitions                                                         *)
(* ===================================================================== *)

(** ** Outcomes of a Go computation *)

Inductive outcome (A : Type) : Type :=
  | Done (a : A)
  | Panic
  | OutOfFuel.
Arguments Done {A} a.
Arguments Panic {A}.
Arguments OutOfFuel {A}.

Definition obind {A B} (f : A → outcome B) (x : outcome A) : outcome B :=
  match x with
  | Done a => f a
  | Panic => Panic
  | OutOfFuel => OutOfFuel
  end.

#[global] Instance outcome_ret : MRet outcome := λ A a, Done a.
#[global] Instance outcome_bind : MBind outcome := λ A B f x, obind f x.

(** A missing payload or an index out of range panics. *)
Definition must {A} (o : option A) : outcome A :=
  match o with
  | Some a => Done a
  | None => Panic
  end.

(** ** Machine integers and bytes *)

Definition wrap (w : Z) (z : Z) : Z := z mod 2 ^ w.

Definition MaxUint32 : Z := 2 ^ 32 - 1.
Definition MaxUint64 : Z := 2 ^ 64 - 1.

Definition byte_to_Z (b : byte) : Z := Z.of_N (Byte.to_N b).

Definition byte_of_Z (z : Z) : byte :=
  default x00 (Byte.of_N (Z.to_N (wrap 8 z))).

#[global] Instance byte_inhabited : Inhabited byte := populate x00.
#[global] Instance byte_eq_decision : EqDecision byte := Byte.byte_eq_dec.
#[global] Instance byte_countable : Countable byte :=
  inj_countable Byte.to_N Byte.of_N Byte.of_to_N.

(** [encoding/binary.LittleEndian] *)
Module LittleEndian.

Definition PutUint16 (v : Z) : list byte :=
  [byte_of_Z v; byte_of_Z (Z.shiftr v 8)].

Definition PutUint32 (v : Z) : list byte :=
  [byte_of_Z v; byte_of_Z (Z.shiftr v 8);
   byte_of_Z (Z.shiftr v 16); byte_of_Z (Z.shiftr v 24)].

(** [uint32(b0) | uint32(b1)<<8 | uint32(b2)<<16 | uint32(b3)<<24] *)
Definition word32 (b0 b1 b2 b3 : byte) : Z :=
  Z.lor (Z.lor (Z.lor (byte_to_Z b0) (Z.shiftl (byte_to_Z b1) 8))
               (Z.shiftl (byte_to_Z b2) 16))
        (Z.shiftl (byte_to_Z b3) 24).

(** [Uint32] reads [b[0..3]] and panics on a shorter slice. *)
Definition Uint32 (b : list byte) : outcome Z :=
  match b with
  | b0 :: b1 :: b2 :: b3 :: _ => Done (word32 b0 b1 b2 b3)
  | _ => Panic
  end.

Definition Uint16 (b : list byte) : outcome Z :=
  match b with
  | b0 :: b1 :: _ => Done (Z.lor (byte_to_Z b0) (Z.shiftl (byte_to_Z b1) 8))
  | _ => Panic
  end.

End LittleEndian.

(** ** Slices with a capacity

    [elems] are the [len] visible bytes, [spare] the bytes of the backing
    array from [len] up to [cap].  The Go language specification, "Slice
    expressions": for a slice operand "the upper index bound is the slice
    capacity cap(a) rather than the length"; [a[lo:hi]] panics unless
    [0 <= lo <= hi <= cap(a)]. *)

Record slice : Type := Slice { elems : list byte; spare : list byte }.

Definition slice_len (s : slice) : nat := length (elems s).
Definition slice_cap (s : slice) : nat := (length (elems s) + length (spare s))%nat.

(** A slice whose capacity equals its length, as [make([]byte, n)] gives. *)
Definition slice_of_list (l : list byte) : slice := Slice l [].

(** [s[lo:hi]], keeping only the visible part of the result. *)
Definition reslice (s : slice) (lo hi : nat) : outcome (list byte) :=
  if decide (lo ≤ hi ∧ hi ≤ slice_cap s)%nat
  then Done (take (hi - lo) (drop lo (elems s ++ spare s)))
  else Panic.

(** ** Package [index] *)

Module index.

(** *** Key *)

(** [type RecordType byte] with the constants of the [iota] block. *)
Definition RecordType : Type := byte.
Definition MACType : RecordType := x00.
Definition ProtoType : RecordType := x01.
Definition IPv4Type : RecordType := x02.
Definition IPv6Type : RecordType := x03.
Definition PortType : RecordType := x04.

Record Key : Type := mkKey { RecType : RecordType; Data : list byte }.

#[global] Instance Key_eq_decision : EqDecision Key.
Proof. solve_decision. Defined.

Definition NewMACKey (macAddr : list byte) : Key := mkKey MACType macAddr.

Definition NewProtoKey (proto : byte) : Key := mkKey ProtoType [proto].

(** [net.IP.To4]: a 4-byte address is returned as it is, a 16-byte address
    with the IPv4-in-IPv6 prefix gives its last four bytes, anything else
    gives nil. *)
Definition v4InV6Prefix : list byte :=
  [x00; x00; x00; x00; x00; x00; x00; x00; x00; x00; xff; xff].

Definition To4 (ip : list byte) : option (list byte) :=
  if decide (length ip = 4%nat) then Some ip
  else if decide (length ip = 16%nat ∧ take 12 ip = v4InV6Prefix)
       then Some (drop 12 ip)
       else None.

(** [net.IP.To16] *)
Definition To16 (ip : list byte) : option (list byte) :=
  if decide (length ip = 4%nat) then Some (v4InV6Prefix ++ ip)
  else if decide (length ip = 16%nat) then Some ip
  else None.

Definition NewIPv4Key (ip : list byte) : option Key :=
  match To4 ip with
  | None => None
  | Some ip4 => Some (mkKey IPv4Type ip4)
  end.

Definition NewIPv6Key (ip : list byte) : option Key :=
  match To16 ip with
  | None => None
  | Some ip6 => Some (mkKey IPv6Type ip6)
  end.

Definition NewPortKey (port : Z) : Key :=
  mkKey PortType (LittleEndian.PutUint16 port).

(** [hash/fnv.New32a]: 32-bit FNV-1a. *)
Definition offset32 : Z := 2166136261.
Definition prime32 : Z := 16777619.

Definition fnv32a_Write (h : Z) (p : list byte) : Z :=
  fold_left (λ hash c, wrap 32 (Z.lxor hash (byte_to_Z c) * prime32)) p h.

Definition Key_Hash (k : Key) : Z :=
  fnv32a_Write (fnv32a_Write offset32 [RecType k]) (Data k).

Definition Key_Equal (k otherK : Key) : bool :=
  if decide (RecType k ≠ RecType otherK) then false
  else bool_decide (Data k = Data otherK).

Definition Key_MarshalBinary (k : Key) : list byte := RecType k :: Data k.

(** [data[0]] panics on an empty input. *)
Definition Key_UnmarshalBinary (data : list byte) : outcome Key :=
  match data with
  | [] => Panic
  | t :: d => Done (mkKey t d)
  end.

(** The data length that the specification fixes for each tag. *)
Definition fixedLen (t : RecordType) : option nat :=
  if decide (t = MACType) then Some 6%nat
  else if decide (t = ProtoType) then Some 1%nat
  else if decide (t = IPv4Type) then Some 4%nat
  else if decide (t = IPv6Type) then Some 16%nat
  else if decide (t = PortType) then Some 2%nat
  else None.

(** *** Value element and value *)

Record ValueElement : Type := NewValueElement { PathIdx : byte; Offset : Z }.

#[global] Instance ValueElement_eq_decision : EqDecision ValueElement.
Proof. solve_decision. Defined.

Definition ValueElement_MarshalBinary (v : ValueElement) : list byte :=
  PathIdx v :: LittleEndian.PutUint32 (Offset v).

Definition ValueElement_UnmarshalBinary (data : list byte) : outcome ValueElement :=
  match data with
  | [] => Panic
  | b0 :: rest => off ← LittleEndian.Uint32 rest; Done (NewValueElement b0 off)
  end.

Definition Value : Type := list ValueElement.

Definition NewValue : Value := [].

Definition Value_Append (v : Value) (ve : ValueElement) : Value := v ++ [ve].

(** Every element is copied into its five bytes of the result. *)
Definition Value_MarshalBinary (v : Value) : list byte :=
  fold_right (λ elem b, ValueElement_MarshalBinary elem ++ b) [] v.

(** The loop [for offset := 0; offset < len(data); offset += 5].  The fuel
    only makes the recursion structural: [Value_UnmarshalBinary] passes
    more than the number of iterations. *)
Fixpoint Value_UnmarshalBinary_loop (fuel : nat) (data : slice) (offset : nat)
    (v : Value) : outcome Value :=
  if decide (offset < slice_len data)%nat then
    match fuel with
    | O => OutOfFuel
    | S fuel' =>
        chunk ← reslice data offset (offset + 5);
        elem ← ValueElement_UnmarshalBinary chunk;
        Value_UnmarshalBinary_loop fuel' data (offset + 5)%nat (Value_Append v elem)
    end
  else Done v.

Definition Value_UnmarshalBinary (v : Value) (data : slice) : outcome Value :=
  Value_UnmarshalBinary_loop (slice_len data) data 0 v.

(** *** Mem index *)

Record MiValue : Type := mkMiValue { K : Key; V : Value }.

#[global] Instance MiValue_eq_decision : EqDecision MiValue.
Proof. solve_decision. Defined.

(** [type MemIndex map[uint32]MiValue].  The map holds pointers to the key
    and to the value; [miv.V.Append(ve)] writes through that pointer, so
    the value stored under the slot changes, which is an update of the
    slot here.  Nothing else aliases a stored key or value. *)
Abbreviation MemIndex := (gmap Z MiValue).

Definition NewMemIndex : MemIndex := ∅.

(** The [for] loop of [Put], from the slot [hash] on; [hash++] wraps at
    [2^32].  The loop has no bound in the source: it leaves through one of
    its two [break]s or not at all. *)
Fixpoint Put_loop (fuel : nat) (m : MemIndex) (k : Key) (ve : ValueElement)
    (hash : Z) : outcome MemIndex :=
  match fuel with
  | O => OutOfFuel
  | S fuel' =>
      match m !! hash with
      | None =>
          Done (<[hash := mkMiValue k (Value_Append NewValue ve)]> m)
      | Some miv =>
          if Key_Equal (K miv) k
          then Done (<[hash := mkMiValue (K miv) (Value_Append (V miv) ve)]> m)
          else Put_loop fuel' m k ve (wrap 32 (hash + 1))
      end
  end.

Definition Put (fuel : nat) (m : MemIndex) (k : Key) (ve : ValueElement)
    : outcome MemIndex :=
  Put_loop fuel m k ve (Key_Hash k).

(** A sequence of [Put] operations on one index. *)
Fixpoint PutAll (fuel : nat) (m : MemIndex) (ops : list (Key * ValueElement))
    : outcome MemIndex :=
  match ops with
  | [] => Done m
  | (k, ve) :: ops' => m' ← Put fuel m k ve; PutAll fuel m' ops'
  end.

(** What [for _, v := range memIndex] ranges over. *)
Definition entries (m : MemIndex) : list MiValue := (map_to_list m).*2.

(** The values that the entries with a key byte-equal to [k] hold. *)
Definition retrieve (m : MemIndex) (k : Key) : list Value :=
  V <$> filter (λ e, K e = k) (entries m).

(** The elements put under [k], in input order. *)
Definition put_under (k : Key) (ops : list (Key * ValueElement)) : Value :=
  (filter (λ op, op.1 = k) ops).*2.

(** *** Vocabulary for the probe sequence *)

(** The [d]-th slot that [Put] probes for the key [k]. *)
Definition slot (k : Key) (d : nat) : Z := wrap 32 (Key_Hash k + Z.of_nat d).

(** The slots [d0 .. d-1] of [k]'s probe sequence hold other keys. *)
Definition blocked (m : MemIndex) (k : Key) (d0 d : nat) : Prop :=
  ∀ j, (d0 ≤ j < d)%nat → ∃ miv, m !! slot k j = Some miv ∧ K miv ≠ k.

(** What [Put] does when its loop leaves at the [d]-th slot. *)
Definition put_at (m : MemIndex) (k : Key) (ve : ValueElement) (d : nat)
    : option MemIndex :=
  match m !! slot k d with
  | None => Some (<[slot k d := mkMiValue k [ve]]> m)
  | Some miv =>
      if decide (K miv = k)
      then Some (<[slot k d := mkMiValue (K miv) (V miv ++ [ve])]> m)
      else None
  end.

(** Every entry sits on the probe sequence of its own key, behind slots
    that other keys hold: the invariant of an index that only [Put] has
    written to. *)
Definition MemIndex_inv (m : MemIndex) : Prop :=
  ∀ h miv, m !! h = Some miv →
    ∃ d, Z.of_nat d < 2 ^ 32 ∧ h = slot (K miv) d ∧ blocked m (K miv) 0 d.

(** The index holds exactly the keys of [ops], each with the elements put
    under it, in input order. *)
Definition represents (m : MemIndex) (ops : list (Key * ValueElement)) : Prop :=
  (∀ h miv, m !! h = Some miv → K miv ∈ ops.*1 ∧ V miv = put_under (K miv) ops)
  ∧ (∀ k, k ∈ ops.*1 → ∃ h miv, m !! h = Some miv ∧ K miv = k).

(** The number of distinct keys of a sequence of operations. *)
Definition distinct_keys (ops : list (Key * ValueElement)) : nat :=
  length (remove_dups ops.*1).

(** The number of slots of the map: the values of a [uint32]. *)
Definition table_size : nat := Z.to_nat (2 ^ 32).

(** More distinct keys than slots: the IPv6 keys whose address holds
    [i], for [i = 0 .. 2^32]. *)
Definition wide_key (i : nat) : Key :=
  mkKey IPv6Type
    (LittleEndian.PutUint32 (Z.of_nat i mod 2 ^ 32)
     ++ byte_of_Z (Z.of_nat i / 2 ^ 32) :: replicate 11 x00).

Definition overfull_ops : list (Key * ValueElement) :=
  (λ i, (wide_key i, NewValueElement x00 24)) <$> seq 0 (S table_size).

(** The element that the specification places at position [i] of a value
    blob: byte [5i] is the path index, bytes [5i+1 .. 5i+4] the offset. *)
Definition element_at (blob : list byte) (i : nat) : ValueElement :=
  NewValueElement (blob !!! (5 * i)%nat)
    (LittleEndian.word32 (blob !!! (5 * i + 1)%nat) (blob !!! (5 * i + 2)%nat)
                         (blob !!! (5 * i + 3)%nat) (blob !!! (5 * i + 4)%nat)).

(** A key of one of the five defined tags with data of the fixed length. *)
Definition Key_wf (k : Key) : Prop := fixedLen (RecType k) = Some (length (Data k)).

(** The offset of an element is a [uint32]. *)
Definition ValueElement_wf (ve : ValueElement) : Prop := 0 ≤ Offset ve < 2 ^ 32.

End index.

(** ** The packet decoder

    What the program reads of a [gopacket.Packet]: the capture metadata,
    the presence of the layers that [ParsePacket] asks for, the endpoints
    of the network and transport flows, and the two renderings [Dump] and
    [String].  The decoder itself is an external collaborator. *)

(** A [time.Time] through its calendar fields in UTC. *)
Record Time : Type := Date {
  Year : Z; Month : Z; Day : Z; Hour : Z; Minute : Z; Second : Z }.

Record Packet : Type := mkPacket {
  CaptureLength : Z;                       (* Metadata().CaptureLength, an int *)
  Timestamp : Time;                        (* Metadata().Timestamp.UTC() *)
  LayerEthernet : option (list byte * list byte);   (* SrcMAC, DstMAC *)
  LayerIPv4 : bool;
  LayerIPv6 : bool;
  (* NetworkLayer(): net.ParseIP of the two endpoints of its flow *)
  NetworkLayer : option (list byte * list byte);
  LayerTCP : bool;
  LayerUDP : bool;
  LayerICMPv4 : bool;
  LayerICMPv6 : bool;
  (* TransportLayer(): strconv.ParseUint of the two endpoints of its flow *)
  TransportLayer : option (Z * Z);
  Dump : string;
  String_ : string }.

(** ** Package [common] *)

Module common.

Definition IndexNameSuffix : string := "idx".
Definition PcapNameSuffix : string := "pcap".
Definition DefaultLabel : string := "pcap".

(** [FilesPerEveryNMinutes * time.Minute], in nanoseconds. *)
Definition FilesPerEveryNMinutes : Z := 1.
Definition MaxPcapFileTime : Z := FilesPerEveryNMinutes * 60000000000.

Definition digit (d : Z) : ascii := ascii_of_N (Z.to_N (48 + d mod 10)).
Definition pad2 (n : Z) : string :=
  String (digit (n / 10)) (String (digit n) EmptyString).
Definition pad4 (n : Z) : string :=
  String (digit (n / 1000)) (String (digit (n / 100)) (pad2 n)).

(** [d.Format("2006_01_02-15_04_05")], for a year of four digits. *)
Definition GetFileBaseName (d : Time) : string :=
  pad4 (Year d) +:+ "_" +:+ pad2 (Month d) +:+ "_" +:+ pad2 (Day d) +:+ "-"
  +:+ pad2 (Hour d) +:+ "_" +:+ pad2 (Minute d) +:+ "_" +:+ pad2 (Second d).

(** The results of [ParsePacket], in the order of its named results. *)
Record Parsed : Type := mkParsed {
  vers : Z;
  sMAC : list byte; dMAC : list byte;
  sIP : list byte; dIP : list byte;
  sPort : Z; dPort : Z;
  proto : byte; protoStr : string }.

(** Every result starts as the zero value of its type and is assigned only
    under the conditions of the source.  [packet.TransportLayer()] is
    dereferenced when a TCP or UDP layer is there, and a packet with such
    a layer and no transport layer panics. *)
Definition ParsePacket (packet : Packet) : outcome Parsed :=
  match LayerEthernet packet with
  | None => Done (mkParsed 0 [] [] [] [] 0 0 x00 "")
  | Some (srcMAC, dstMAC) =>
      let vers := if LayerIPv4 packet then 4 else 0 in
      let vers := if LayerIPv6 packet then 6 else vers in
      match NetworkLayer packet with
      | None => Done (mkParsed vers srcMAC dstMAC [] [] 0 0 x00 "")
      | Some (src, dst) =>
          let pr := (x00, ""%string) in
          let pr := if LayerTCP packet then (x06, "TCP"%string) else pr in
          let pr := if LayerUDP packet then (x11, "UDP"%string) else pr in
          let pr := if LayerICMPv4 packet then (x01, "ICMP"%string) else pr in
          let pr := if LayerICMPv6 packet then (x3a, "ICMPv6"%string) else pr in
          if LayerTCP packet || LayerUDP packet then
            ports ← must (TransportLayer packet);
            Done (mkParsed vers srcMAC dstMAC src dst
                           (wrap 16 ports.1) (wrap 16 ports.2) pr.1 pr.2)
          else
            Done (mkParsed vers srcMAC dstMAC src dst 0 0 pr.1 pr.2)
      end
  end.

(** [%d] of [fmt.Sprintf] for a number from 0 to 999, which covers the
    values of a byte. *)
Definition decimal (n : Z) : string :=
  if decide (n < 10) then String (digit n) EmptyString
  else if decide (n < 100) then pad2 n
  else String (digit (n / 100)) (pad2 n).

End common.

(** ** Package [capture] *)

Module capture.

(** *** Messages *)

Inductive messageType : Type :=
  | msgTypePacket
  | msgTypeFileClosed
  | msgTypeNewPcapFile
  | msgTypeMemoryIndex.

#[global] Instance messageType_eq_decision : EqDecision messageType.
Proof. solve_decision. Defined.

(** [type messagePayload uint8] and its [iota] constants. *)
Definition messagePayload : Type := nat.
Definition msgPayloadPacket : messagePayload := 0%nat.
Definition msgPayloadPcapPathBase : messagePayload := 1%nat.
Definition msgPayloadPcapFilename : messagePayload := 2%nat.
Definition msgPayloadPcapIdx : messagePayload := 3%nat.
Definition msgPayloadOffset : messagePayload := 4%nat.
Definition msgPayloadIPProto : messagePayload := 5%nat.
Definition msgPayloadSrcMAC : messagePayload := 6%nat.
Definition msgPayloadDstMAC : messagePayload := 7%nat.
Definition msgPayloadSrcIP : messagePayload := 8%nat.
Definition msgPayloadSrcPort : messagePayload := 9%nat.
Definition msgPayloadDstIP : messagePayload := 10%nat.
Definition msgPayloadDstPort : messagePayload := 11%nat.
Definition msgPayloadMemoryIndex : messagePayload := 12%nat.
Definition msgPayloadMemoryIndexFile : messagePayload := 13%nat.

(** A non-nil [interface{}]: a dynamic type and a value of it.  A nil
    [net.IP] or [net.HardwareAddr] stored in an interface is not a nil
    interface; it is [VIP []] or [VMAC []]. *)
Inductive value : Type :=
  | VPacket (p : Packet)
  | VString (s : string)
  | VByte (b : byte)      (* byte and uint8 are one type *)
  | VUint16 (z : Z)
  | VUint32 (z : Z)
  | VMAC (a : list byte)
  | VIP (a : list byte)
  | VMemIndex (m : index.MemIndex).

Record Message : Type := mkMessage {
  msgType : messageType;
  payload : gmap messagePayload value }.

Definition NewMessage (t : messageType) : Message := mkMessage t ∅.

Definition Set_ (m : Message) (key : messagePayload) (v : value) : Message :=
  mkMessage (msgType m) (<[key := v]> (payload m)).

(** [Get] returns nil, here [None], for a key that is not there. *)
Definition Get (m : Message) (key : messagePayload) : option value :=
  payload m !! key.

(** Type assertions [x.(T)]: a panic on nil and on another dynamic type. *)
Definition asPacket (x : option value) : outcome Packet :=
  match x with Some (VPacket p) => Done p | _ => Panic end.
Definition asString (x : option value) : outcome string :=
  match x with Some (VString s) => Done s | _ => Panic end.
Definition asByte (x : option value) : outcome byte :=
  match x with Some (VByte b) => Done b | _ => Panic end.
Definition asUint16 (x : option value) : outcome Z :=
  match x with Some (VUint16 z) => Done z | _ => Panic end.
Definition asUint32 (x : option value) : outcome Z :=
  match x with Some (VUint32 z) => Done z | _ => Panic end.
Definition asIP (x : option value) : outcome (list byte) :=
  match x with Some (VIP a) => Done a | _ => Panic end.
Definition asMemIndex (x : option value) : outcome index.MemIndex :=
  match x with Some (VMemIndex m) => Done m | _ => Panic end.

(** *** Scheduler *)

Definition maxPcapFileSize : Z := MaxUint32.

(** The variables of the goroutine of [schedule]. *)
Record schedState : Type := mkSched {
  createNewFile : bool;
  createNewFileTime : Z;          (* a reading of the clock, in nanoseconds *)
  fileBytes : list Z }.

(** The state before the first message: [n] writers, clock reading [now]. *)
Definition schedStart (n : nat) (now : Z) : schedState :=
  mkSched true now (replicate n 24).

(** The loop that finds the smallest file: the first index of the
    smallest count below the starting [math.MaxUint64]. *)
Fixpoint smallest (i : nat) (l : list Z) (minFileBytes : Z) (minFileIdx : nat)
    : Z * nat :=
  match l with
  | [] => (minFileBytes, minFileIdx)
  | v :: l' =>
      if decide (v < minFileBytes)
      then smallest (S i) l' v i
      else smallest (S i) l' minFileBytes minFileIdx
  end.

(** The messages that tell every writer to start a new file. *)
Definition newFileMessages (basePcapPath : list string) (timeStr : string)
    : list (nat * Message) :=
  imap (λ i p, (i, Set_ (Set_ (Set_ (NewMessage msgTypeNewPcapFile)
                                     msgPayloadPcapPathBase (VString p))
                               msgPayloadPcapFilename (VString timeStr))
                        msgPayloadPcapIdx (VByte (byte_of_Z (Z.of_nat i)))))
       basePcapPath.

(** One message of the input channel.  [tSince] is the reading of the
    clock in [time.Since], [tNow] the one of [time.Now()] after the
    writers were told to rotate.  The result is the new state and the
    messages sent, each with the index of the channel it went to. *)
Definition schedule_step (basePcapPath : list string) (st : schedState)
    (msg : Message) (tSince tNow : Z)
    : outcome (schedState * list (nat * Message)) :=
  let '(minFileBytes, minFileIdx) := smallest 0 (fileBytes st) MaxUint64 0 in
  packet ← asPacket (Get msg msgPayloadPacket);
  let packetFileSize := wrap 64 (wrap 64 (CaptureLength packet) + 16) in
  let createNewFile1 :=
    if decide (maxPcapFileSize ≤ wrap 64 (minFileBytes + packetFileSize))
    then true else createNewFile st in
  let createNewFile2 :=
    if decide (common.MaxPcapFileTime ≤ tSince - createNewFileTime st)
    then true else createNewFile1 in
  let '(st1, sent) :=
    if createNewFile2
    then (mkSched false tNow (replicate (length (fileBytes st)) 24),
          newFileMessages basePcapPath (common.GetFileBaseName (Timestamp packet)))
    else (mkSched createNewFile2 (createNewFileTime st) (fileBytes st), []) in
  (* outCh[minFileIdx] <- msg *)
  if decide (minFileIdx < length basePcapPath)%nat then
    (* fileBytes[minFileIdx] += packetFileSize *)
    old ← must (fileBytes st1 !! minFileIdx);
    Done (mkSched (createNewFile st1) (createNewFileTime st1)
            (<[minFileIdx := wrap 64 (old + packetFileSize)]> (fileBytes st1)),
          sent ++ [(minFileIdx,
                    Set_ msg msgPayloadPcapIdx (VByte (byte_of_Z (Z.of_nat minFileIdx))))])
  else Panic.

(** The scheduler over a stream of packets with their clock readings. *)
Fixpoint schedule_run (basePcapPath : list string) (st : schedState)
    (input : list (Message * Z * Z))
    : outcome (schedState * list (nat * Message)) :=
  match input with
  | [] => Done (st, [])
  | (msg, tSince, tNow) :: input' =>
      '(st1, sent1) ← schedule_step basePcapPath st msg tSince tNow;
      '(st2, sent2) ← schedule_run basePcapPath st1 input';
      Done (st2, sent1 ++ sent2)
  end.

(** The channel and the type of each message sent. *)
Definition trace (sent : list (nat * Message)) : list (nat * messageType) :=
  (λ im, (im.1, msgType im.2)) <$> sent.

(** Whether a step told the writers to rotate. *)
Definition rotation_fired (sent : list (nat * Message)) : bool :=
  bool_decide (Exists (λ im, msgType im.2 = msgTypeNewPcapFile) sent).

(** What holds of the state between two messages: one counter for each of
    the [n] writers, none below the 24 bytes of the file header, none as
    large as [2^33]. *)
Definition sched_ok (n : nat) (st : schedState) : Prop :=
  length (fileBytes st) = n ∧ Forall (λ x, 24 ≤ x < 2 ^ 33) (fileBytes st).

(** What the reader sends: a packet message, with a captured length that
    fits the 32 bits that a pcap record header has for it. *)
Definition packet_message (msg : Message) : Prop :=
  msgType msg = msgTypePacket
  ∧ ∃ p, Get msg msgPayloadPacket = Some (VPacket p) ∧ 0 ≤ CaptureLength p < 2 ^ 32.

Definition captureLengthOf (msg : Message) : Z :=
  match Get msg msgPayloadPacket with
  | Some (VPacket p) => CaptureLength p
  | _ => 0
  end.

(** The packets routed since the last rotation, the one that caused the
    rotation first: the packet messages sent after the last
    [msgTypeNewPcapFile]. *)
Definition since_rotation_step (acc : list Message) (im : nat * Message)
    : list Message :=
  match msgType im.2 with
  | msgTypeNewPcapFile => []
  | msgTypePacket => acc ++ [im.2]
  | _ => acc
  end.

Definition since_rotation (sent : list (nat * Message)) : list Message :=
  fold_left since_rotation_step sent [].

Definition largest (l : list Z) : Z := foldr Z.max 0 l.

(** [max_i bytes[i] - min_i bytes[i] <= bound] *)
Definition spread_le (bytes : list Z) (bound : Z) : Prop :=
  ∀ x y, x ∈ bytes → y ∈ bytes → x - y ≤ bound.

Definition maximum (bytes : list Z) : Z := foldr Z.max (default 0 (head bytes)) bytes.
Definition minimum (bytes : list Z) : Z := foldr Z.min (default 0 (head bytes)) bytes.

(** [m] is the smallest of the counters. *)
Definition is_min (bytes : list Z) (m : Z) : Prop :=
  m ∈ bytes ∧ ∀ x, x ∈ bytes → m ≤ x.

(** *** Writer *)

(** The variables of the goroutine of [writePcap].  The open file is named
    by the directory, the base name and the index that make its path
    [<pcapBase>/<pcapFilename>_<pcapIdx>.pcap]; [None] is the nil file. *)
Record writerState : Type := mkWriter {
  pcapFilename : string;
  pcapIdx : byte;
  pcapFile : option (string * string * byte) }.

Definition writerStart : writerState := mkWriter "" x00 None.

(** The answers of the operating system while one message is handled:
    whether [os.Create] and [WriteFileHeader] fail, what [Seek] returns
    (an offset, or [None] for an error), whether [WritePacket] fails. *)
Record writerEnv : Type := mkEnv {
  createErr : bool;
  headerErr : bool;
  seekResult : option Z;
  writeErr : bool }.

Definition fileClosedMessage (filename : string) (idx : byte) : Message :=
  Set_ (Set_ (NewMessage msgTypeFileClosed) msgPayloadPcapFilename (VString filename))
       msgPayloadPcapIdx (VByte idx).

(** One message of the input channel: the new state, the messages put on
    the output channel, and whether the loop goes on ([false] after a
    [return]).  A [continue] skips the [outCh <- msg] at the end of the
    loop body. *)
Definition writePcap_step (st : writerState) (msg : Message) (env : writerEnv)
    : outcome (writerState * list Message * bool) :=
  match msgType msg with
  | msgTypeNewPcapFile =>
      closed ← match pcapFile st with
               | Some _ =>
                   idx ← asByte (Get msg msgPayloadPcapIdx);
                   Done [fileClosedMessage (pcapFilename st) idx]
               | None => Done []
               end;
      pcapBase ← asString (Get msg msgPayloadPcapPathBase);
      filename ← asString (Get msg msgPayloadPcapFilename);
      idx ← asByte (Get msg msgPayloadPcapIdx);
      if createErr env then
        Done (mkWriter filename idx None, closed, false)
      else if headerErr env then
        Done (mkWriter filename idx (Some (pcapBase, filename, idx)), closed, false)
      else
        Done (mkWriter filename idx (Some (pcapBase, filename, idx)),
              closed ++ [msg], true)
  | msgTypePacket =>
      match pcapFile st with
      | None =>
          (* Seek on the nil file returns an error, and the log line of
             that branch calls pcapFile.Name(), which dereferences nil *)
          Panic
      | Some _ =>
          match seekResult env with
          | None => Done (st, [], true)
          | Some offset =>
              let msg1 := Set_ msg msgPayloadOffset (VUint32 (wrap 32 offset)) in
              let msg2 := Set_ msg1 msgPayloadPcapFilename (VString (pcapFilename st)) in
              packet ← asPacket (Get msg2 msgPayloadPacket);
              if writeErr env then Done (st, [], true)
              else Done (st, [msg2], true)
          end
      end
  | _ => Done (st, [msg], true)
  end.

(** The writer over its input, with the answers of the operating system. *)
Fixpoint writePcap_run (st : writerState) (input : list (Message * writerEnv))
    : outcome (list Message) :=
  match input with
  | [] => Done []
  | (msg, env) :: input' =>
      '(st1, out1, continue) ← writePcap_step st msg env;
      if continue : bool
      then out2 ← writePcap_run st1 input'; Done (out1 ++ out2)
      else Done out1
  end.

(** *** Extractor *)

Definition extractPacket_step (msg : Message) : outcome Message :=
  if decide (msgType msg = msgTypePacket) then
    packet ← asPacket (Get msg msgPayloadPacket);
    r ← common.ParsePacket packet;
    Done (Set_ (Set_ (Set_ (Set_ (Set_ (Set_ (Set_ msg
            msgPayloadSrcMAC (VMAC (common.sMAC r)))
            msgPayloadDstMAC (VMAC (common.dMAC r)))
            msgPayloadSrcIP (VIP (common.sIP r)))
            msgPayloadDstIP (VIP (common.dIP r)))
            msgPayloadSrcPort (VUint16 (common.sPort r)))
            msgPayloadDstPort (VUint16 (common.dPort r)))
            msgPayloadIPProto (VByte (common.proto r)))
  else Done msg.

(** *** Indexer *)

Record indexMeta : Type := mkMeta {
  index_ : index.MemIndex;
  openWriters : Z }.

(** [indexCache map[string]*indexMeta]: an update through the pointer is an
    update of the entry. *)
Abbreviation indexCache := (gmap string indexMeta).

Definition memoryIndexMessage (m : index.MemIndex) (filename : string) : Message :=
  Set_ (Set_ (NewMessage msgTypeMemoryIndex) msgPayloadMemoryIndex (VMemIndex m))
       msgPayloadMemoryIndexFile (VString filename).

(** [memIndex.Put(key(ip), valueElem)] for an address, by its family. *)
Definition putIP (fuel : nat) (m : index.MemIndex) (x : option value)
    (ve : index.ValueElement) : outcome index.MemIndex :=
  match x with
  | None => Done m
  | Some _ =>
      ip ← asIP x;
      match index.To4 ip with
      | Some ip4 =>
          k ← must (index.NewIPv4Key ip4); index.Put fuel m k ve
      | None =>
          match index.To16 ip with
          | Some ip6 => k ← must (index.NewIPv6Key ip6); index.Put fuel m k ve
          | None => Done m
          end
      end
  end.

Definition putPort (fuel : nat) (m : index.MemIndex) (x : option value)
    (ve : index.ValueElement) : outcome index.MemIndex :=
  match x with
  | None => Done m
  | Some _ => port ← asUint16 x; index.Put fuel m (index.NewPortKey port) ve
  end.

Definition putProto (fuel : nat) (m : index.MemIndex) (x : option value)
    (ve : index.ValueElement) : outcome index.MemIndex :=
  match x with
  | None => Done m
  | Some _ => proto ← asByte x; index.Put fuel m (index.NewProtoKey proto) ve
  end.

(** The keys of an address and of the results of [ParsePacket] that the
    Indexer puts the element of a packet under, in the order of its
    [Put]s. *)
Definition ipKeys (ip : list byte) : list index.Key :=
  match index.To4 ip with
  | Some ip4 => [index.mkKey index.IPv4Type ip4]
  | None =>
      match index.To16 ip with
      | Some ip6 => [index.mkKey index.IPv6Type ip6]
      | None => []
      end
  end.

Definition indexedKeys (r : common.Parsed) : list index.Key :=
  [index.NewProtoKey (common.proto r)]
  ++ ipKeys (common.sIP r) ++ ipKeys (common.dIP r)
  ++ [index.NewPortKey (common.sPort r); index.NewPortKey (common.dPort r)].

Definition under (ve : index.ValueElement) (keys : list index.Key)
    : list (index.Key * index.ValueElement) :=
  (λ k, (k, ve)) <$> keys.

(** One message of the input channel: the new cache and the messages put
    on the output channel. *)
Definition index_step (fuel : nat) (cache : indexCache) (msg : Message)
    : outcome (indexCache * list Message) :=
  match msgType msg with
  | msgTypeFileClosed =>
      filename ← asString (Get msg msgPayloadPcapFilename);
      im ← must (cache !! filename);
      let im := mkMeta (index_ im) (openWriters im - 1) in
      if decide (openWriters im = 0)
      then Done (delete filename cache, [memoryIndexMessage (index_ im) filename])
      else Done (<[filename := im]> cache, [])
  | msgTypeNewPcapFile =>
      newMemIndexFile ← asString (Get msg msgPayloadPcapFilename);
      match cache !! newMemIndexFile with
      | None => Done (<[newMemIndexFile := mkMeta index.NewMemIndex 1]> cache, [])
      | Some im =>
          Done (<[newMemIndexFile := mkMeta (index_ im) (openWriters im + 1)]> cache, [])
      end
  | msgTypePacket =>
      pcapFilename ← asString (Get msg msgPayloadPcapFilename);
      im ← must (cache !! pcapFilename);
      let memIndex := index_ im in
      idx ← asByte (Get msg msgPayloadPcapIdx);
      offset ← asUint32 (Get msg msgPayloadOffset);
      let valueElem := index.NewValueElement idx offset in
      memIndex ← putProto fuel memIndex (Get msg msgPayloadIPProto) valueElem;
      memIndex ← putIP fuel memIndex (Get msg msgPayloadSrcIP) valueElem;
      memIndex ← putIP fuel memIndex (Get msg msgPayloadDstIP) valueElem;
      memIndex ← putPort fuel memIndex (Get msg msgPayloadSrcPort) valueElem;
      memIndex ← putPort fuel memIndex (Get msg msgPayloadDstPort) valueElem;
      Done (<[pcapFilename := mkMeta memIndex (openWriters im)]> cache, [])
  | msgTypeMemoryIndex => Done (cache, [])
  end.

Fixpoint index_run (fuel : nat) (cache : indexCache) (input : list Message)
    : outcome (indexCache * list Message) :=
  match input with
  | [] => Done (cache, [])
  | msg :: input' =>
      '(cache1, out1) ← index_step fuel cache msg;
      '(cache2, out2) ← index_run fuel cache1 input';
      Done (cache2, out1 ++ out2)
  end.

(** [flushAll], over the entries in the order in which [range] yields
    them.  [failing] tells for which index names [writeIndexFile] returns
    an error.  The result is the calls of [writeIndexFile] made, the cache
    left, and whether the loop ended on an error. *)
Fixpoint flushAll_loop (failing : string → bool) (todo : list (string * indexMeta))
    (cache : indexCache) : list (string * index.MemIndex) * indexCache * bool :=
  match todo with
  | [] => ([], cache, false)
  | (filename, im) :: todo' =>
      let idxName := filename +:+ "." +:+ common.IndexNameSuffix in
      let cache := <[filename := mkMeta (index_ im) 0]> cache in
      if failing idxName then ([(idxName, index_ im)], cache, true)
      else
        let '(calls, cache', err) := flushAll_loop failing todo' (delete filename cache) in
        ((idxName, index_ im) :: calls, cache', err)
  end.

Definition flushAll (failing : string → bool) (cache : indexCache)
    : list (string * index.MemIndex) * indexCache * bool :=
  flushAll_loop failing (map_to_list cache) cache.

(** The messages about a logical file [b] that the Indexer counts. *)
Definition named (b : string) (x : option value) : bool :=
  match x with
  | Some (VString s) => bool_decide (s = b)
  | _ => false
  end.

Definition isNew (b : string) (msg : Message) : bool :=
  bool_decide (msgType msg = msgTypeNewPcapFile)
  && named b (Get msg msgPayloadPcapFilename).

Definition isClosed (b : string) (msg : Message) : bool :=
  bool_decide (msgType msg = msgTypeFileClosed)
  && named b (Get msg msgPayloadPcapFilename).

Definition isMemoryIndex (b : string) (msg : Message) : bool :=
  bool_decide (msgType msg = msgTypeMemoryIndex)
  && named b (Get msg msgPayloadMemoryIndexFile).

Definition count {A} (f : A → bool) (l : list A) : nat :=
  length (filter (λ x, f x) l).

Definition opened (b : string) (l : list Message) : Z := Z.of_nat (count (isNew b) l).
Definition closed (b : string) (l : list Message) : Z := Z.of_nat (count (isClosed b) l).

(** Whether [msg], received after [pre], is a [FileClosed] for [b] that
    brings the number of [FileClosed] for [b] up to the number of
    [NewPcapFile] for [b]. *)
Definition balances (b : string) (pre : list Message) (msg : Message) : bool :=
  isClosed b msg && bool_decide (closed b (pre ++ [msg]) = opened b (pre ++ [msg])).

(** How often that happens in [l], received after [pre]. *)
Fixpoint balanced (b : string) (pre l : list Message) : nat :=
  match l with
  | [] => 0
  | msg :: l' =>
      ((if balances b pre msg then 1 else 0) + balanced b (pre ++ [msg]) l')%nat
  end.

(** The calls of [writeIndexFile] for the index of [b]. *)
Definition flushed (b : string) (calls : list (string * index.MemIndex)) : nat :=
  count (λ c, bool_decide (c.1 = b +:+ "." +:+ common.IndexNameSuffix)) calls.

(** The cache after the messages [pre]: an entry for every logical file
    with more [NewPcapFile] than [FileClosed], counting the difference. *)
Definition cache_inv (cache : indexCache) (pre : list Message) : Prop :=
  ∀ b, match cache !! b with
       | Some im => openWriters im = opened b pre - closed b pre ∧ 0 < openWriters im
       | None => opened b pre = closed b pre
       end.

(** The messages that the scheduler sent to one writer. *)
Definition channel (i : nat) (sent : list (nat * Message)) : list Message :=
  snd <$> filter (λ im, im.1 = i) sent.

(** The messages of [out] through the Extractor. *)
Fixpoint extractPacket_run (input : list Message) : outcome (list Message) :=
  match input with
  | [] => Done []
  | msg :: input' =>
      msg' ← extractPacket_step msg;
      out ← extractPacket_run input';
      Done (msg' :: out)
  end.

(** *** Index writer *)

(** The batch of [writeIndexFile]: [wb.Set(kBytes, vBytes)] for every
    entry, on the store [db] that [badger.Open] found at the path. *)
Definition writeIndexFile (memIndex : index.MemIndex)
    (db : gmap (list byte) (list byte)) : gmap (list byte) (list byte) :=
  foldl (λ db v, <[index.Key_MarshalBinary (index.K v)
                   := index.Value_MarshalBinary (index.V v)]> db)
        db (index.entries memIndex).

(** The scheduler after it has sent [sent]: a good state, the latch up
    only before the first packet, and the counters no further apart than
    the largest packet since the last rotation, with its record header. *)
Definition sched_inv (n : nat) (st : schedState) (sent : list (nat * Message)) : Prop :=
  sched_ok n st
  ∧ (createNewFile st = true ↔ sent = [])
  ∧ spread_le (fileBytes st) (largest (captureLengthOf <$> since_rotation sent) + 16).

(** *** Muxer *)


(** *** Vocabulary for the traffic between the stages *)

(** The packets routed to writer [i] since the last rotation. *)
Definition routed_step (i : nat) (acc : list Message) (im : nat * Message)
    : list Message :=
  match msgType im.2 with
  | msgTypeNewPcapFile => []
  | msgTypePacket => if decide (im.1 = i) then acc ++ [im.2] else acc
  | _ => acc
  end.

Definition routed_since (i : nat) (sent : list (nat * Message)) : list Message :=
  fold_left (routed_step i) sent [].

(** The size of a pcap file that holds the packets of [msgs]: the 24 bytes
    of the file header and, for every packet, the 16 bytes of its record
    header and its captured bytes. *)
Definition onDisk (msgs : list Message) : Z :=
  24 + foldr Z.add 0 ((λ msg, captureLengthOf msg + 16) <$> msgs).

(** A packet that [ParsePacket] takes apart without a panic. *)
Definition decodes (p : Packet) : Prop := common.ParsePacket p ≠ Panic.

(** What a writer may find on its input channel: [NewPcapFile] messages
    with a directory, a base name and an index, and [Packet] messages
    with a packet and an index, none of them before the first
    [NewPcapFile] unless a file is [open] already. *)
Fixpoint writer_input (open : bool) (input : list Message) : Prop :=
  match input with
  | [] => True
  | msg :: input' =>
      match msgType msg with
      | msgTypeNewPcapFile =>
          (∃ base b idx,
             Get msg msgPayloadPcapPathBase = Some (VString base)
             ∧ Get msg msgPayloadPcapFilename = Some (VString b)
             ∧ Get msg msgPayloadPcapIdx = Some (VByte idx))
          ∧ writer_input true input'
      | msgTypePacket =>
          open = true
          ∧ (∃ p idx,
               Get msg msgPayloadPacket = Some (VPacket p) ∧ decodes p
               ∧ Get msg msgPayloadPcapIdx = Some (VByte idx))
          ∧ writer_input open input'
      | _ => False
      end
  end.

(** What the Indexer needs of a [Packet] message. *)
Definition indexable (msg : Message) : Prop :=
  ∃ p idx off,
    Get msg msgPayloadPacket = Some (VPacket p) ∧ decodes p
    ∧ Get msg msgPayloadPcapIdx = Some (VByte idx)
    ∧ Get msg msgPayloadOffset = Some (VUint32 off).

(** The shape of the output of one writer, read from some point on, with
    [cur] the base name of the file that is open at that point: a
    [NewPcapFile] only with no file open, a [FileClosed] only for the open
    file, a [Packet] only stamped with the base name of the open file. *)
Fixpoint writer_protocol (cur : option string) (out : list Message) : Prop :=
  match out with
  | [] => True
  | msg :: out' =>
      match msgType msg, Get msg msgPayloadPcapFilename with
      | msgTypeNewPcapFile, Some (VString b) =>
          cur = None ∧ writer_protocol (Some b) out'
      | msgTypeFileClosed, Some (VString b) =>
          cur = Some b ∧ writer_protocol None out'
      | msgTypePacket, Some (VString b) =>
          cur = Some b ∧ indexable msg ∧ writer_protocol cur out'
      | _, _ => False
      end
  end.

(** The base name of the file that a writer has open. *)
Definition openName (st : writerState) : option string :=
  match pcapFile st with
  | Some _ => Some (pcapFilename st)
  | None => None
  end.


(** *** Vocabulary for the Indexer *)

(** The keys that the Indexer builds: of the fixed length, and never a
    MAC key. *)
Definition indexer_key (k : index.Key) : Prop :=
  index.Key_wf k ∧ index.RecType k ≠ index.MACType.

Definition indexer_keys (m : index.MemIndex) : Prop :=
  ∀ h miv, m !! h = Some miv → indexer_key (index.K miv).

Definition cache_keys (cache : indexCache) : Prop :=
  ∀ b im, cache !! b = Some im → indexer_keys (index_ im).

Definition out_keys (out : list Message) : Prop :=
  ∀ msg m, msg ∈ out → Get msg msgPayloadMemoryIndex = Some (VMemIndex m) →
           indexer_keys m.



End capture.

(** ** Package [serve] *)

Module serve.

(** A Go [error] result. *)
Inductive result (A : Type) : Type :=
  | Ok (a : A)
  | Err (msg : string).
Arguments Ok {A} a.
Arguments Err {A} msg.

(** [strings.HasSuffix] and [strings.TrimSuffix] *)
Definition HasSuffix (s suffix : string) : bool :=
  String.prefix (String.rev suffix) (String.rev s).

Definition TrimSuffix (s suffix : string) : string :=
  if HasSuffix s suffix
  then String.substring 0 (String.length s - String.length suffix) s
  else s.

(** An entry of a directory listing, [os.FileInfo]. *)
Record FileInfo : Type := mkFileInfo { Name : string; IsDir : bool }.

(** The loop of [getIndexPaths] over the listing of the index directory.
    [parse] is [time.Parse(common.FileTimeFormat, _)], giving the instant
    in nanoseconds or [None] for an error; [start] and [end_] are
    instants too. *)
Fixpoint getIndexPaths_loop (parse : string → option Z) (dirs : list FileInfo)
    (start end_ : Z) (indices : list string) : result (list string) :=
  match dirs with
  | [] => Ok indices
  | dir :: dirs' =>
      if IsDir dir && HasSuffix (Name dir) common.IndexNameSuffix then
        let ts := TrimSuffix (Name dir) ("." +:+ common.IndexNameSuffix) in
        match parse ts with
        | None => Err "unable to parse time from directory"
        | Some t =>
            if decide (start < t ∧ t < end_)
            then getIndexPaths_loop parse dirs' start end_ (indices ++ [Name dir])
            else getIndexPaths_loop parse dirs' start end_ indices
        end
      else getIndexPaths_loop parse dirs' start end_ indices
  end.

(** [readDir] is the answer of [ioutil.ReadDir(indexDir)]: the entries
    sorted by name, or [None] for an error. *)
Definition getIndexPaths (parse : string → option Z) (readDir : option (list FileInfo))
    (start end_ : Z) : result (list string) :=
  match readDir with
  | None => Err "unable to read directory"
  | Some dirs => getIndexPaths_loop parse dirs start end_ []
  end.

(** The directories that the specification selects: the subdirectories
    whose name ends in [.idx], whose prefix parses, and whose time lies
    strictly between [start] and [end_]. *)
Definition selected (parse : string → option Z) (start end_ : Z) (dir : FileInfo) : bool :=
  IsDir dir && HasSuffix (Name dir) ".idx"
  && match parse (TrimSuffix (Name dir) ".idx") with
     | Some t => bool_decide (start < t ∧ t < end_)
     | None => false
     end.

(** Whether the prefix of every subdirectory named [*.idx] parses. *)
Definition parses (parse : string → option Z) (dir : FileInfo) : bool :=
  negb (IsDir dir && HasSuffix (Name dir) ".idx")
  || bool_decide (is_Some (parse (TrimSuffix (Name dir) ".idx"))).

(** *** The canonical format, [2006_01_02-15_04_05] *)

Definition digitValue (c : ascii) : option Z :=
  let n := Z.of_N (N_of_ascii c) in
  if decide (48 ≤ n ≤ 57) then Some (n - 48) else None.

Fixpoint number (acc : Z) (cs : list ascii) : option Z :=
  match cs with
  | [] => Some acc
  | c :: cs' => d ← digitValue c; number (10 * acc + d) cs'
  end.

Definition isLeap (year : Z) : bool :=
  bool_decide (year mod 4 = 0 ∧ (year mod 100 ≠ 0 ∨ year mod 400 = 0)).

Definition daysIn (month year : Z) : Z :=
  if decide (month = 2) then (if isLeap year then 29 else 28)
  else if decide (month = 4 ∨ month = 6 ∨ month = 9 ∨ month = 11) then 30
  else 31.

(** Days from 1970-01-01 to a date of the proleptic Gregorian calendar. *)
Definition daysFromCivil (y m d : Z) : Z :=
  let y := if decide (m ≤ 2) then y - 1 else y in
  let era := y / 400 in
  let yoe := y - era * 400 in
  let doy := (153 * (if decide (2 < m) then m - 3 else m + 9) + 2) / 5 + d - 1 in
  let doe := yoe * 365 + yoe / 4 - yoe / 100 + doy in
  era * 146097 + doe - 719468.

(** The instant, in nanoseconds, that [time.Parse] gives for a name of
    exactly the form [YYYY_MM_DD-HH_MM_SS] with fields in range.
    [time.Parse] accepts in addition a fractional second after the
    seconds; no file name of the program has one. *)
Definition parseFileTime (s : string) : option Z :=
  match String.list_ascii_of_string s with
  | [y1; y2; y3; y4; u1; m1; m2; u2; d1; d2; h0; h1; h2; u3; i1; i2; u4; s1; s2] =>
      if decide (u1 = "_" ∧ u2 = "_" ∧ h0 = "-" ∧ u3 = "_" ∧ u4 = "_")%char then
        year ← number 0 [y1; y2; y3; y4];
        month ← number 0 [m1; m2];
        day ← number 0 [d1; d2];
        hour ← number 0 [h1; h2];
        minute ← number 0 [i1; i2];
        second ← number 0 [s1; s2];
        if decide (1 ≤ month ≤ 12 ∧ 1 ≤ day ≤ daysIn month year
                   ∧ hour < 24 ∧ minute < 60 ∧ second < 60)
        then Some ((daysFromCivil year month day * 86400
                    + hour * 3600 + minute * 60 + second) * 1000000000)
        else None
      else None
  | _ => None
  end.

(** *** Lookup keys *)

(** The argument of a query after [net.ParseIP], [strconv.ParseUint] and
    [net.ParseMAC]; a protocol is given by its name in lower case. *)
Inductive query : Type :=
  | QueryIP (ip : list byte)
  | QueryPort (port : Z)
  | QueryProtocol (name : string)
  | QueryMAC (mac : list byte).

Definition createKey (q : query) : result (list byte) :=
  match q with
  | QueryIP ip =>
      match index.To4 ip with
      | Some _ =>
          match index.NewIPv4Key ip with
          | Some k => Ok (index.Key_MarshalBinary k)
          | None => Err "error creating key"
          end
      | None =>
          match index.To16 ip with
          | Some _ =>
              match index.NewIPv6Key ip with
              | Some k => Ok (index.Key_MarshalBinary k)
              | None => Err "error creating key"
              end
          | None => Err "error creating ip key"
          end
      end
  | QueryPort port => Ok (index.Key_MarshalBinary (index.NewPortKey (wrap 16 port)))
  | QueryProtocol name =>
      if decide (name = "tcp") then Ok (index.Key_MarshalBinary (index.NewProtoKey x06))
      else if decide (name = "udp") then Ok (index.Key_MarshalBinary (index.NewProtoKey x11))
      else if decide (name = "icmp") then Ok (index.Key_MarshalBinary (index.NewProtoKey x01))
      else if decide (name = "icmp6") then Ok (index.Key_MarshalBinary (index.NewProtoKey x3a))
      else Err "query protocol is not supported"
  | QueryMAC mac => Ok (index.Key_MarshalBinary (index.NewMACKey mac))
  end.

(** The point lookup of [QueryStream] in one index store: a missing key
    gives no row.  The value is copied by [append([]byte{}, val...)],
    whose capacity the allocator chooses: [spare] is what lies behind the
    copy. *)
Definition lookupValue (db : gmap (list byte) (list byte)) (key : list byte)
    (spare : list byte) : outcome index.Value :=
  match db !! key with
  | None => Done []
  | Some val => index.Value_UnmarshalBinary [] (Slice val spare)
  end.

(** *** Responses *)

(** [base64.StdEncoding.EncodeToString] *)
Definition encodeStd : string :=
  "ABCDEFGHIJKLMNOPQRSTUVWXYZabcdefghijklmnopqrstuvwxyz0123456789+/".

Definition sextet (n : Z) : ascii :=
  default "="%char (String.get (Z.to_nat (n mod 64)) encodeStd).

Fixpoint EncodeToString (src : list byte) : string :=
  match src with
  | [] => ""
  | [b0] =>
      let n := byte_to_Z b0 * 65536 in
      String (sextet (n / 262144)) (String (sextet (n / 4096)) "==")
  | [b0; b1] =>
      let n := byte_to_Z b0 * 65536 + byte_to_Z b1 * 256 in
      String (sextet (n / 262144)) (String (sextet (n / 4096))
        (String (sextet (n / 64)) "="))
  | b0 :: b1 :: b2 :: rest =>
      let n := byte_to_Z b0 * 65536 + byte_to_Z b1 * 256 + byte_to_Z b2 in
      String (sextet (n / 262144)) (String (sextet (n / 4096))
        (String (sextet (n / 64)) (String (sextet n) (EncodeToString rest))))
  end.

(** The fields of [v1.QueryResp]; the addresses are kept as the bytes that
    their [String] methods render. *)
Record QueryResp : Type := mkQueryResp {
  RespTimestamp : Z;
  Length : Z;
  Text : string;
  SrcMAC : list byte; DstMAC : list byte;
  SrcIP : list byte; DstIP : list byte;
  SrcPort : Z; DstPort : Z;
  Proto : string;
  Ipv6 : bool }.

Definition createResp (ts : Z) (packetLen : Z) (packet : Packet)
    (showAll base64Enc : bool) : outcome QueryResp :=
  let t := String.list_byte_of_string (Dump packet) in
  let text :=
    if showAll
    then (if base64Enc then EncodeToString t else String_ packet)
    else ""%string in
  r ← common.ParsePacket packet;
  Done (mkQueryResp ts packetLen text
          (common.sMAC r) (common.dMAC r) (common.sIP r) (common.dIP r)
          (common.sPort r) (common.dPort r) (common.protoStr r)
          (bool_decide (common.vers r = 6))).

(** *** Packets from the pcap files *)

(** [file.ReadAt(b, off)] on a file with the bytes [file], for a buffer of
    [n] bytes: an error for a negative offset and, for a buffer that is
    not empty, when the file ends before the buffer is full. *)
Definition ReadAt (file : list byte) (n : nat) (off : Z) : result (list byte) :=
  if decide (off < 0) then Err "negative offset"
  else if decide (n = 0%nat) then Ok []
  else if decide (Z.to_nat off + n ≤ length file)%nat
       then Ok (take n (drop (Z.to_nat off) file))
       else Err "EOF".

(** [readHeaderFromFile]: the instant, in nanoseconds, and the captured
    length of the record header at [offset].  [microsec*1000] is a
    product of [uint32]. *)
Definition readHeaderFromFile (file : list byte) (offset : Z) : result (Z * Z) :=
  match ReadAt file 16 offset with
  | Err e => Err "error reading packet length from file"
  | Ok packetHeader =>
      match LittleEndian.Uint32 (take 4 packetHeader),
            LittleEndian.Uint32 (take 4 (drop 4 packetHeader)),
            LittleEndian.Uint32 (take 4 (drop 8 packetHeader)) with
      | Done sec, Done microsec, Done packetLen =>
          Ok (sec * 1000000000 + wrap 32 (microsec * 1000), packetLen)
      | _, _, _ => Err "short header"
      end
  end.

(** [readPacketFromFile], up to the decoder: the bytes that
    [gopacket.NewPacket] is given. *)
Definition readPacketFromFile (file : list byte) (offset packetLen : Z)
    : result (list byte) :=
  match ReadAt file (Z.to_nat packetLen) offset with
  | Err e => Err "error reading packet data from file"
  | Ok packetData => Ok packetData
  end.

(** The two reads of [QueryStream] for an element with the offset
    [offset], a [uint32]: the header at [int64(offset)], the data at
    [int64(offset+16)]. *)
Definition readRecord (file : list byte) (offset : Z) : result (Z * Z * list byte) :=
  match readHeaderFromFile file offset with
  | Err e => Err e
  | Ok (ts, packetLen) =>
      match readPacketFromFile file (wrap 32 (offset + 16)) packetLen with
      | Err e => Err e
      | Ok packetData => Ok (ts, packetLen, packetData)
      end
  end.

(** [strings.Replace(s, old, new, 1)]: the leftmost occurrence of [old]. *)
Fixpoint Replace1 (s old new : string) : string :=
  if String.prefix old s
  then new +:+ String.substring (String.length old)
                 (String.length s - String.length old) s
  else match s with
       | EmptyString => EmptyString
       | String c s' => String c (Replace1 s' old new)
       end.

(** The directory and the name of the pcap file that [QueryStream] opens
    for an element found in the index [indexName];
    [s.pcapPaths[val.PathIdx]] panics beyond the list. *)
Definition pcapFilePath (pcapPaths : list string) (indexName : string)
    (val : index.ValueElement) : outcome (string * string) :=
  pcapDir ← must (pcapPaths !! Z.to_nat (byte_to_Z (index.PathIdx val)));
  let n := Replace1 indexName ("." +:+ common.IndexNameSuffix) "" in
  let pcapFileName :=
    n +:+ "_" +:+ common.decimal (byte_to_Z (index.PathIdx val))
      +:+ "." +:+ common.PcapNameSuffix in
  Done (pcapDir, pcapFileName).

End serve.

(** ** Sample packets

    The three packets of scenario S1 of the specification and two frames
    of other sizes, as the decoder would present them. *)

Module samples.

Definition ip4 (a b c d : byte) : list byte := index.v4InV6Prefix ++ [a; b; c; d].
Definition macA : list byte := [x02; x00; x00; x00; x00; x01].
Definition macB : list byte := [x02; x00; x00; x00; x00; x02].
Definition t0 : Time := Date 2020 1 1 0 0 0.

(** p1 = UDP 10.0.0.1:53 -> 10.0.0.2:55000, 100 bytes *)
Definition p1 : Packet :=
  mkPacket 100 t0 (Some (macA, macB)) true false
    (Some (ip4 x0a x00 x00 x01, ip4 x0a x00 x00 x02))
    false true false false (Some (53, 55000))
    "PACKET: 100 bytes, UDP 00000000 02 00 00 00 00 02" "PACKET: 100 bytes, UDP".

(** p2 = TCP 10.0.0.1:443 -> 10.0.0.3:40000, 200 bytes *)
Definition p2 : Packet :=
  mkPacket 200 t0 (Some (macA, macB)) true false
    (Some (ip4 x0a x00 x00 x01, ip4 x0a x00 x00 x03))
    true false false false (Some (443, 40000))
    "PACKET: 200 bytes, TCP 00000000 02 00 00 00 00 02" "PACKET: 200 bytes, TCP".

(** p3 = ICMP 10.0.0.2 -> 10.0.0.1, 74 bytes *)
Definition p3 : Packet :=
  mkPacket 74 t0 (Some (macB, macA)) true false
    (Some (ip4 x0a x00 x00 x02, ip4 x0a x00 x00 x01))
    false false true false None
    "PACKET: 74 bytes, ICMPv4 00000000 02 00 00 00 00 01" "PACKET: 74 bytes, ICMPv4".

(** A frame of [n] captured bytes with no layer that the program knows. *)
Definition frame (n : Z) : Packet :=
  mkPacket n t0 None false false None false false false false None "" "".

(** What the reader sends for a packet. *)
Definition read (p : Packet) : capture.Message :=
  capture.Set_ (capture.NewMessage capture.msgTypePacket)
    capture.msgPayloadPacket (capture.VPacket p).

End samples.

(* ===================================================================== *)
(** * Theorems                                                            *)
(* ===================================================================== *)

(** ** Bytes and little-endian words *)

Lemma byte_to_Z_range (b : byte) : 0 ≤ byte_to_Z b < 256.
Proof.
  unfold byte_to_Z. pose proof (Byte.to_N_bounded b) as Hb. lia.
Qed.

Lemma byte_of_to_Z (b : byte) : byte_of_Z (byte_to_Z b) = b.
Proof.
  unfold byte_of_Z, wrap.
  rewrite Z.mod_small by (change (2 ^ 8) with 256; apply byte_to_Z_range).
  unfold byte_to_Z. rewrite N2Z.id, Byte.of_to_N. reflexivity.
Qed.

Lemma byte_to_of_Z (z : Z) : byte_to_Z (byte_of_Z z) = z mod 256.
Proof.
  unfold byte_of_Z, wrap, byte_to_Z. change (2 ^ 8) with 256.
  pose proof (Z.mod_pos_bound z 256 eq_refl) as Hr.
  destruct (Byte.of_N (Z.to_N (z mod 256))) as [b|] eqn:E; simpl.
  - apply Byte.to_of_N in E. rewrite E. lia.
  - apply Byte.of_N_None_iff in E. lia.
Qed.

Lemma le32_split (v : Z) :
  0 ≤ v < 2 ^ 32 →
  Z.lor (Z.lor (Z.lor (v mod 256) (Z.shiftl (Z.shiftr v 8 mod 256) 8))
               (Z.shiftl (Z.shiftr v 16 mod 256) 16))
        (Z.shiftl (Z.shiftr v 24 mod 256) 24) = v.
Proof.
  intros Hv. apply Z.bits_inj'. intros n Hn.
  change 256 with (2 ^ 8).
  rewrite !Z.lor_spec.
  assert (Hhigh : 32 ≤ n → Z.testbit v n = false).
  { intros Hge. destruct (decide (v = 0)) as [->|Hne].
    - apply Z.bits_0.
    - apply Z.bits_above_log2; [lia|].
      assert (Z.log2 v < 32) by (apply Z.log2_lt_pow2; lia). lia. }
  destruct (decide (n < 8)).
  { rewrite Z.mod_pow2_bits_low by lia.
    rewrite !Z.shiftl_spec_low by lia. by rewrite !orb_false_r. }
  destruct (decide (n < 16)).
  { rewrite Z.mod_pow2_bits_high by lia.
    rewrite (Z.shiftl_spec _ 8) by lia.
    rewrite Z.mod_pow2_bits_low by lia. rewrite Z.shiftr_spec by lia.
    rewrite !Z.shiftl_spec_low by lia.
    rewrite !orb_false_r. simpl. f_equal. lia. }
  destruct (decide (n < 24)).
  { rewrite Z.mod_pow2_bits_high by lia.
    rewrite (Z.shiftl_spec _ 8), (Z.shiftl_spec _ 16) by lia.
    rewrite (Z.mod_pow2_bits_high _ 8 (n - 8)) by lia.
    rewrite Z.mod_pow2_bits_low by lia. rewrite Z.shiftr_spec by lia.
    rewrite !Z.shiftl_spec_low by lia.
    rewrite !orb_false_r. simpl. f_equal. lia. }
  rewrite Z.mod_pow2_bits_high by lia.
  rewrite (Z.shiftl_spec _ 8), (Z.shiftl_spec _ 16), (Z.shiftl_spec _ 24) by lia.
  rewrite (Z.mod_pow2_bits_high _ 8 (n - 8)) by lia.
  rewrite (Z.mod_pow2_bits_high _ 8 (n - 16)) by lia.
  simpl.
  destruct (decide (n < 32)).
  - rewrite Z.mod_pow2_bits_low by lia. rewrite Z.shiftr_spec by lia.
    f_equal. lia.
  - rewrite Z.mod_pow2_bits_high by lia. symmetry. apply Hhigh. lia.
Qed.

Lemma Uint32_PutUint32 (v : Z) (rest : list byte) :
  0 ≤ v < 2 ^ 32 →
  LittleEndian.Uint32 (LittleEndian.PutUint32 v ++ rest) = Done v.
Proof.
  intros Hv. unfold LittleEndian.PutUint32. simpl. f_equal.
  unfold LittleEndian.word32. rewrite !byte_to_of_Z. by apply le32_split.
Qed.

(** ** Decoding a value blob *)

Section unmarshal.
Import index.

Lemma take5_drop (l : list byte) (o : nat) :
  (o + 5 ≤ length l)%nat →
  take 5 (drop o l) =
    [l !!! o; l !!! (o + 1)%nat; l !!! (o + 2)%nat; l !!! (o + 3)%nat; l !!! (o + 4)%nat].
Proof.
  intros Hlen.
  assert (Hd : (5 ≤ length (drop o l))%nat) by (rewrite length_drop; lia).
  assert (Hnth : ∀ j, (j < 5)%nat → drop o l !! j = Some (l !!! (o + j)%nat)).
  { intros j Hj. rewrite lookup_drop. apply list_lookup_lookup_total_lt. lia. }
  destruct (drop o l) as [|a0 [|a1 [|a2 [|a3 [|a4 tl]]]]]; simpl in Hd; try lia.
  pose proof (Hnth 0%nat ltac:(lia)) as H0. pose proof (Hnth 1%nat ltac:(lia)) as H1.
  pose proof (Hnth 2%nat ltac:(lia)) as H2. pose proof (Hnth 3%nat ltac:(lia)) as H3.
  pose proof (Hnth 4%nat ltac:(lia)) as H4. simpl in *.
  rewrite Nat.add_0_r in H0. rewrite take_0. congruence.
Qed.

Lemma unmarshal_loop_unfold (fuel : nat) (data : slice) (o : nat) (v : Value) :
  Value_UnmarshalBinary_loop (S fuel) data o v =
  if decide (o < slice_len data)%nat then
    chunk ← reslice data o (o + 5);
    elem ← ValueElement_UnmarshalBinary chunk;
    Value_UnmarshalBinary_loop fuel data (o + 5)%nat (Value_Append v elem)
  else Done v.
Proof. reflexivity. Qed.

(** One iteration whose chunk lies within the capacity. *)
Lemma unmarshal_loop_step (fuel : nat) (data : slice) (i : nat) (v : Value) :
  (5 * i < slice_len data)%nat →
  (5 * i + 5 ≤ slice_cap data)%nat →
  Value_UnmarshalBinary_loop (S fuel) data (5 * i) v =
  Value_UnmarshalBinary_loop fuel data (5 * S i)
    (v ++ [element_at (elems data ++ spare data) i]).
Proof.
  intros Hlt Hcap. rewrite unmarshal_loop_unfold.
  rewrite decide_True by done.
  unfold reslice. rewrite decide_True by (split; lia).
  replace (5 * i + 5 - 5 * i)%nat with 5%nat by lia.
  rewrite take5_drop by (rewrite length_app; unfold slice_cap in Hcap; lia).
  replace (5 * i + 5)%nat with (5 * S i)%nat by lia. reflexivity.
Qed.

(** [q] iterations that all lie within the capacity. *)
Lemma unmarshal_loop_run (q : nat) :
  ∀ (fuel : nat) (data : slice) (i : nat) (v : Value),
  (5 * (i + q) ≤ slice_cap data)%nat →
  (q = 0 ∨ 5 * (i + q) < slice_len data + 5)%nat →
  (q ≤ fuel)%nat →
  Value_UnmarshalBinary_loop fuel data (5 * i) v =
  Value_UnmarshalBinary_loop (fuel - q) data (5 * (i + q))
    (v ++ (element_at (elems data ++ spare data) <$> seq i q)).
Proof.
  induction q as [|q IH]; intros fuel data i v Hcap Hlen Hfuel.
  - rewrite Nat.add_0_r, Nat.sub_0_r. cbn [seq]. by rewrite fmap_nil, app_nil_r.
  - destruct fuel as [|fuel]; [lia|].
    rewrite unmarshal_loop_step by lia.
    rewrite IH by lia.
    replace (S i + q)%nat with (i + S q)%nat by lia.
    cbn [seq]. rewrite fmap_cons, <- app_assoc.
    by replace (S fuel - S q)%nat with (fuel - q)%nat by lia.
Qed.

Lemma unmarshal_loop_end (fuel : nat) (data : slice) (o : nat) (v : Value) :
  (slice_len data ≤ o)%nat →
  Value_UnmarshalBinary_loop fuel data o v = Done v.
Proof.
  intros Hle. destruct fuel; simpl; by rewrite decide_False by lia.
Qed.

Lemma unmarshal_loop_panic (fuel : nat) (data : slice) (o : nat) (v : Value) :
  (o < slice_len data)%nat → (slice_cap data < o + 5)%nat → (0 < fuel)%nat →
  Value_UnmarshalBinary_loop fuel data o v = Panic.
Proof.
  intros Hlt Hcap Hfuel. destruct fuel as [|fuel]; [lia|].
  rewrite unmarshal_loop_unfold. rewrite decide_True by done.
  unfold reslice. by rewrite decide_False by lia.
Qed.

(** A blob of [5 n] bytes decodes to [n] elements. *)
Lemma unmarshal_multiple (data : slice) (n : nat) (v : Value) :
  slice_len data = (5 * n)%nat →
  Value_UnmarshalBinary v data = Done (v ++ (element_at (elems data) <$> seq 0 n)).
Proof.
  intros Hlen. unfold Value_UnmarshalBinary.
  pose proof (unmarshal_loop_run n (slice_len data) data 0 v) as Hrun.
  simpl in Hrun. rewrite Hrun; clear Hrun.
  - rewrite unmarshal_loop_end by lia. f_equal. f_equal.
    apply list_fmap_ext. intros j i Hi. apply lookup_seq in Hi as [-> Hi].
    unfold slice_len in Hlen. unfold element_at. simpl.
    rewrite !lookup_total_app_l by lia. reflexivity.
  - unfold slice_cap, slice_len in *. lia.
  - lia.
  - lia.
Qed.

End unmarshal.

(** ** Round trip of the binary encodings *)

Section roundtrip.
Import index.

Lemma Value_MarshalBinary_length (v : Value) :
  length (Value_MarshalBinary v) = (5 * length v)%nat.
Proof.
  induction v as [|e v IH]; [done|].
  cbn [Value_MarshalBinary fold_right]. fold (Value_MarshalBinary v).
  rewrite length_app, IH. simpl. lia.
Qed.

Lemma element_at_head (e : ValueElement) (rest : list byte) :
  ValueElement_wf e →
  element_at (ValueElement_MarshalBinary e ++ rest) 0 = e.
Proof.
  intros Hwf. destruct e as [p o]. unfold element_at. simpl.
  f_equal. unfold ValueElement_wf in Hwf. simpl in Hwf.
  unfold LittleEndian.word32. rewrite !byte_to_of_Z. by apply le32_split.
Qed.

Lemma element_at_tail (e : ValueElement) (rest : list byte) (i : nat) :
  element_at (ValueElement_MarshalBinary e ++ rest) (S i) = element_at rest i.
Proof.
  unfold element_at.
  assert (Hshift : ∀ j, (ValueElement_MarshalBinary e ++ rest) !!! (5 * S i + j)%nat
                        = rest !!! (5 * i + j)%nat).
  { intros j. rewrite lookup_total_app_r by (simpl; lia).
    f_equal. simpl. lia. }
  pose proof (Hshift 0%nat) as H0. rewrite !Nat.add_0_r in H0.
  by rewrite H0, !Hshift.
Qed.

Lemma element_at_marshal (v : Value) :
  Forall ValueElement_wf v →
  element_at (Value_MarshalBinary v) <$> seq 0 (length v) = v.
Proof.
  induction 1 as [|e v He Hv IH]; [done|].
  cbn [Value_MarshalBinary fold_right length seq]. fold (Value_MarshalBinary v).
  rewrite fmap_cons, element_at_head by done. f_equal.
  rewrite <- fmap_S_seq, <- list_fmap_compose.
  etrans; [|exact IH]. apply list_fmap_ext. intros j i _. simpl.
  apply element_at_tail.
Qed.

Lemma Value_roundtrip (v : Value) (sp : list byte) :
  Forall ValueElement_wf v →
  Value_UnmarshalBinary NewValue (Slice (Value_MarshalBinary v) sp) = Done v.
Proof.
  intros Hwf.
  rewrite (unmarshal_multiple _ (length v)).
  - simpl. by rewrite element_at_marshal.
  - unfold slice_len. simpl. apply Value_MarshalBinary_length.
Qed.

End roundtrip.

(** C1. Decoding the binary form of a key gives the key back and decoding
    the binary form of a value gives the value back (whatever the capacity
    of the slice that holds the blob); the binary form of a key of one of
    the five defined tags, with data of the tag's fixed length, is one byte
    longer than that fixed length, which is 6, 1, 4, 16 and 2 for MAC,
    PROTO, IPv4, IPv6 and PORT. *)
Theorem C1_roundtrip (k : index.Key) (v : index.Value) (sp : list byte) :
  index.Key_wf k →
  Forall index.ValueElement_wf v →
  index.Key_UnmarshalBinary (index.Key_MarshalBinary k) = Done k
  ∧ index.Value_UnmarshalBinary index.NewValue
      (Slice (index.Value_MarshalBinary v) sp) = Done v
  ∧ (∃ fixed, index.fixedLen (index.RecType k) = Some fixed
              ∧ length (index.Key_MarshalBinary k) = (1 + fixed)%nat)
  ∧ index.fixedLen index.MACType = Some 6%nat
  ∧ index.fixedLen index.ProtoType = Some 1%nat
  ∧ index.fixedLen index.IPv4Type = Some 4%nat
  ∧ index.fixedLen index.IPv6Type = Some 16%nat
  ∧ index.fixedLen index.PortType = Some 2%nat.
Proof.
  intros Hk Hv. split_and!; try reflexivity.
  - by destruct k.
  - by apply Value_roundtrip.
  - unfold index.Key_wf in Hk. by exists (length (index.Data k)).
Qed.

Lemma C1_roundtrip_witness :
  let k := index.NewPortKey 80 in
  let v := [index.NewValueElement x01 24; index.NewValueElement x00 4294967295] in
  index.Key_MarshalBinary k = [x04; x50; x00]
  ∧ index.Key_UnmarshalBinary (index.Key_MarshalBinary k) = Done k
  ∧ index.Value_UnmarshalBinary index.NewValue
      (Slice (index.Value_MarshalBinary v) []) = Done v.
Proof.
  intros k v. split; [reflexivity|].
  assert (Hk : index.Key_wf k) by reflexivity.
  assert (Hv : Forall index.ValueElement_wf v).
  { repeat constructor; unfold index.ValueElement_wf; simpl; lia. }
  pose proof (C1_roundtrip k v [] Hk Hv) as (H1 & H2 & _).
  split; assumption.
Defined.

(** C10. [Value.UnmarshalBinary] on a blob of length [5 n + r], [r < 5]:
    when [r = 0] it appends exactly the [n] elements whose path index is
    byte [5 i] and whose offset is the little-endian word of bytes
    [5 i + 1 .. 5 i + 4]; when [r > 0] the last slice expression
    [data[5 n : 5 n + 5]] is out of range, and the call panics, exactly
    when the capacity of [data] is below [5 n + 5] (so whenever the
    capacity equals the length); with a larger capacity the call returns
    [n + 1] elements, the last one read partly from beyond the length. *)
Theorem C10_unmarshal_total (data : slice) (v : index.Value) :
  let n := (slice_len data / 5)%nat in
  index.Value_UnmarshalBinary v data =
    if decide (slice_len data mod 5 = 0)%nat
    then Done (v ++ (index.element_at (elems data) <$> seq 0 n))
    else if decide (slice_cap data < 5 * n + 5)%nat
         then Panic
         else Done (v ++ (index.element_at (elems data ++ spare data) <$> seq 0 (n + 1))).
Proof.
  intros n.
  pose proof (Nat.div_mod_eq (slice_len data) 5) as Hdm. fold n in Hdm.
  pose proof (Nat.mod_upper_bound (slice_len data) 5 ltac:(lia)) as Hr.
  destruct (decide (slice_len data mod 5 = 0)%nat) as [Hz|Hnz].
  - apply unmarshal_multiple. lia.
  - unfold index.Value_UnmarshalBinary.
    destruct (decide (slice_cap data < 5 * n + 5)%nat) as [Hcap|Hcap].
    + pose proof (unmarshal_loop_run n (slice_len data) data 0 v) as Hrun.
      cbn [Nat.add] in Hrun. replace (5 * 0)%nat with 0%nat in Hrun by lia.
      rewrite Hrun.
      * apply unmarshal_loop_panic; lia.
      * unfold slice_cap, slice_len in *. lia.
      * lia.
      * lia.
    + pose proof (unmarshal_loop_run (n + 1) (slice_len data) data 0 v) as Hrun.
      cbn [Nat.add] in Hrun. replace (5 * 0)%nat with 0%nat in Hrun by lia.
      rewrite Hrun.
      * apply unmarshal_loop_end. lia.
      * lia.
      * lia.
      * lia.
Qed.

(** C10 as the specification states it, for every length that is not a
    multiple of 5, fails: a blob of four bytes in a backing
    array of eight, which is what [append([]byte{}, val...)] allocates for
    four bytes, is decoded without a panic into one element, whose last
    offset byte is the zero behind the blob. *)
Lemma C10_counterexample :
  let data := Slice [x01; x02; x03; x04] [x00; x00; x00; x00] in
  (slice_len data mod 5 ≠ 0)%nat
  ∧ slice_cap data = 8%nat
  ∧ index.Value_UnmarshalBinary [] data
    = Done [index.NewValueElement x01 (2 + 3 * 2 ^ 8 + 4 * 2 ^ 16)].
Proof. split; [by vm_compute|]. split; reflexivity. Qed.

(** ** Open addressing in the mem index *)

Section memindex.
Import index.

Lemma Key_Equal_true (a b : Key) : Key_Equal a b = true ↔ a = b.
Proof.
  unfold Key_Equal. destruct a as [ta da], b as [tb db]. simpl.
  destruct (decide (ta ≠ tb)) as [Hne|He].
  - split; [done|]. intros [= -> ->]. done.
  - apply dec_stable in He. subst tb. rewrite bool_decide_eq_true.
    split; [by intros ->|by intros [= ->]].
Qed.

Lemma Key_Equal_decide (a b : Key) : Key_Equal a b = bool_decide (a = b).
Proof.
  destruct (Key_Equal a b) eqn:E.
  - apply Key_Equal_true in E. by rewrite bool_decide_eq_true_2.
  - rewrite bool_decide_eq_false_2; [done|].
    intros Heq. apply Key_Equal_true in Heq. congruence.
Qed.

Lemma wrap32_range (z : Z) : 0 ≤ wrap 32 z < 2 ^ 32.
Proof. unfold wrap. apply Z.mod_pos_bound. lia. Qed.

Lemma fnv32a_Write_range (h : Z) (p : list byte) :
  0 ≤ h < 2 ^ 32 → 0 ≤ fnv32a_Write h p < 2 ^ 32.
Proof.
  revert h. induction p as [|c p IH]; intros h Hh; [done|].
  simpl. apply IH. apply wrap32_range.
Qed.

Lemma Key_Hash_range (k : Key) : 0 ≤ Key_Hash k < 2 ^ 32.
Proof.
  unfold Key_Hash. apply fnv32a_Write_range, fnv32a_Write_range.
  unfold offset32. lia.
Qed.

Lemma slot_0 (k : Key) : slot k 0 = Key_Hash k.
Proof.
  unfold slot, wrap. rewrite Z.add_0_r. apply Z.mod_small, Key_Hash_range.
Qed.

Lemma slot_S (k : Key) (d : nat) : wrap 32 (slot k d + 1) = slot k (S d).
Proof.
  unfold slot, wrap. rewrite Z.add_mod_idemp_l by lia. f_equal. lia.
Qed.

Lemma slot_range (k : Key) (d : nat) : 0 ≤ slot k d < 2 ^ 32.
Proof. apply wrap32_range. Qed.

Lemma slot_inj (k : Key) (d1 d2 : nat) :
  Z.of_nat d1 < 2 ^ 32 → Z.of_nat d2 < 2 ^ 32 → slot k d1 = slot k d2 → d1 = d2.
Proof.
  unfold slot, wrap. change (2 ^ 32) with 4294967296. intros H1 H2 Heq.
  pose proof (Z.div_mod (Key_Hash k + Z.of_nat d1) 4294967296 ltac:(lia)) as E1.
  pose proof (Z.div_mod (Key_Hash k + Z.of_nat d2) 4294967296 ltac:(lia)) as E2.
  rewrite Heq in E1. lia.
Qed.

Lemma slot_period (k : Key) (d : nat) :
  2 ^ 32 ≤ Z.of_nat d → slot k d = slot k (d - Z.to_nat (2 ^ 32)).
Proof.
  intros Hd. unfold slot, wrap.
  replace (Key_Hash k + Z.of_nat d)
    with (Key_Hash k + Z.of_nat (d - Z.to_nat (2 ^ 32)) + 1 * 2 ^ 32) by lia.
  apply Z.mod_add. lia.
Qed.

Lemma Put_loop_unfold (fuel : nat) (m : MemIndex) (k : Key) (ve : ValueElement) (d : nat) :
  Put_loop (S fuel) m k ve (slot k d) =
  match put_at m k ve d with
  | Some m' => Done m'
  | None => Put_loop fuel m k ve (slot k (S d))
  end.
Proof.
  cbn [Put_loop]. unfold put_at, Value_Append, NewValue.
  destruct (m !! slot k d) as [miv|]; [|done].
  rewrite Key_Equal_decide. rewrite slot_S.
  destruct (decide (K miv = k)) as [He|Hne].
  - by rewrite bool_decide_eq_true_2.
  - by rewrite bool_decide_eq_false_2.
Qed.

Lemma blocked_put_at (m : MemIndex) (k : Key) (ve : ValueElement) (d0 d j : nat) :
  blocked m k d0 d → (d0 ≤ j < d)%nat → put_at m k ve j = None.
Proof.
  intros Hb Hj. destruct (Hb j Hj) as (miv & Hm & Hne).
  unfold put_at. rewrite Hm. by rewrite decide_False.
Qed.

(** If the loop can leave at slot [d] and has the fuel to get there, it
    does. *)
Lemma Put_loop_reaches (n : nat) :
  ∀ (fuel : nat) (m m' : MemIndex) (k : Key) (ve : ValueElement) (d0 : nat),
  blocked m k d0 (d0 + n) →
  put_at m k ve (d0 + n) = Some m' →
  (n < fuel)%nat →
  Put_loop fuel m k ve (slot k d0) = Done m'.
Proof.
  induction n as [|n IH]; intros fuel m m' k ve d0 Hb Hput Hfuel;
    (destruct fuel as [|fuel]; [lia|]); rewrite Put_loop_unfold.
  - rewrite Nat.add_0_r in Hput. by rewrite Hput.
  - rewrite (blocked_put_at m k ve d0 (d0 + S n) d0) by (done || lia).
    apply IH; [|by replace (S d0 + n)%nat with (d0 + S n)%nat by lia|lia].
    intros j Hj. apply Hb. lia.
Qed.

(** If the loop leaves, it leaves at some slot [d] that it had the fuel to
    reach, having found every slot before it taken by another key. *)
Lemma Put_loop_inv (fuel : nat) :
  ∀ (m m' : MemIndex) (k : Key) (ve : ValueElement) (d0 : nat),
  Put_loop fuel m k ve (slot k d0) = Done m' →
  ∃ n, (n < fuel)%nat ∧ blocked m k d0 (d0 + n) ∧ put_at m k ve (d0 + n) = Some m'.
Proof.
  induction fuel as [|fuel IH]; intros m m' k ve d0 Hrun; [done|].
  rewrite Put_loop_unfold in Hrun.
  destruct (put_at m k ve d0) as [m1|] eqn:Hput.
  - exists 0%nat. rewrite Nat.add_0_r. split_and!; [lia| |congruence].
    intros j Hj. lia.
  - apply IH in Hrun as (n & Hn & Hb & Hp).
    exists (S n). replace (d0 + S n)%nat with (S d0 + n)%nat by lia.
    split_and!; [lia| |done].
    intros j Hj. destruct (decide (j = d0)) as [->|Hne]; [|apply Hb; lia].
    unfold put_at in Hput. destruct (m !! slot k d0) as [miv|]; [|done].
    destruct (decide (K miv = k)); [done|]. by exists miv.
Qed.

Lemma Put_loop_no_panic (fuel : nat) :
  ∀ (m : MemIndex) (k : Key) (ve : ValueElement) (h : Z),
  Put_loop fuel m k ve h ≠ Panic.
Proof.
  induction fuel as [|fuel IH]; intros m k ve h; [done|].
  simpl. destruct (m !! h) as [miv|]; [|done].
  destruct (Key_Equal (K miv) k); [done|apply IH].
Qed.

(** A slot that the loop can leave at lies within the first [2^32]. *)
Lemma put_at_lt (m m' : MemIndex) (k : Key) (ve : ValueElement) (d : nat) :
  blocked m k 0 d → put_at m k ve d = Some m' → Z.of_nat d < 2 ^ 32.
Proof.
  intros Hb Hput. destruct (decide (Z.of_nat d < 2 ^ 32)) as [|Hge]; [done|].
  exfalso.
  destruct (Hb (d - Z.to_nat (2 ^ 32))%nat ltac:(lia)) as (miv & Hm & Hne).
  rewrite <- slot_period in Hm by lia.
  unfold put_at in Hput. rewrite Hm in Hput. by rewrite decide_False in Hput.
Qed.

(** Pigeonhole: [d] taken slots in a row, [d ≤ 2^32], are [d] entries. *)
Lemma taken_slots_size (m : MemIndex) (k : Key) (d : nat) :
  (∀ j, (j < d)%nat → is_Some (m !! slot k j)) →
  Z.of_nat d ≤ 2 ^ 32 →
  (d ≤ size m)%nat.
Proof.
  intros Htaken Hd.
  assert (Hnd : NoDup (slot k <$> seq 0 d)).
  { apply NoDup_fmap_2_strong; [|apply NoDup_seq].
    intros j1 j2 H1 H2 Heq. apply elem_of_seq in H1, H2.
    apply (slot_inj k); [lia|lia|done]. }
  assert (Hsub : slot k <$> seq 0 d ⊆+ (map_to_list m).*1).
  { apply NoDup_submseteq; [done|]. intros h Hh.
    apply list_elem_of_fmap in Hh as (j & -> & Hj). apply elem_of_seq in Hj.
    destruct (Htaken j ltac:(lia)) as [miv Hm].
    apply list_elem_of_fmap. exists (slot k j, miv). split; [done|].
    by apply elem_of_map_to_list. }
  apply submseteq_length in Hsub.
  rewrite !length_fmap, length_seq, length_map_to_list in Hsub. done.
Qed.

Lemma blocked_taken (m : MemIndex) (k : Key) (d : nat) :
  blocked m k 0 d → ∀ j, (j < d)%nat → is_Some (m !! slot k j).
Proof. intros Hb j Hj. destruct (Hb j ltac:(lia)) as (miv & Hm & _). eauto. Qed.

(** The loop finds a slot to leave at among the first [n], or all of them
    are taken by other keys. *)
Lemma probe_search (m : MemIndex) (k : Key) (ve : ValueElement) (n : nat) :
  blocked m k 0 n
  ∨ ∃ d, (d < n)%nat ∧ blocked m k 0 d ∧ is_Some (put_at m k ve d).
Proof.
  induction n as [|n [Hb|(d & Hd & Hb & Hs)]].
  - left. intros j Hj. lia.
  - destruct (put_at m k ve n) as [m'|] eqn:Hput.
    + right. exists n. split_and!; [lia|done|by rewrite Hput].
    + left. intros j Hj. destruct (decide (j = n)) as [->|]; [|apply Hb; lia].
      unfold put_at in Hput. destruct (m !! slot k n) as [miv|]; [|done].
      destruct (decide (K miv = k)); [done|]. by exists miv.
  - right. exists d. split_and!; [lia|done|done].
Qed.

(** In an index that is not full, [Put] of any key leaves its loop within
    [size m + 1] probes. *)
Lemma probe_not_full (m : MemIndex) (k : Key) (ve : ValueElement) :
  Z.of_nat (size m) < 2 ^ 32 →
  ∃ d, (d ≤ size m)%nat ∧ blocked m k 0 d ∧ is_Some (put_at m k ve d).
Proof.
  intros Hsize.
  destruct (probe_search m k ve (S (size m))) as [Hb|(d & Hd & Hb & Hs)].
  - pose proof (taken_slots_size m k (S (size m)) (blocked_taken m k _ Hb)). lia.
  - exists d. split_and!; [lia|done|done].
Qed.

(** [Put] of a key that the index holds finds it within [size m] probes. *)
Lemma probe_present (m : MemIndex) (k : Key) (ve : ValueElement) (h : Z) (miv : MiValue) :
  MemIndex_inv m → m !! h = Some miv → K miv = k →
  ∃ d, (d < size m)%nat ∧ blocked m k 0 d ∧ h = slot k d.
Proof.
  intros Hinv Hm HK. destruct (Hinv h miv Hm) as (d & Hd & Hh & Hb).
  rewrite HK in Hh, Hb. exists d. split_and!; [|done|done].
  pose proof (taken_slots_size m k (S d)) as Hsz.
  assert (Htaken : ∀ j, (j < S d)%nat → is_Some (m !! slot k j)).
  { intros j Hj. destruct (decide (j = d)) as [->|].
    - rewrite <- Hh. eauto.
    - apply (blocked_taken m k d Hb). lia. }
  specialize (Hsz Htaken). lia.
Qed.

(** No two slots hold the same key. *)
Lemma inv_key_unique (m : MemIndex) (h1 h2 : Z) (e1 e2 : MiValue) :
  MemIndex_inv m → m !! h1 = Some e1 → m !! h2 = Some e2 → K e1 = K e2 → h1 = h2.
Proof.
  intros Hinv H1 H2 HK.
  destruct (Hinv h1 e1 H1) as (d1 & Hd1 & -> & Hb1).
  destruct (Hinv h2 e2 H2) as (d2 & Hd2 & -> & Hb2).
  rewrite HK in *.
  destruct (Nat.lt_total d1 d2) as [Hlt|[->|Hlt]]; [| done |].
  - destruct (Hb2 d1 ltac:(lia)) as (miv & Hm & Hne). congruence.
  - destruct (Hb1 d2 ltac:(lia)) as (miv & Hm & Hne). congruence.
Qed.

Lemma blocked_keep (m m' : MemIndex) (k : Key) (d0 d : nat) :
  (∀ h miv, m !! h = Some miv → ∃ miv', m' !! h = Some miv' ∧ K miv' = K miv) →
  blocked m k d0 d → blocked m' k d0 d.
Proof.
  intros Hkeep Hb j Hj. destruct (Hb j Hj) as (miv & Hm & Hne).
  destruct (Hkeep _ _ Hm) as (miv' & Hm' & HK). exists miv'. by rewrite HK.
Qed.

(** Leaving the loop at a slot keeps the keys of all entries in place. *)
Lemma put_at_keep (m m' : MemIndex) (k : Key) (ve : ValueElement) (d : nat) :
  put_at m k ve d = Some m' →
  ∀ h miv, m !! h = Some miv → ∃ miv', m' !! h = Some miv' ∧ K miv' = K miv.
Proof.
  unfold put_at. intros Hput h miv Hm.
  destruct (m !! slot k d) as [e|] eqn:Hs.
  - destruct (decide (K e = k)); [|done]. injection Hput as <-.
    destruct (decide (h = slot k d)) as [->|Hne].
    + rewrite lookup_insert_eq. eexists. split; [done|]. simpl. congruence.
    + rewrite lookup_insert_ne by done. eauto.
  - injection Hput as <-.
    rewrite lookup_insert_ne by congruence. eauto.
Qed.

Lemma put_under_snoc (k k' : Key) (ve : ValueElement) (ops : list (Key * ValueElement)) :
  put_under k' (ops ++ [(k, ve)]) =
  put_under k' ops ++ (if decide (k = k') then [ve] else []).
Proof.
  unfold put_under. rewrite filter_app, fmap_app. f_equal.
  rewrite filter_cons. simpl. destruct (decide (k = k')); done.
Qed.

Lemma put_under_absent (k : Key) (ops : list (Key * ValueElement)) :
  k ∉ ops.*1 → put_under k ops = [].
Proof.
  intros Hnin. unfold put_under.
  induction ops as [|[k0 v0] ops IH]; [done|].
  rewrite fmap_cons, not_elem_of_cons in Hnin. destruct Hnin as [Hne Hnin].
  simpl in Hne. rewrite filter_cons_False by (simpl; congruence). by apply IH.
Qed.

(** One [Put] keeps the invariant and extends what the index represents. *)
Lemma put_at_correct (m m' : MemIndex) (k : Key) (ve : ValueElement) (d : nat)
    (ops : list (Key * ValueElement)) :
  MemIndex_inv m → represents m ops →
  blocked m k 0 d → put_at m k ve d = Some m' →
  MemIndex_inv m' ∧ represents m' (ops ++ [(k, ve)]).
Proof.
  intros Hinv [Hrep1 Hrep2] Hb Hput.
  pose proof (put_at_lt _ _ _ _ _ Hb Hput) as Hd.
  pose proof (put_at_keep _ _ _ _ _ Hput) as Hkeep.
  unfold put_at in Hput.
  destruct (m !! slot k d) as [e|] eqn:Hs.
  - (* the key is there: append *)
    destruct (decide (K e = k)) as [HK|]; [|done]. injection Hput as <-.
    split.
    + intros h miv Hm.
      destruct (decide (h = slot k d)) as [->|Hne].
      * rewrite lookup_insert_eq in Hm. injection Hm as <-. simpl.
        destruct (Hinv _ _ Hs) as (d' & Hd' & Hh & Hb').
        exists d'. split_and!; [done|done|]. by eapply blocked_keep.
      * rewrite lookup_insert_ne in Hm by done.
        destruct (Hinv _ _ Hm) as (d' & Hd' & Hh & Hb').
        exists d'. split_and!; [done|done|]. by eapply blocked_keep.
    + split.
      * intros h miv Hm. rewrite fmap_app, put_under_snoc.
        destruct (decide (h = slot k d)) as [->|Hne].
        -- rewrite lookup_insert_eq in Hm. injection Hm as <-. simpl.
           destruct (Hrep1 _ _ Hs) as [Hin HV].
           split; [apply elem_of_app; by left|]. rewrite HV. by rewrite decide_True.
        -- rewrite lookup_insert_ne in Hm by done.
           destruct (Hrep1 _ _ Hm) as [Hin HV].
           split; [apply elem_of_app; by left|]. rewrite HV.
           rewrite decide_False; [by rewrite app_nil_r|].
           intros ->. apply Hne.
           by apply (inv_key_unique m h (slot (K miv) d) miv e).
      * intros k' Hin. rewrite fmap_app in Hin. simpl in Hin.
        apply elem_of_app in Hin as [Hin|Hin].
        -- destruct (Hrep2 _ Hin) as (h & miv & Hm & HKm).
           destruct (Hkeep _ _ Hm) as (miv' & Hm' & HK').
           exists h, miv'. split; [done|congruence].
        -- apply list_elem_of_singleton in Hin as ->.
           eexists _, _. split; [apply lookup_insert_eq|done].
  - (* an empty slot: the key is new *)
    injection Hput as <-.
    assert (Hnew : k ∉ ops.*1).
    { intros Hin. destruct (Hrep2 _ Hin) as (h & miv & Hm & HKm).
      destruct (Hinv _ _ Hm) as (d' & Hd' & -> & Hb'). rewrite HKm in *.
      destruct (Nat.lt_total d d') as [Hlt|[->|Hlt]].
      - destruct (Hb' d ltac:(lia)) as (? & ? & _). congruence.
      - congruence.
      - destruct (Hb d' ltac:(lia)) as (? & ? & ?). congruence. }
    split.
    + intros h miv Hm.
      destruct (decide (h = slot k d)) as [->|Hne].
      * rewrite lookup_insert_eq in Hm. injection Hm as <-. simpl.
        exists d. split_and!; [done|done|]. by eapply blocked_keep.
      * rewrite lookup_insert_ne in Hm by done.
        destruct (Hinv _ _ Hm) as (d' & Hd' & Hh & Hb').
        exists d'. split_and!; [done|done|]. by eapply blocked_keep.
    + split.
      * intros h miv Hm. rewrite fmap_app, put_under_snoc.
        destruct (decide (h = slot k d)) as [->|Hne].
        -- rewrite lookup_insert_eq in Hm. injection Hm as <-. simpl.
           split; [apply elem_of_app; right; apply list_elem_of_singleton; done|].
           by rewrite put_under_absent, decide_True.
        -- rewrite lookup_insert_ne in Hm by done.
           destruct (Hrep1 _ _ Hm) as [Hin HV].
           split; [apply elem_of_app; by left|]. rewrite HV.
           rewrite decide_False; [by rewrite app_nil_r|].
           intros ->. by apply Hnew.
      * intros k' Hin. rewrite fmap_app in Hin. simpl in Hin.
        apply elem_of_app in Hin as [Hin|Hin].
        -- destruct (Hrep2 _ Hin) as (h & miv & Hm & HKm).
           destruct (Hkeep _ _ Hm) as (miv' & Hm' & HK').
           exists h, miv'. split; [done|congruence].
        -- apply list_elem_of_singleton in Hin as ->.
           eexists _, _. split; [apply lookup_insert_eq|done].
Qed.

Lemma inv_keys_NoDup (m : MemIndex) :
  MemIndex_inv m → NoDup (K <$> entries m).
Proof.
  intros Hinv. unfold entries. rewrite <- list_fmap_compose.
  apply NoDup_fmap_2_strong; [|apply NoDup_map_to_list].
  intros [h1 e1] [h2 e2] H1 H2 HK. simpl in HK.
  apply elem_of_map_to_list in H1, H2.
  assert (h1 = h2) as -> by by eapply inv_key_unique.
  congruence.
Qed.

Lemma elem_of_entries (m : MemIndex) (e : MiValue) :
  e ∈ entries m ↔ ∃ h, m !! h = Some e.
Proof.
  unfold entries. rewrite list_elem_of_fmap. split.
  - intros ([h e'] & -> & Hin). apply elem_of_map_to_list in Hin. eauto.
  - intros [h Hm]. exists (h, e). split; [done|]. by apply elem_of_map_to_list.
Qed.

Lemma size_distinct_keys (m : MemIndex) (ops : list (Key * ValueElement)) :
  MemIndex_inv m → represents m ops → size m = distinct_keys ops.
Proof.
  intros Hinv [Hrep1 Hrep2]. unfold distinct_keys.
  rewrite <- length_map_to_list.
  rewrite <- (length_fmap snd), <- (length_fmap K). fold (entries m).
  apply Permutation_length, NoDup_Permutation.
  - by apply inv_keys_NoDup.
  - apply NoDup_remove_dups.
  - intros k. rewrite elem_of_remove_dups, list_elem_of_fmap. split.
    + intros (e & -> & He). apply elem_of_entries in He as [h Hm].
      by apply (Hrep1 h e).
    + intros Hin. destruct (Hrep2 k Hin) as (h & e & Hm & HK).
      exists e. split; [done|]. apply elem_of_entries. eauto.
Qed.

Lemma distinct_keys_app_le (l1 l2 : list (Key * ValueElement)) :
  (distinct_keys l1 ≤ distinct_keys (l1 ++ l2))%nat.
Proof.
  unfold distinct_keys. apply submseteq_length, NoDup_submseteq.
  - apply NoDup_remove_dups.
  - intros k. rewrite !elem_of_remove_dups, fmap_app, elem_of_app. by left.
Qed.

Lemma distinct_keys_snoc_new (ops : list (Key * ValueElement)) (k : Key) (ve : ValueElement) :
  k ∉ ops.*1 → distinct_keys (ops ++ [(k, ve)]) = S (distinct_keys ops).
Proof.
  intros Hnew. unfold distinct_keys.
  change (S (length (remove_dups ops.*1))) with (length (k :: remove_dups ops.*1)).
  apply Permutation_length, NoDup_Permutation.
  - apply NoDup_remove_dups.
  - apply NoDup_cons. split; [by rewrite elem_of_remove_dups|apply NoDup_remove_dups].
  - intros k'. rewrite elem_of_cons, !elem_of_remove_dups, fmap_app, elem_of_app.
    simpl. rewrite list_elem_of_singleton. tauto.
Qed.

(** [Put] returns when the index has room for the key or has the key. *)
Lemma Put_total (fuel : nat) (m : MemIndex) (k : Key) (ve : ValueElement)
    (ops : list (Key * ValueElement)) :
  MemIndex_inv m → represents m ops →
  (distinct_keys (ops ++ [(k, ve)]) ≤ fuel)%nat →
  Z.of_nat (distinct_keys (ops ++ [(k, ve)])) ≤ 2 ^ 32 →
  ∃ m', Put fuel m k ve = Done m'
        ∧ MemIndex_inv m' ∧ represents m' (ops ++ [(k, ve)]).
Proof.
  intros Hinv Hrep Hfuel Hroom.
  pose proof (size_distinct_keys m ops Hinv Hrep) as Hsize.
  pose proof (distinct_keys_app_le ops [(k, ve)]) as Hle.
  assert (∃ d m', (d < fuel)%nat ∧ blocked m k 0 d ∧ put_at m k ve d = Some m')
    as (d & m' & Hd & Hb & Hput).
  { destruct (decide (k ∈ ops.*1)) as [Hin|Hnew].
    - destruct Hrep as [_ Hrep2]. destruct (Hrep2 k Hin) as (h & miv & Hm & HK).
      destruct (probe_present m k ve h miv Hinv Hm HK) as (d & Hd & Hb & ->).
      eexists d, _. split_and!; [lia|done|].
      unfold put_at. rewrite Hm. by rewrite decide_True.
    - rewrite distinct_keys_snoc_new in Hfuel, Hroom by done.
      destruct (probe_not_full m k ve ltac:(lia)) as (d & Hd & Hb & [m' Hput]).
      exists d, m'. split_and!; [lia|done|done]. }
  exists m'. split.
  - unfold Put. rewrite <- slot_0. by apply (Put_loop_reaches d).
  - by eapply put_at_correct.
Qed.

(** Whenever [Put] returns, it has done the right thing. *)
Lemma Put_sound (fuel : nat) (m m' : MemIndex) (k : Key) (ve : ValueElement)
    (ops : list (Key * ValueElement)) :
  MemIndex_inv m → represents m ops →
  Put fuel m k ve = Done m' →
  MemIndex_inv m' ∧ represents m' (ops ++ [(k, ve)]).
Proof.
  intros Hinv Hrep Hrun. unfold Put in Hrun. rewrite <- slot_0 in Hrun.
  apply Put_loop_inv in Hrun as (n & _ & Hb & Hput).
  by eapply put_at_correct.
Qed.

Lemma PutAll_total (ops : list (Key * ValueElement)) :
  ∀ (fuel : nat) (m : MemIndex) (ops0 : list (Key * ValueElement)),
  MemIndex_inv m → represents m ops0 →
  (distinct_keys (ops0 ++ ops) ≤ fuel)%nat →
  Z.of_nat (distinct_keys (ops0 ++ ops)) ≤ 2 ^ 32 →
  ∃ m', PutAll fuel m ops = Done m'
        ∧ MemIndex_inv m' ∧ represents m' (ops0 ++ ops).
Proof.
  induction ops as [|[k ve] ops IH]; intros fuel m ops0 Hinv Hrep Hfuel Hroom.
  - exists m. rewrite app_nil_r. done.
  - replace (ops0 ++ (k, ve) :: ops) with ((ops0 ++ [(k, ve)]) ++ ops) in *
      by by rewrite <- app_assoc.
    pose proof (distinct_keys_app_le (ops0 ++ [(k, ve)]) ops) as Hle.
    destruct (Put_total fuel m k ve ops0 Hinv Hrep ltac:(lia) ltac:(lia))
      as (m1 & Hput & Hinv1 & Hrep1).
    destruct (IH fuel m1 _ Hinv1 Hrep1 Hfuel Hroom) as (m' & Hrun & Hinv' & Hrep').
    exists m'. split; [|done].
    cbn [PutAll]. rewrite Hput. exact Hrun.
Qed.

Lemma PutAll_sound (ops : list (Key * ValueElement)) :
  ∀ (fuel : nat) (m m' : MemIndex) (ops0 : list (Key * ValueElement)),
  MemIndex_inv m → represents m ops0 →
  PutAll fuel m ops = Done m' →
  MemIndex_inv m' ∧ represents m' (ops0 ++ ops).
Proof.
  induction ops as [|[k ve] ops IH]; intros fuel m m' ops0 Hinv Hrep Hrun.
  - simpl in Hrun. injection Hrun as <-. by rewrite app_nil_r.
  - cbn [PutAll] in Hrun.
    destruct (Put fuel m k ve) as [m1| |] eqn:Hput; try done.
    destruct (Put_sound _ _ _ _ _ _ Hinv Hrep Hput) as [Hinv1 Hrep1].
    replace (ops0 ++ (k, ve) :: ops) with ((ops0 ++ [(k, ve)]) ++ ops)
      by by rewrite <- app_assoc.
    by apply (IH fuel m1).
Qed.

Lemma PutAll_no_panic (ops : list (Key * ValueElement)) :
  ∀ (fuel : nat) (m : MemIndex), PutAll fuel m ops ≠ Panic.
Proof.
  induction ops as [|[k ve] ops IH]; intros fuel m; [done|].
  cbn [PutAll]. destruct (Put fuel m k ve) as [m1| |] eqn:Hput; [apply IH| |done].
  by apply Put_loop_no_panic in Hput.
Qed.

Lemma inv_empty : MemIndex_inv NewMemIndex.
Proof. intros h miv Hm. unfold NewMemIndex in Hm. by rewrite lookup_empty in Hm. Qed.

Lemma represents_empty : represents NewMemIndex [].
Proof.
  split.
  - intros h miv Hm. unfold NewMemIndex in Hm. by rewrite lookup_empty in Hm.
  - intros k Hk. by apply elem_of_nil in Hk.
Qed.

Lemma filter_none {A} (P : A → Prop) `{!∀ x, Decision (P x)} (l : list A) :
  (∀ y, y ∈ l → ¬ P y) → filter P l = [].
Proof.
  induction l as [|a l IH]; intros Hno; [done|].
  rewrite filter_cons_False by (apply Hno; left).
  apply IH. intros y Hy. apply Hno. by right.
Qed.

Lemma filter_the_one {A} (P : A → Prop) `{!∀ x, Decision (P x)} (l : list A) (x : A) :
  NoDup l → x ∈ l → P x → (∀ y, y ∈ l → P y → y = x) → filter P l = [x].
Proof.
  induction 1 as [|a l Ha Hnd IH]; intros Hin HP Huniq.
  - by apply elem_of_nil in Hin.
  - destruct (decide (P a)) as [HPa|HPa].
    + assert (a = x) as -> by (apply Huniq; [left|done]).
      rewrite filter_cons_True by done. f_equal.
      apply filter_none. intros y Hy HPy.
      assert (y = x) as -> by (apply Huniq; [by right|done]). done.
    + rewrite filter_cons_False by done.
      apply elem_of_cons in Hin as [->|Hin]; [done|].
      apply IH; [done|done|]. intros y Hy. apply Huniq. by right.
Qed.

(** What can be read back from an index that represents [ops]. *)
Lemma retrieve_represents (m : MemIndex) (ops : list (Key * ValueElement)) (k : Key) :
  MemIndex_inv m → represents m ops →
  retrieve m k = if decide (k ∈ ops.*1) then [put_under k ops] else [].
Proof.
  intros Hinv [Hrep1 Hrep2]. unfold retrieve.
  destruct (decide (k ∈ ops.*1)) as [Hin|Hnin].
  - destruct (Hrep2 k Hin) as (h & e & Hm & HK).
    rewrite (filter_the_one _ _ e).
    + simpl. f_equal. destruct (Hrep1 h e Hm) as [_ HV]. congruence.
    + eapply NoDup_fmap_1, inv_keys_NoDup, Hinv.
    + apply elem_of_entries. eauto.
    + done.
    + intros e' He' HK'. apply elem_of_entries in He' as [h' Hm'].
      assert (h' = h) as -> by (eapply inv_key_unique; [done..|congruence]).
      congruence.
  - rewrite filter_none; [done|].
    intros e He HK. apply elem_of_entries in He as [h Hm].
    destruct (Hrep1 h e Hm) as [Hin _]. congruence.
Qed.

Lemma table_size_Z : Z.of_nat table_size = 2 ^ 32.
Proof. unfold table_size. lia. Qed.

(** An index never has more entries than there are slots. *)
Lemma inv_size_le (m : MemIndex) : MemIndex_inv m → (size m ≤ table_size)%nat.
Proof.
  intros Hinv.
  assert (Hsub : (map_to_list m).*1 ⊆+ seqZ 0 (2 ^ 32)).
  { apply NoDup_submseteq; [apply NoDup_fst_map_to_list|].
    intros h Hh. apply list_elem_of_fmap in Hh as ([h' e] & -> & Hin).
    apply elem_of_map_to_list in Hin. simpl.
    destruct (Hinv _ _ Hin) as (d & _ & -> & _).
    apply elem_of_seqZ. pose proof (slot_range (K e) d). lia. }
  apply submseteq_length in Hsub.
  by rewrite length_fmap, length_map_to_list, length_seqZ in Hsub.
Qed.

Lemma wide_key_inj (i j : nat) :
  (i ≤ table_size)%nat → (j ≤ table_size)%nat → wide_key i = wide_key j → i = j.
Proof.
  intros Hi Hj Heq. pose proof table_size_Z as HT.
  assert (Hlow : Z.of_nat i mod 2 ^ 32 = Z.of_nat j mod 2 ^ 32).
  { apply (f_equal (λ k, LittleEndian.Uint32 (Data k))) in Heq.
    unfold wide_key in Heq. cbn [Data] in Heq.
    rewrite !Uint32_PutUint32 in Heq by (apply Z.mod_pos_bound; lia).
    congruence. }
  assert (Hhigh : Z.of_nat i / 2 ^ 32 = Z.of_nat j / 2 ^ 32).
  { apply (f_equal (λ k, byte_to_Z <$> Data k !! 4%nat)) in Heq.
    unfold wide_key, LittleEndian.PutUint32 in Heq. cbn in Heq.
    injection Heq as Heq. rewrite !byte_to_of_Z in Heq.
    assert (0 ≤ Z.of_nat i / 2 ^ 32 ≤ 1).
    { split; [apply Z.div_pos; lia|]. apply Z.div_le_upper_bound; lia. }
    assert (0 ≤ Z.of_nat j / 2 ^ 32 ≤ 1).
    { split; [apply Z.div_pos; lia|]. apply Z.div_le_upper_bound; lia. }
    rewrite !Z.mod_small in Heq by lia. done. }
  pose proof (Z.div_mod (Z.of_nat i) (2 ^ 32) ltac:(lia)).
  pose proof (Z.div_mod (Z.of_nat j) (2 ^ 32) ltac:(lia)).
  apply Nat2Z.inj. congruence.
Qed.

Lemma overfull_distinct : distinct_keys overfull_ops = S table_size.
Proof.
  unfold distinct_keys, overfull_ops. rewrite <- list_fmap_compose.
  assert (Hnd : NoDup ((fst ∘ (λ i, (wide_key i, NewValueElement x00 24)))
                       <$> seq 0 (S table_size))).
  { apply NoDup_fmap_2_strong; [|apply NoDup_seq].
    intros i j Hi Hj Heq. apply elem_of_seq in Hi, Hj.
    apply wide_key_inj; [lia|lia|done]. }
  etrans; [apply Permutation_length, NoDup_Permutation;
           [apply NoDup_remove_dups|exact Hnd|apply elem_of_remove_dups]|].
  by rewrite length_fmap, length_seq.
Qed.

End memindex.

(** C2 (as amended: at most [2^32] distinct keys).  A sequence of [Put]
    operations whose keys number at most [2^32] distinct ones runs to its
    end, whatever the collisions among the hashes, and leaves an index in
    which every key of the sequence has exactly one entry, whose value is
    the list of the elements put under that key, in input order and with
    duplicates kept; no other key has an entry.  As many loop iterations as
    there are distinct keys are enough for every [Put]. *)
Theorem C2_put_all (fuel : nat) (ops : list (index.Key * index.ValueElement)) :
  (index.distinct_keys ops ≤ fuel)%nat →
  Z.of_nat (index.distinct_keys ops) ≤ 2 ^ 32 →
  ∃ m, index.PutAll fuel index.NewMemIndex ops = Done m
       ∧ ∀ k, index.retrieve m k
              = if decide (k ∈ ops.*1) then [index.put_under k ops] else [].
Proof.
  intros Hfuel Hroom.
  destruct (PutAll_total ops fuel index.NewMemIndex [] inv_empty represents_empty
              Hfuel Hroom) as (m & Hrun & Hinv & Hrep).
  exists m. split; [done|]. intros k. by apply retrieve_represents.
Qed.

(** C2 as the specification states it, for every finite sequence, fails: with
    [2^32 + 1] distinct keys the last new key finds every slot taken by
    another key and the loop of [Put] never leaves, however long it runs. *)
Lemma C2_counterexample :
  (Z.of_nat (length index.overfull_ops) = 2 ^ 32 + 1)
  ∧ ¬ (∃ fuel m, index.PutAll fuel index.NewMemIndex index.overfull_ops = Done m)
  ∧ ∀ fuel, index.PutAll fuel index.NewMemIndex index.overfull_ops = OutOfFuel.
Proof.
  assert (Hno : ∀ fuel m,
            index.PutAll fuel index.NewMemIndex index.overfull_ops ≠ Done m).
  { intros fuel m Hrun.
    destruct (PutAll_sound _ _ _ _ [] inv_empty represents_empty Hrun)
      as [Hinv Hrep].
    rewrite app_nil_l in Hrep.
    pose proof (size_distinct_keys _ _ Hinv Hrep) as Hsize.
    rewrite overfull_distinct in Hsize.
    pose proof (inv_size_le m Hinv). lia. }
  split_and!.
  - unfold index.overfull_ops. rewrite length_fmap, length_seq.
    pose proof table_size_Z. lia.
  - intros (fuel & m & Hrun). by apply (Hno fuel m).
  - intros fuel.
    destruct (index.PutAll fuel index.NewMemIndex index.overfull_ops)
      as [m| |] eqn:Hrun; [|by apply PutAll_no_panic in Hrun|done].
    by apply Hno in Hrun.
Qed.

(** Two IPv6 keys, [2001:db8::f5ca:ef08:194b:5df6] and
    [2001:db8::7b45:b24a:5db7:1952], whose FNV-1a hashes collide, put in
    turn with a repeated element. *)
Lemma C2_put_all_witness :
  let a := index.mkKey index.IPv6Type
             [x20; x01; x0d; xb8; x00; x00; x00; x00;
              xf5; xca; xef; x08; x19; x4b; x5d; xf6] in
  let b := index.mkKey index.IPv6Type
             [x20; x01; x0d; xb8; x00; x00; x00; x00;
              x7b; x45; xb2; x4a; x5d; xb7; x19; x52] in
  let e1 := index.NewValueElement x00 24 in
  let e2 := index.NewValueElement x01 24 in
  let e3 := index.NewValueElement x00 140 in
  let ops := [(a, e1); (b, e2); (a, e3); (b, e2)] in
  index.Key_Hash a = index.Key_Hash b
  ∧ ∃ m, index.PutAll 2 index.NewMemIndex ops = Done m
         ∧ index.retrieve m a = [[e1; e3]]
         ∧ index.retrieve m b = [[e2; e2]]
         ∧ index.retrieve m (index.NewPortKey 80) = [].
Proof.
  intros a b e1 e2 e3 ops. split; [by vm_compute|].
  assert (H1 : (index.distinct_keys ops ≤ 2)%nat) by (vm_compute; lia).
  assert (H2 : Z.of_nat (index.distinct_keys ops) ≤ 2 ^ 32) by (by vm_compute).
  destruct (C2_put_all 2 ops H1 H2) as (m & Hrun & Hret).
  exists m. split; [exact Hrun|].
  rewrite !Hret. split_and!; by vm_compute.
Defined.

(** ** The scheduler *)

Section scheduler.
Import capture.

Lemma smallest_spec (l : list Z) :
  ∀ (i : nat) (m0 : Z) (j0 : nat) (m : Z) (j : nat),
  smallest i l m0 j0 = (m, j) →
  (m = m0 ∧ j = j0 ∧ ∀ x, x ∈ l → m0 ≤ x)
  ∨ (∃ k, l !! k = Some m ∧ j = (i + k)%nat ∧ m < m0 ∧ ∀ x, x ∈ l → m ≤ x).
Proof.
  induction l as [|v l IH]; intros i m0 j0 m j Hs; simpl in Hs.
  - left. injection Hs as <- <-. split_and!; [done|done|].
    intros x Hx. by apply elem_of_nil in Hx.
  - destruct (decide (v < m0)) as [Hlt|Hge].
    + right. apply IH in Hs as [(-> & -> & Hall)|(k & Hk & -> & Hlt' & Hall)].
      * exists 0%nat. split_and!; [done|lia|done|].
        intros x Hx. apply elem_of_cons in Hx as [->|Hx]; [lia|by apply Hall].
      * exists (S k). split_and!; [done|lia|lia|].
        intros x Hx. apply elem_of_cons in Hx as [->|Hx]; [lia|by apply Hall].
    + apply IH in Hs as [(-> & -> & Hall)|(k & Hk & -> & Hlt' & Hall)].
      * left. split_and!; [done|done|].
        intros x Hx. apply elem_of_cons in Hx as [->|Hx]; [lia|by apply Hall].
      * right. exists (S k). split_and!; [done|lia|done|].
        intros x Hx. apply elem_of_cons in Hx as [->|Hx]; [lia|by apply Hall].
Qed.

(** On counters below [MaxUint64], at least one of them, the loop finds
    the smallest and where it is. *)
Lemma smallest_min (l : list Z) (m : Z) (j : nat) :
  l ≠ [] → Forall (λ x, x < MaxUint64) l →
  smallest 0 l MaxUint64 0 = (m, j) →
  l !! j = Some m ∧ is_min l m.
Proof.
  intros Hne Hall Hs.
  apply smallest_spec in Hs as [(-> & -> & Hmin)|(k & Hk & -> & Hlt & Hmin)].
  - destruct l as [|v l]; [done|]. exfalso.
    apply Forall_cons in Hall as [Hv _].
    specialize (Hmin v ltac:(left)). lia.
  - split; [done|]. split; [|done]. by eapply list_elem_of_lookup_2.
Qed.

Lemma newFileMessages_type (paths : list string) (timeStr : string) :
  Forall (λ im, msgType im.2 = msgTypeNewPcapFile) (newFileMessages paths timeStr).
Proof.
  apply Forall_forall. intros [i m] Hin. unfold newFileMessages in Hin.
  apply elem_of_lookup_imap in Hin as (k & p & [= -> ->] & _). done.
Qed.

Lemma rotation_fired_new (paths : list string) (timeStr : string) (im : nat * Message) :
  paths ≠ [] →
  rotation_fired (newFileMessages paths timeStr ++ [im]) = true.
Proof.
  intros Hne. unfold rotation_fired. apply bool_decide_eq_true.
  apply Exists_app. left.
  destruct paths as [|p paths]; [done|]. by apply Exists_cons_hd.
Qed.

Lemma rotation_fired_packet (k : nat) (msg : Message) (v : value) :
  msgType msg = msgTypePacket →
  rotation_fired [(k, Set_ msg msgPayloadPcapIdx v)] = false.
Proof.
  intros Ht. unfold rotation_fired. apply bool_decide_eq_false.
  intros Hex. apply Exists_cons in Hex as [Hh|Ht'].
  - simpl in Hh. congruence.
  - by apply Exists_nil in Ht'.
Qed.

(** The step written out, for a packet message in a good state. *)
Lemma schedule_step_ok (paths : list string) (st : schedState) (msg : Message)
    (p : Packet) (tSince tNow : Z) :
  paths ≠ [] → sched_ok (length paths) st →
  Get msg msgPayloadPacket = Some (VPacket p) → 0 ≤ CaptureLength p < 2 ^ 32 →
  ∃ (minB : Z) (k : nat),
    fileBytes st !! k = Some minB ∧ is_min (fileBytes st) minB ∧
    let s := CaptureLength p + 16 in
    let fire := createNewFile st = true ∨ 2 ^ 32 - 1 ≤ minB + s
                ∨ common.MaxPcapFileTime ≤ tSince - createNewFileTime st in
    let routed := (k, Set_ msg msgPayloadPcapIdx (VByte (byte_of_Z (Z.of_nat k)))) in
    (fire →
       schedule_step paths st msg tSince tNow =
       Done (mkSched false tNow (<[k := 24 + s]> (replicate (length paths) 24)),
             newFileMessages paths (common.GetFileBaseName (Timestamp p)) ++ [routed]))
    ∧ (¬ fire →
       schedule_step paths st msg tSince tNow =
       Done (mkSched false (createNewFileTime st) (<[k := minB + s]> (fileBytes st)),
             [routed])).
Proof.
  intros Hne [Hlen Hrange] Hget Hcap.
  destruct (smallest 0 (fileBytes st) MaxUint64 0) as [minB k] eqn:Hsm.
  assert (Hne' : fileBytes st ≠ []).
  { intros E. rewrite E in Hlen. destruct paths; [done|]. simpl in Hlen. lia. }
  assert (Hlt : Forall (λ x, x < MaxUint64) (fileBytes st)).
  { eapply Forall_impl; [exact Hrange|]. unfold MaxUint64. simpl. lia. }
  destruct (smallest_min _ _ _ Hne' Hlt Hsm) as [Hk Hmin].
  exists minB, k. split_and!; [done|done|]. intros s fire routed.
  assert (HminB : 24 ≤ minB < 2 ^ 33).
  { rewrite Forall_forall in Hrange. apply Hrange. by eapply list_elem_of_lookup_2. }
  assert (Hk' : (k < length paths)%nat).
  { rewrite <- Hlen. by eapply lookup_lt_Some. }
  assert (Hsize : wrap 64 (wrap 64 (CaptureLength p) + 16) = s).
  { unfold wrap, s. rewrite (Z.mod_small (CaptureLength p)) by lia.
    apply Z.mod_small. lia. }
  assert (Hsum : wrap 64 (minB + s) = minB + s).
  { unfold wrap, s. apply Z.mod_small. lia. }
  unfold schedule_step. rewrite Hsm, Hget. cbn [asPacket mbind outcome_bind obind].
  rewrite Hsize, Hsum. unfold maxPcapFileSize, MaxUint32.
  split.
  - intros Hfire.
    assert ((if decide (common.MaxPcapFileTime ≤ tSince - createNewFileTime st)
             then true
             else if decide (2 ^ 32 - 1 ≤ minB + s) then true else createNewFile st)
            = true) as ->.
    { repeat case_decide; try done. destruct Hfire as [?|[?|?]]; done. }
    rewrite decide_True by done. cbn [fileBytes createNewFile createNewFileTime].
    rewrite Hlen. rewrite lookup_replicate_2 by done.
    cbn [must mbind outcome_bind obind].
    replace (wrap 64 (24 + s)) with (24 + s); [done|].
    unfold wrap, s. symmetry. apply Z.mod_small. lia.
  - intros Hno.
    assert ((if decide (common.MaxPcapFileTime ≤ tSince - createNewFileTime st)
             then true
             else if decide (2 ^ 32 - 1 ≤ minB + s) then true else createNewFile st)
            = false) as ->.
    { repeat case_decide; try (exfalso; apply Hno; unfold fire; tauto).
      destruct (createNewFile st); [exfalso; apply Hno; unfold fire; tauto|done]. }
    rewrite decide_True by done. cbn [fileBytes createNewFile createNewFileTime].
    rewrite Hk. cbn [must mbind outcome_bind obind]. by rewrite Hsum.
Qed.

Lemma elem_of_insert_inv {A} (l : list A) (k : nat) (v x : A) :
  x ∈ <[k := v]> l → x = v ∨ x ∈ l.
Proof.
  intros Hin. apply list_elem_of_lookup in Hin as [i Hi].
  apply list_lookup_insert_Some in Hi as [(-> & -> & _)|[_ Hi]]; [by left|].
  right. by eapply list_elem_of_lookup_2.
Qed.

Lemma largest_nonneg (l : list Z) : 0 ≤ largest l.
Proof. induction l as [|x l IH]; simpl; lia. Qed.

Lemma largest_snoc (l : list Z) (c : Z) :
  largest (l ++ [c]) = Z.max (largest l) c.
Proof.
  induction l as [|x l IH]; simpl.
  - lia.
  - rewrite IH. lia.
Qed.

Lemma since_rotation_app (acc sent : list (nat * Message)) :
  since_rotation (acc ++ sent) = fold_left since_rotation_step sent (since_rotation acc).
Proof. unfold since_rotation. apply fold_left_app. Qed.

Lemma since_rotation_all_new (l : list (nat * Message)) :
  ∀ start, l ≠ [] → Forall (λ im, msgType im.2 = msgTypeNewPcapFile) l →
  fold_left since_rotation_step l start = [].
Proof.
  induction l as [|im l IH]; intros start Hne Hty; [done|].
  apply Forall_cons in Hty as [Him Hty]. cbn [fold_left].
  unfold since_rotation_step at 2. rewrite Him.
  destruct l as [|im' l]; [done|]. by apply IH.
Qed.

Lemma since_rotation_new (paths : list string) (timeStr : string) (start : list Message) :
  paths ≠ [] →
  fold_left since_rotation_step (newFileMessages paths timeStr) start = [].
Proof.
  intros Hne. apply since_rotation_all_new; [|apply newFileMessages_type].
  by destruct paths.
Qed.

Lemma captureLengthOf_routed (msg : Message) (p : Packet) (v : value) :
  Get msg msgPayloadPacket = Some (VPacket p) →
  captureLengthOf (Set_ msg msgPayloadPcapIdx v) = CaptureLength p.
Proof.
  intros Hget. unfold captureLengthOf, Get, Set_ in *. simpl.
  rewrite lookup_insert_ne by done. by rewrite Hget.
Qed.

(** One packet keeps the scheduler within its invariant. *)
Lemma schedule_step_inv (paths : list string) (st : schedState)
    (acc : list (nat * Message)) (msg : Message) (tSince tNow : Z) :
  paths ≠ [] → sched_inv (length paths) st acc → packet_message msg →
  ∃ st' sent, schedule_step paths st msg tSince tNow = Done (st', sent)
              ∧ sched_inv (length paths) st' (acc ++ sent).
Proof.
  intros Hne (Hok & Hlatch & Hspread) (Hty & p & Hget & Hcap).
  destruct (schedule_step_ok paths st msg p tSince tNow Hne Hok Hget Hcap)
    as (minB & k & Hk & [Hmin_in Hmin] & Hfire & Hnofire).
  cbv zeta in Hfire, Hnofire.
  destruct Hok as [Hlen Hrange]. rewrite Forall_forall in Hrange.
  pose proof (Hrange minB Hmin_in) as HminB.
  set (s := CaptureLength p + 16) in *.
  destruct (decide (createNewFile st = true ∨ 2 ^ 32 - 1 ≤ minB + s
                    ∨ common.MaxPcapFileTime ≤ tSince - createNewFileTime st))
    as [Hf|Hf].
  - eexists _, _. split; [by apply Hfire|]. split_and!.
    + split; cbn [fileBytes].
      * by rewrite length_insert, length_replicate.
      * apply Forall_forall. intros x Hx.
        apply elem_of_insert_inv in Hx as [->|Hx]; [unfold s; lia|].
        apply elem_of_replicate in Hx as [-> _]. lia.
    + cbn [createNewFile]. split; [done|]. intros E.
      apply app_eq_nil in E as [_ E]. by apply app_eq_nil in E as [_ E].
    + cbn [fileBytes]. rewrite app_assoc, !since_rotation_app.
      rewrite since_rotation_new by done. simpl.
      unfold since_rotation_step. cbn [snd Set_ msgType]. rewrite Hty.
      cbn [fmap list_fmap app]. rewrite (captureLengthOf_routed msg p) by done.
      cbn [largest foldr].
      intros x y Hx Hy.
      apply elem_of_insert_inv in Hx as [->|Hx], Hy as [->|Hy];
        try (apply elem_of_replicate in Hx as [-> _]);
        try (apply elem_of_replicate in Hy as [-> _]); unfold s; lia.
  - eexists _, _. split; [by apply Hnofire|]. split_and!.
    + split; cbn [fileBytes].
      * by rewrite length_insert.
      * apply Forall_forall. intros x Hx.
        apply elem_of_insert_inv in Hx as [->|Hx]; [unfold s; lia|by apply Hrange].
    + cbn [createNewFile]. split; [done|]. intros E. by apply app_eq_nil in E as [_ E].
    + cbn [fileBytes]. rewrite since_rotation_app. simpl.
      unfold since_rotation_step. cbn [snd Set_ msgType]. rewrite Hty.
      rewrite fmap_app. cbn [fmap list_fmap].
      rewrite (captureLengthOf_routed msg p) by done. rewrite largest_snoc.
      pose proof (largest_nonneg (captureLengthOf <$> since_rotation acc)) as Hnn.
      intros x y Hx Hy.
      apply elem_of_insert_inv in Hx as [->|Hx], Hy as [->|Hy].
      * lia.
      * specialize (Hmin y Hy). unfold s. lia.
      * specialize (Hspread x minB Hx Hmin_in). unfold s. lia.
      * specialize (Hspread x y Hx Hy). lia.
Qed.

Lemma schedule_run_inv (paths : list string) (input : list (Message * Z * Z)) :
  ∀ (st : schedState) (acc : list (nat * Message)),
  paths ≠ [] → sched_inv (length paths) st acc →
  Forall (λ i, packet_message i.1.1) input →
  ∃ st' sent, schedule_run paths st input = Done (st', sent)
              ∧ sched_inv (length paths) st' (acc ++ sent).
Proof.
  induction input as [|[[msg tSince] tNow] input IH]; intros st acc Hne Hinv Hin.
  - exists st, []. by rewrite app_nil_r.
  - apply Forall_cons in Hin as [Hmsg Hin]. simpl in Hmsg.
    destruct (schedule_step_inv paths st acc msg tSince tNow Hne Hinv Hmsg)
      as (st1 & sent1 & Hstep & Hinv1).
    destruct (IH st1 (acc ++ sent1) Hne Hinv1 Hin) as (st2 & sent2 & Hrun & Hinv2).
    exists st2, (sent1 ++ sent2). split; [|by rewrite app_assoc].
    cbn [schedule_run]. rewrite Hstep. cbn [mbind outcome_bind obind].
    rewrite Hrun. done.
Qed.

Lemma maximum_elem (l : list Z) : l ≠ [] → maximum l ∈ l.
Proof.
  destruct l as [|a l]; [done|]. intros _. unfold maximum. cbn [head default].
  assert (H : ∀ d l', d ∈ a :: l → l' ⊆ a :: l → foldr Z.max d l' ∈ a :: l).
  { intros d l' Hd. induction l' as [|x l' IH]; intros Hsub; [done|]. simpl.
    destruct (Z.max_spec x (foldr Z.max d l')) as [[_ ->]|[_ ->]].
    - apply IH. intros y Hy. apply Hsub. by right.
    - apply Hsub. by left. }
  apply H; [by left|done].
Qed.

Lemma minimum_elem (l : list Z) : l ≠ [] → minimum l ∈ l.
Proof.
  destruct l as [|a l]; [done|]. intros _. unfold minimum. cbn [head default].
  assert (H : ∀ d l', d ∈ a :: l → l' ⊆ a :: l → foldr Z.min d l' ∈ a :: l).
  { intros d l' Hd. induction l' as [|x l' IH]; intros Hsub; [done|]. simpl.
    destruct (Z.min_spec x (foldr Z.min d l')) as [[_ ->]|[_ ->]].
    - apply Hsub. by left.
    - apply IH. intros y Hy. apply Hsub. by right. }
  apply H; [by left|done].
Qed.

Lemma sched_inv_start (n : nat) (t0 : Z) : sched_inv n (schedStart n t0) [].
Proof.
  split_and!.
  - split; simpl; [by rewrite length_replicate|].
    apply Forall_forall. intros x Hx. apply elem_of_replicate in Hx as [-> _]. lia.
  - done.
  - intros x y Hx Hy. simpl in *.
    apply elem_of_replicate in Hx as [-> _], Hy as [-> _]. lia.
Qed.

Lemma schedule_step_sends (paths : list string) (st st' : schedState)
    (acc sent : list (nat * Message)) (msg : Message) (tSince tNow : Z) :
  paths ≠ [] → sched_inv (length paths) st acc → packet_message msg →
  schedule_step paths st msg tSince tNow = Done (st', sent) → sent ≠ [].
Proof.
  intros Hne Hinv Hmsg Hstep.
  destruct (schedule_step_inv paths st acc msg tSince tNow Hne Hinv Hmsg)
    as (st1 & sent1 & Hstep1 & (_ & Hlatch & _)).
  rewrite Hstep in Hstep1. injection Hstep1 as <- <-.
  intros ->. rewrite app_nil_r in Hlatch.
  destruct Hmsg as (_ & p & Hget & Hcap). destruct Hinv as (Hok & _ & _).
  destruct (schedule_step_ok paths st msg p tSince tNow Hne Hok Hget Hcap)
    as (minB & k & _ & _ & Hfire & Hnofire). cbv zeta in Hfire, Hnofire.
  destruct (decide (createNewFile st = true ∨ 2 ^ 32 - 1 ≤ minB + (CaptureLength p + 16)
                    ∨ common.MaxPcapFileTime ≤ tSince - createNewFileTime st))
    as [Hf|Hf].
  - rewrite (Hfire Hf) in Hstep. injection Hstep as _ E.
    by apply app_eq_nil in E as [_ E].
  - rewrite (Hnofire Hf) in Hstep. by injection Hstep as _ E.
Qed.

Lemma schedule_run_sent_nil (paths : list string) (input : list (Message * Z * Z))
    (st st' : schedState) (acc sent : list (nat * Message)) :
  paths ≠ [] → sched_inv (length paths) st acc →
  Forall (λ i, packet_message i.1.1) input →
  schedule_run paths st input = Done (st', sent) →
  sent = [] → input = [].
Proof.
  intros Hne Hinv Hin Hrun ->.
  destruct input as [|[[msg tSince] tNow] input]; [done|]. exfalso.
  apply Forall_cons in Hin as [Hmsg Hin]. simpl in Hmsg.
  cbn [schedule_run] in Hrun.
  destruct (schedule_step paths st msg tSince tNow) as [[st1 sent1]| |] eqn:Hstep;
    try done.
  cbn [mbind outcome_bind obind] in Hrun.
  destruct (schedule_run paths st1 input) as [[st2 sent2]| |]; try done.
  cbn [mbind outcome_bind obind] in Hrun. injection Hrun as _ E.
  apply app_eq_nil in E as [E _].
  by eapply schedule_step_sends.
Qed.

End scheduler.

(** C3 (as amended: the first packet, and the bound [2^32 - 1]).  With at
    least one writer, after any stream of packets the next packet makes
    the Scheduler rotate if and only if it is the first packet of all, or
    adding its on-disk size [s = CaptureLength + 16] to the smallest byte
    count reaches [2^32 - 1], or the clock read by [time.Since] is at
    least one minute past the time recorded at the previous rotation (at
    the start, before the first).  A step that rotates records the
    reading [tNow] of the clock; a step that does not keeps the record. *)
Theorem C3_rotation (paths : list string) (t0 : Z)
    (input : list (capture.Message * Z * Z))
    (msg : capture.Message) (p : Packet) (tSince tNow : Z) :
  paths ≠ [] →
  Forall (λ i, capture.packet_message i.1.1) input →
  capture.msgType msg = capture.msgTypePacket →
  capture.Get msg capture.msgPayloadPacket = Some (capture.VPacket p) →
  0 ≤ CaptureLength p < 2 ^ 32 →
  ∃ st sent0 st' sent minB,
    capture.schedule_run paths (capture.schedStart (length paths) t0) input
      = Done (st, sent0)
    ∧ capture.schedule_step paths st msg tSince tNow = Done (st', sent)
    ∧ capture.is_min (capture.fileBytes st) minB
    ∧ (capture.rotation_fired sent = true ↔
         input = []
         ∨ 2 ^ 32 - 1 ≤ minB + (CaptureLength p + 16)
         ∨ 60000000000 ≤ tSince - capture.createNewFileTime st)
    ∧ capture.createNewFileTime st'
        = if capture.rotation_fired sent then tNow
          else capture.createNewFileTime st.
Proof.
  intros Hne Hin Hty Hget Hcap.
  destruct (schedule_run_inv paths input _ [] Hne
              (sched_inv_start (length paths) t0) Hin)
    as (st & sent0 & Hrun & Hinv).
  rewrite app_nil_l in Hinv.
  pose proof Hinv as (Hok & Hlatch & _).
  destruct (schedule_step_ok paths st msg p tSince tNow Hne Hok Hget Hcap)
    as (minB & k & _ & Hmin & Hfire & Hnofire). cbv zeta in Hfire, Hnofire.
  assert (Hfirst : capture.createNewFile st = true ↔ input = []).
  { rewrite Hlatch. split.
    - intros E. eapply schedule_run_sent_nil; [done|apply sched_inv_start|done..].
    - intros ->. simpl in Hrun. by injection Hrun as _ <-. }
  change (common.MaxPcapFileTime) with 60000000000 in *.
  destruct (decide (capture.createNewFile st = true
                    ∨ 2 ^ 32 - 1 ≤ minB + (CaptureLength p + 16)
                    ∨ 60000000000 ≤ tSince - capture.createNewFileTime st))
    as [Hf|Hf].
  - eexists st, sent0, _, _, minB. split_and!; [done|by apply Hfire|done| |].
    + rewrite rotation_fired_new by done. rewrite <- Hfirst. tauto.
    + by rewrite rotation_fired_new.
  - eexists st, sent0, _, _, minB. split_and!; [done|by apply Hnofire|done| |].
    + rewrite rotation_fired_packet by done. rewrite <- Hfirst. split; [done|tauto].
    + by rewrite rotation_fired_packet.
Qed.

(** C7.  With at least one writer, the Scheduler processes every stream of
    packets, and after it the byte counters are no further apart than the
    largest captured length among the packets routed since the last
    rotation (the packet that caused it included) plus the 16 bytes of a
    record header.  A step that rotates sets every counter to 24 and then
    adds the size of its packet to the counter of the chosen writer. *)
Theorem C7_scheduler_balance (paths : list string) (t0 : Z)
    (input : list (capture.Message * Z * Z)) :
  paths ≠ [] →
  Forall (λ i, capture.packet_message i.1.1) input →
  ∃ st sent,
    capture.schedule_run paths (capture.schedStart (length paths) t0) input
      = Done (st, sent)
    ∧ capture.maximum (capture.fileBytes st) - capture.minimum (capture.fileBytes st)
        ≤ capture.largest (capture.captureLengthOf <$> capture.since_rotation sent) + 16
    ∧ ∀ msg tSince tNow st' sent',
        capture.packet_message msg →
        capture.schedule_step paths st msg tSince tNow = Done (st', sent') →
        capture.rotation_fired sent' = true →
        ∃ k, (k < length paths)%nat
             ∧ capture.fileBytes st'
               = <[k := 24 + (capture.captureLengthOf msg + 16)]>
                   (replicate (length paths) 24).
Proof.
  intros Hne Hin.
  destruct (schedule_run_inv paths input _ [] Hne
              (sched_inv_start (length paths) t0) Hin)
    as (st & sent & Hrun & Hinv).
  rewrite app_nil_l in Hinv. pose proof Hinv as (Hok & _ & Hspread).
  exists st, sent. split_and!; [done| |].
  { assert (Hne' : capture.fileBytes st ≠ []).
    { destruct Hok as [Hlen _]. intros E. rewrite E in Hlen.
      destruct paths; [done|]. simpl in Hlen. lia. }
    apply Hspread; [by apply maximum_elem|by apply minimum_elem]. }
  intros msg tSince tNow st' sent' (Hty & p & Hget & Hcap) Hstep Hrot.
  destruct (schedule_step_ok paths st msg p tSince tNow Hne Hok Hget Hcap)
    as (minB & k & Hk & _ & Hfire & Hnofire). cbv zeta in Hfire, Hnofire.
  exists k. split.
  { destruct Hok as [Hlen _]. rewrite <- Hlen. by eapply lookup_lt_Some. }
  unfold capture.captureLengthOf. rewrite Hget.
  destruct (decide (capture.createNewFile st = true
                    ∨ 2 ^ 32 - 1 ≤ minB + (CaptureLength p + 16)
                    ∨ common.MaxPcapFileTime ≤ tSince - capture.createNewFileTime st))
    as [Hf|Hf].
  - rewrite (Hfire Hf) in Hstep. by injection Hstep as <- _.
  - rewrite (Hnofire Hf) in Hstep. injection Hstep as _ <-.
    by rewrite rotation_fired_packet in Hrot.
Qed.

Lemma C7_scheduler_balance_witness :
  let paths := ["/data/a"; "/data/b"]%string in
  let input := [(samples.read samples.p1, 10, 11);
                (samples.read samples.p2, 20, 21);
                (samples.read samples.p3, 30, 31)] in
  ∃ st sent,
    capture.schedule_run paths (capture.schedStart (length paths) 0) input
      = Done (st, sent)
    ∧ capture.maximum (capture.fileBytes st) - capture.minimum (capture.fileBytes st)
        ≤ capture.largest (capture.captureLengthOf <$> capture.since_rotation sent) + 16
    ∧ ∀ msg tSince tNow st' sent',
        capture.packet_message msg →
        capture.schedule_step paths st msg tSince tNow = Done (st', sent') →
        capture.rotation_fired sent' = true →
        ∃ k, (k < length paths)%nat
             ∧ capture.fileBytes st'
               = <[k := 24 + (capture.captureLengthOf msg + 16)]>
                   (replicate (length paths) 24).
Proof.
  intros paths input. apply C7_scheduler_balance.
  - done.
  - repeat apply Forall_cons_2; try apply Forall_nil_2;
      (split; [reflexivity|]); eexists; (split; [reflexivity|]); simpl; lia.
Defined.

Example schedule_S2 :
  let paths := ["/data/a"; "/data/b"]%string in
  let input := [(samples.read samples.p1, 10, 11);
                (samples.read samples.p2, 20, 21);
                (samples.read samples.p3, 30, 31)] in
  match capture.schedule_run paths (capture.schedStart 2 0) input with
  | Done (st, sent) => Some (capture.fileBytes st, capture.trace sent)
  | _ => None
  end
  = Some ([24 + 116 + 90; 24 + 216]%Z,
          [(0, capture.msgTypeNewPcapFile); (1, capture.msgTypeNewPcapFile);
           (0, capture.msgTypePacket); (1, capture.msgTypePacket);
           (0, capture.msgTypePacket)]%nat).
Proof. by vm_compute. Qed.

Lemma C3_rotation_witness :
  let paths := ["/data/a"; "/data/b"]%string in
  let input := [(samples.read samples.p1, 10, 11);
                (samples.read samples.p2, 20, 21)] in
  let msg := samples.read samples.p3 in
  let p := samples.p3 in
  let tSince := 60000000011 in
  let tNow := 60000000012 in
  ∃ st sent0 st' sent minB,
    capture.schedule_run paths (capture.schedStart (length paths) 0) input
      = Done (st, sent0)
    ∧ capture.schedule_step paths st msg tSince tNow = Done (st', sent)
    ∧ capture.is_min (capture.fileBytes st) minB
    ∧ (capture.rotation_fired sent = true ↔
         input = []
         ∨ 2 ^ 32 - 1 ≤ minB + (CaptureLength p + 16)
         ∨ 60000000000 ≤ tSince - capture.createNewFileTime st)
    ∧ capture.createNewFileTime st'
        = if capture.rotation_fired sent then tNow
          else capture.createNewFileTime st.
Proof.
  intros paths input msg p tSince tNow. apply C3_rotation.
  - done.
  - repeat apply Forall_cons_2; try apply Forall_nil_2;
      (split; [reflexivity|]); eexists; (split; [reflexivity|]); simpl; lia.
  - reflexivity.
  - reflexivity.
  - simpl. lia.
Defined.

(** A single writer that receives the same packet [j] times within the
    minute, none of which fills the file. *)
Lemma schedule_run_same (d : string) (msg : capture.Message) (p : Packet) (T : Z) (j : nat) :
  ∀ b,
  capture.Get msg capture.msgPayloadPacket = Some (capture.VPacket p) →
  0 ≤ CaptureLength p < 2 ^ 32 →
  24 ≤ b →
  b + (CaptureLength p + 16) * Z.of_nat j < 2 ^ 32 - 1 →
  ∃ sent,
    capture.schedule_run [d] (capture.mkSched false T [b]) (replicate j (msg, T, T))
    = Done (capture.mkSched false T [b + (CaptureLength p + 16) * Z.of_nat j], sent).
Proof.
  induction j as [|j IH]; intros b Hget Hcap Hb Hroom.
  - exists []. replace (b + (CaptureLength p + 16) * Z.of_nat 0) with b by lia. done.
  - assert (Hok : capture.sched_ok (length [d]) (capture.mkSched false T [b])).
    { split; [done|]. apply Forall_singleton. simpl. lia. }
    destruct (schedule_step_ok [d] _ msg p T T ltac:(done) Hok Hget Hcap)
      as (minB & k & Hk & _ & _ & Hnofire). cbv zeta in Hnofire.
    cbn [capture.fileBytes capture.createNewFile capture.createNewFileTime] in *.
    assert (k = 0%nat ∧ minB = b) as [-> ->].
    { destruct k as [|k]; simpl in Hk; [by injection Hk as ->|done]. }
    assert (Hroom' : b + (CaptureLength p + 16)
                     + (CaptureLength p + 16) * Z.of_nat j < 2 ^ 32 - 1).
    { rewrite Nat2Z.inj_succ in Hroom. nia. }
    assert (Hstep : b + (CaptureLength p + 16) < 2 ^ 32 - 1) by nia.
    destruct (IH (b + (CaptureLength p + 16)) Hget Hcap ltac:(lia) Hroom')
      as [sent Hrun].
    eexists. cbn [replicate capture.schedule_run].
    rewrite Hnofire.
    + cbn [mbind outcome_bind obind list_insert insert].
      cbn [capture.fileBytes].
      replace (<[0%nat:=b + (CaptureLength p + 16)]> [b])
        with [b + (CaptureLength p + 16)] by done.
      rewrite Hrun. cbn [mbind outcome_bind obind].
      replace (b + (CaptureLength p + 16) * Z.of_nat (S j))
        with (b + (CaptureLength p + 16) + (CaptureLength p + 16) * Z.of_nat j)
        by (rewrite Nat2Z.inj_succ; nia).
      done.
    + unfold common.MaxPcapFileTime, common.FilesPerEveryNMinutes. lia.
Qed.

(** A single writer that has received [j + 1 = 523265] packets of 8192
    bytes within the same minute holds [2^32 - 1 - 8151] bytes, and the
    next packet, of 8135 bytes, makes it rotate. *)
Lemma schedule_boundary (j : nat) :
  Z.of_nat j = 523264 →
  let paths := ["/data/a"%string] in
  let full := samples.read (samples.frame 8192) in
  let last := samples.read (samples.frame 8135) in
  ∃ st sent0 st' sent,
    capture.schedule_run paths (capture.schedStart 1 0)
      (replicate (S j) (full, 0, 0)) = Done (st, sent0)
    ∧ capture.fileBytes st = [2 ^ 32 - 1 - (8135 + 16)]
    ∧ capture.schedule_step paths st last 0 0 = Done (st', sent)
    ∧ capture.rotation_fired sent = true
    ∧ ¬ (2 ^ 32 ≤ (2 ^ 32 - 1 - (8135 + 16)) + (8135 + 16)
         ∨ 60000000000 ≤ 0 - capture.createNewFileTime st).
Proof.
  intros Hj paths full last.
  assert (Hfull : capture.Get full capture.msgPayloadPacket
                  = Some (capture.VPacket (samples.frame 8192))) by reflexivity.
  assert (Hlast : capture.Get last capture.msgPayloadPacket
                  = Some (capture.VPacket (samples.frame 8135))) by reflexivity.
  (* the first packet rotates and leaves 24 + 8208 bytes *)
  assert (Hfirst : capture.schedule_step paths (capture.schedStart 1 0) full 0 0
                   = Done (capture.mkSched false 0 [24 + 8208],
                           capture.newFileMessages paths
                             (common.GetFileBaseName samples.t0)
                           ++ [(0%nat, capture.Set_ full capture.msgPayloadPcapIdx
                                         (capture.VByte x00))])) by (by vm_compute).
  destruct (schedule_run_same "/data/a" full (samples.frame 8192) 0
              j (24 + 8208) Hfull
              ltac:(simpl; lia) ltac:(lia) ltac:(simpl; lia)) as [sent1 Hrun].
  cbn [replicate capture.schedule_run]. rewrite Hfirst.
  cbn [mbind outcome_bind obind]. fold paths in Hrun. rewrite Hrun.
  cbn [mbind outcome_bind obind].
  set (st := capture.mkSched false 0
               [24 + 8208 + (CaptureLength (samples.frame 8192) + 16) * Z.of_nat j]).
  assert (Hbytes : capture.fileBytes st = [2 ^ 32 - 1 - (8135 + 16)]).
  { unfold st. cbn [capture.fileBytes samples.frame CaptureLength].
    rewrite Hj. reflexivity. }
  assert (Hok : capture.sched_ok (length paths) st).
  { split; [reflexivity|]. rewrite Hbytes. apply Forall_singleton. lia. }
  destruct (schedule_step_ok paths st last (samples.frame 8135) 0 0
              ltac:(discriminate) Hok Hlast ltac:(simpl; lia))
    as (minB & k & Hk & _ & Hfire & _). cbv zeta in Hfire.
  rewrite Hbytes in Hk. apply list_lookup_singleton_Some in Hk as [-> <-].
  eexists st, _, _, _. split; [reflexivity|]. split; [exact Hbytes|].
  split; [|split].
  - apply Hfire. right. left. cbn [samples.frame CaptureLength]. lia.
  - apply rotation_fired_new. discriminate.
  - unfold st. cbn [capture.createNewFileTime]. lia.
Qed.

(** C3 as the specification states it fails twice.  The first packet of all
    rotates, though it does not fill a file and no time has passed.  And a
    writer that has received 523265 packets of 8192 bytes within the same
    minute rotates for a packet of 8135 bytes, which brings the byte count
    to [2^32 - 1] and not to [2^32]. *)
Lemma C3_counterexample :
  let paths := ["/data/a"%string] in
  let full := samples.read (samples.frame 8192) in
  let last := samples.read (samples.frame 8135) in
  (∃ st' sent,
     capture.schedule_step paths (capture.schedStart 1 0) last 0 0 = Done (st', sent)
     ∧ capture.rotation_fired sent = true
     ∧ ¬ (2 ^ 32 ≤ 24 + (8135 + 16) ∨ 60000000000 ≤ 0 - 0))
  ∧ (∃ st sent0 st' sent,
       capture.schedule_run paths (capture.schedStart 1 0)
         (replicate (Z.to_nat 523265) (full, 0, 0)) = Done (st, sent0)
       ∧ capture.fileBytes st = [2 ^ 32 - 1 - (8135 + 16)]
       ∧ capture.schedule_step paths st last 0 0 = Done (st', sent)
       ∧ capture.rotation_fired sent = true
       ∧ ¬ (2 ^ 32 ≤ (2 ^ 32 - 1 - (8135 + 16)) + (8135 + 16)
            ∨ 60000000000 ≤ 0 - capture.createNewFileTime st)).
Proof.
  intros paths full last. split.
  - eexists _, _. split; [by vm_compute|]. split; [by vm_compute|]. lia.
  - assert (E : Z.to_nat 523265 = S (Z.to_nat 523264)) by lia.
    rewrite E. apply schedule_boundary. lia.
Qed.

(** ** The writer *)

(** C4 (as amended: a failed packet is not forwarded).  With a file open,
    when the seek or the write of a [Packet] message fails the Writer puts
    nothing on its output queue for that message and goes on with the
    next one, its state unchanged; when both succeed it forwards the
    message with the offset, as a [uint32], and the current base name. *)
Theorem C4_writer_packet (st : capture.writerState) (msg : capture.Message)
    (p : Packet) (env : capture.writerEnv) :
  capture.msgType msg = capture.msgTypePacket →
  is_Some (capture.pcapFile st) →
  capture.Get msg capture.msgPayloadPacket = Some (capture.VPacket p) →
  capture.writePcap_step st msg env =
    match capture.seekResult env with
    | None => Done (st, [], true)
    | Some offset =>
        if capture.writeErr env then Done (st, [], true)
        else Done (st,
                   [capture.Set_
                      (capture.Set_ msg capture.msgPayloadOffset
                         (capture.VUint32 (wrap 32 offset)))
                      capture.msgPayloadPcapFilename
                      (capture.VString (capture.pcapFilename st))],
                   true)
    end.
Proof.
  intros Hty [f Hf] Hget. unfold capture.writePcap_step. rewrite Hty, Hf.
  destruct (capture.seekResult env) as [offset|]; [|done].
  unfold capture.Get, capture.Set_ in *. cbn [capture.payload].
  rewrite !lookup_insert_ne by done. rewrite Hget. done.
Qed.

Lemma C4_writer_packet_witness :
  let st := capture.mkWriter "2020_01_01-00_00_00" x00
              (Some ("/data/a", "2020_01_01-00_00_00", x00))%string in
  let msg := capture.Set_ (samples.read samples.p1) capture.msgPayloadPcapIdx
               (capture.VByte x00) in
  capture.writePcap_step st msg (capture.mkEnv false false (Some 24) true)
  = Done (st, [], true)
  ∧ capture.writePcap_step st msg (capture.mkEnv false false (Some 24) false)
    = Done (st, [capture.Set_
                   (capture.Set_ msg capture.msgPayloadOffset (capture.VUint32 24))
                   capture.msgPayloadPcapFilename
                   (capture.VString "2020_01_01-00_00_00")], true).
Proof.
  intros st msg. split.
  - apply (C4_writer_packet st msg samples.p1); [reflexivity|by eexists|reflexivity].
  - apply (C4_writer_packet st msg samples.p1); [reflexivity|by eexists|reflexivity].
Defined.

(** C4 as the specification states it fails: after a failed seek, or a failed
    write, the output queue receives nothing. *)
Lemma C4_counterexample :
  let st := capture.mkWriter "2020_01_01-00_00_00" x00
              (Some ("/data/a", "2020_01_01-00_00_00", x00))%string in
  let msg := capture.Set_ (samples.read samples.p1) capture.msgPayloadPcapIdx
               (capture.VByte x00) in
  capture.writePcap_step st msg (capture.mkEnv false false None false)
  = Done (st, [], true)
  ∧ capture.writePcap_step st msg (capture.mkEnv false false (Some 24) true)
    = Done (st, [], true).
Proof. split; reflexivity. Qed.

(** ** The query service *)

Example parseFileTime_2020 :
  serve.parseFileTime "2020_01_01-00_00_00" = Some (1577836800 * 1000000000)
  ∧ serve.parseFileTime "2021_03_01-12_30_59" = Some (1614601859 * 1000000000)
  ∧ serve.parseFileTime "2021_02_29-00_00_00" = None
  ∧ serve.parseFileTime "lost+found" = None.
Proof. by vm_compute. Qed.

Example EncodeToString_packet :
  serve.EncodeToString (String.list_byte_of_string "PACKET: 100 bytes")
  = "UEFDS0VUOiAxMDAgYnl0ZXM="%string.
Proof. by vm_compute. Qed.

Example GetFileBaseName_parse :
  common.GetFileBaseName (Date 2021 3 1 12 30 59) = "2021_03_01-12_30_59"%string.
Proof. by vm_compute. Qed.

(** C5 (as amended: [String], not [Dump], when not encoded).  A response
    of the text stream with [show_all] set carries in its text field the
    packet's [String()] rendering when [base64_encode] is false, and the
    base64 encoding of the packet's [Dump()] when it is true; its [ipv6]
    field is true exactly when the parsed IP version is 6, that is when
    the packet has an Ethernet and an IPv6 layer. *)
Theorem C5_text_stream (ts packetLen : Z) (packet : Packet) (base64Enc : bool)
    (resp : serve.QueryResp) :
  serve.createResp ts packetLen packet true base64Enc = Done resp →
  serve.Text resp
    = (if base64Enc
       then serve.EncodeToString (String.list_byte_of_string (Dump packet))
       else String_ packet)
  ∧ (serve.Ipv6 resp = true ↔
       ∃ r, common.ParsePacket packet = Done r ∧ common.vers r = 6)
  ∧ (serve.Ipv6 resp = true ↔
       is_Some (LayerEthernet packet) ∧ LayerIPv6 packet = true).
Proof.
  unfold serve.createResp. intros Hresp.
  destruct (common.ParsePacket packet) as [r| |] eqn:Hparse; try done.
  cbn [mbind outcome_bind obind] in Hresp. injection Hresp as <-.
  cbn [serve.Text serve.Ipv6]. rewrite bool_decide_eq_true.
  split_and!; [done| |].
  - split; [by exists r|]. by intros (r' & [= <-] & Hv).
  - unfold common.ParsePacket in Hparse.
    destruct (LayerEthernet packet) as [[srcMAC dstMAC]|].
    + assert (Hv : common.vers r
                   = if LayerIPv6 packet then 6 else if LayerIPv4 packet then 4 else 0).
      { destruct (NetworkLayer packet) as [[src dst]|];
          [|cbv zeta in Hparse; by injection Hparse as <-].
        cbv zeta in Hparse.
        destruct (LayerTCP packet || LayerUDP packet).
        - destruct (TransportLayer packet) as [ports|]; [|done].
          cbn [must mbind outcome_bind obind] in Hparse. by injection Hparse as <-.
        - by injection Hparse as <-. }
      rewrite Hv. destruct (LayerIPv6 packet), (LayerIPv4 packet);
        split; try done; try (by intros [_ ?]); by (intros _; split; [eexists|]).
    + injection Hparse as <-. simpl. split; [done|]. by intros [[? ?] _].
Qed.

Lemma C5_text_stream_witness :
  ∃ resp,
    serve.createResp 1577836800 100 samples.p1 true true = Done resp
    ∧ serve.Text resp
      = serve.EncodeToString (String.list_byte_of_string (Dump samples.p1))
    ∧ serve.Ipv6 resp = false.
Proof.
  eexists. split; [reflexivity|].
  match goal with
  | |- serve.Text ?r = _ ∧ _ =>
      pose proof (C5_text_stream 1577836800 100 samples.p1 true r eq_refl) as [H _]
  end.
  split; [exact H|reflexivity].
Defined.

(** C5 as the specification states it fails: without base64 the text is not the
    dump, of which the other branch gives the base64 encoding. *)
Lemma C5_counterexample :
  ∃ resp,
    serve.createResp 1577836800 100 samples.p1 true false = Done resp
    ∧ serve.Text resp ≠ Dump samples.p1
    ∧ serve.Text resp = String_ samples.p1.
Proof. eexists. split; [reflexivity|]. split; [by vm_compute|reflexivity]. Qed.

Section index_paths.
Import serve.

Variable parse : string → option Z.
Variables start end_ : Z.

Lemma prefix_app_l (s1 s2 t : string) :
  String.prefix (s1 +:+ s2) t = true → String.prefix s1 t = true.
Proof.
  revert t. induction s1 as [|a s1 IH]; intros t Hp.
  - by destruct t.
  - destruct t as [|b t]; [done|]. simpl in *.
    destruct (Ascii.ascii_dec a b); [by apply IH|done].
Qed.

Lemma HasSuffix_dot_idx (s : string) :
  HasSuffix s ".idx" = true → HasSuffix s "idx" = true.
Proof. unfold HasSuffix. apply (prefix_app_l "xdi" "."). Qed.

Lemma filter_cons_bool {A} (f : A → bool) (a : A) (l : list A) :
  filter (λ x, f x) (a :: l)
  = if f a then a :: filter (λ x, f x) l else filter (λ x, f x) l.
Proof.
  rewrite filter_cons. destruct (f a) eqn:E.
  - rewrite decide_True; [done|]. exact I.
  - rewrite decide_False; [done|]. intros [].
Qed.

(** The loop on a listing in which every subdirectory whose name ends in
    [idx] ends in [.idx] and has a prefix that parses. *)
Lemma getIndexPaths_loop_ok (dirs : list FileInfo) :
  ∀ indices,
  (∀ dir, dir ∈ dirs → IsDir dir = true →
          HasSuffix (Name dir) "idx" = true → HasSuffix (Name dir) ".idx" = true) →
  forallb (parses parse) dirs = true →
  getIndexPaths_loop parse dirs start end_ indices
  = Ok (indices ++ (Name <$> filter (λ dir, selected parse start end_ dir) dirs)).
Proof.
  induction dirs as [|dir dirs IH]; intros indices Hdot Hparse.
  - by rewrite app_nil_r.
  - cbn [forallb] in Hparse. apply andb_prop in Hparse as [Hdir Hparse].
    assert (Hdot' : ∀ d, d ∈ dirs → IsDir d = true →
              HasSuffix (Name d) "idx" = true → HasSuffix (Name d) ".idx" = true).
    { intros d Hd. apply Hdot. by right. }
    specialize (Hdot dir ltac:(left)).
    cbn [getIndexPaths_loop]. unfold common.IndexNameSuffix.
    change ("." +:+ "idx")%string with ".idx"%string.
    rewrite filter_cons_bool. unfold selected at 1. unfold parses in Hdir.
    destruct (IsDir dir); cbn [andb negb orb] in *; [|by apply IH].
    destruct (HasSuffix (Name dir) "idx") eqn:Hs.
    + rewrite Hdot in * by done. cbn [andb negb orb] in *.
      apply bool_decide_eq_true in Hdir as [t Ht]. rewrite Ht.
      destruct (decide (start < t ∧ t < end_)) as [Hin|Hout].
      * rewrite bool_decide_eq_true_2 by done.
        rewrite IH by done. by rewrite fmap_cons, <- app_assoc.
      * rewrite bool_decide_eq_false_2 by done. by apply IH.
    + destruct (HasSuffix (Name dir) ".idx") eqn:Hs'.
      { apply HasSuffix_dot_idx in Hs'. congruence. }
      cbn [andb]. by apply IH.
Qed.

(** The loop fails at the first subdirectory named [*.idx] whose prefix
    does not parse. *)
Lemma getIndexPaths_loop_err (dirs : list FileInfo) :
  ∀ indices,
  (∀ dir, dir ∈ dirs → IsDir dir = true →
          HasSuffix (Name dir) "idx" = true → HasSuffix (Name dir) ".idx" = true) →
  forallb (parses parse) dirs = false →
  getIndexPaths_loop parse dirs start end_ indices
  = Err "unable to parse time from directory".
Proof.
  induction dirs as [|dir dirs IH]; intros indices Hdot Hparse; [done|].
  cbn [forallb] in Hparse.
  assert (Hdot' : ∀ d, d ∈ dirs → IsDir d = true →
            HasSuffix (Name d) "idx" = true → HasSuffix (Name d) ".idx" = true).
  { intros d Hd. apply Hdot. by right. }
  specialize (Hdot dir ltac:(left)).
  cbn [getIndexPaths_loop]. unfold common.IndexNameSuffix.
  change ("." +:+ "idx")%string with ".idx"%string.
  unfold parses in Hparse at 1.
  destruct (IsDir dir); cbn [andb negb orb] in *; [|by apply IH].
  destruct (HasSuffix (Name dir) "idx") eqn:Hs.
  - rewrite Hdot in * by done. cbn [andb negb orb] in *.
    destruct (parse (TrimSuffix (Name dir) ".idx")) as [t|] eqn:Ht; [|done].
    rewrite bool_decide_eq_true_2 in Hparse by eauto. cbn [andb] in Hparse.
    destruct (decide (start < t ∧ t < end_)); by apply IH.
  - destruct (HasSuffix (Name dir) ".idx") eqn:Hs'.
    { apply HasSuffix_dot_idx in Hs'. congruence. }
    cbn [andb negb orb] in *. by apply IH.
Qed.

Lemma selected_sorted (R : relation string) (dirs : list FileInfo) :
  StronglySorted R (Name <$> dirs) →
  StronglySorted R (Name <$> filter (λ dir, selected parse start end_ dir) dirs).
Proof.
  induction dirs as [|dir dirs IH]; intros Hs; [constructor|].
  rewrite fmap_cons in Hs. apply StronglySorted_inv in Hs as [Hs Hall].
  rewrite filter_cons_bool. destruct (selected parse start end_ dir); [|by apply IH].
  rewrite fmap_cons. constructor; [by apply IH|].
  rewrite Forall_forall in *. intros n Hn. apply Hall.
  apply list_elem_of_fmap in Hn as (d & -> & Hd).
  apply list_elem_of_filter in Hd as [_ Hd].
  apply list_elem_of_fmap. eauto.
Qed.

End index_paths.

(** C6 (as amended: a prefix that does not parse fails the query).  On a
    listing of the index directory in which every subdirectory whose name
    ends in [idx] ends in [.idx]: if the prefix of each of them parses as
    a time, the directories consulted are exactly those among them whose
    time lies strictly between [start] and [end_], in the order of the
    listing, which [ioutil.ReadDir] sorts by name; if the prefix of one of
    them does not parse, [getIndexPaths] returns an error and the query
    consults no index. *)
Theorem C6_index_paths (parse : string → option Z) (dirs : list serve.FileInfo)
    (start end_ : Z) :
  (∀ dir, dir ∈ dirs → serve.IsDir dir = true →
          serve.HasSuffix (serve.Name dir) "idx" = true →
          serve.HasSuffix (serve.Name dir) ".idx" = true) →
  StronglySorted String.le (serve.Name <$> dirs) →
  if forallb (serve.parses parse) dirs
  then ∃ indices,
         serve.getIndexPaths parse (Some dirs) start end_ = serve.Ok indices
         ∧ indices = serve.Name <$> filter (λ dir, serve.selected parse start end_ dir) dirs
         ∧ StronglySorted String.le indices
  else ∃ msg, serve.getIndexPaths parse (Some dirs) start end_ = serve.Err msg.
Proof.
  intros Hdot Hsorted. unfold serve.getIndexPaths.
  destruct (forallb (serve.parses parse) dirs) eqn:Hparse.
  - eexists. split; [by apply getIndexPaths_loop_ok|].
    split; [done|]. by apply selected_sorted.
  - eexists. by apply getIndexPaths_loop_err.
Qed.

Lemma C6_index_paths_witness :
  let dirs := [serve.mkFileInfo "2019_12_31-23_59_00.idx" true;
               serve.mkFileInfo "2020_01_01-00_00_00.idx" true;
               serve.mkFileInfo "2020_01_01-00_01_00.idx" true;
               serve.mkFileInfo "2020_01_01-00_02_00.idx" true;
               serve.mkFileInfo "notes.txt" false]%string in
  let start := 1577836799 * 1000000000 in
  let end_ := 1577836920 * 1000000000 in
  ∃ indices,
    serve.getIndexPaths serve.parseFileTime (Some dirs) start end_ = serve.Ok indices
    ∧ indices = ["2020_01_01-00_00_00.idx"; "2020_01_01-00_01_00.idx"]%string
    ∧ StronglySorted String.le indices.
Proof.
  intros dirs start end_.
  assert (Hdot : ∀ dir, dir ∈ dirs → serve.IsDir dir = true →
            serve.HasSuffix (serve.Name dir) "idx" = true →
            serve.HasSuffix (serve.Name dir) ".idx" = true).
  { intros dir Hd. unfold dirs in Hd.
    repeat (apply elem_of_cons in Hd as [->|Hd]); try (by vm_compute).
    by apply elem_of_nil in Hd. }
  assert (Hsorted : StronglySorted String.le (serve.Name <$> dirs)).
  { repeat (constructor; [|repeat constructor; by vm_compute]). constructor. }
  pose proof (C6_index_paths serve.parseFileTime dirs start end_ Hdot Hsorted) as H.
  assert (Hp : forallb (serve.parses serve.parseFileTime) dirs = true) by (by vm_compute).
  rewrite Hp in H. destruct H as (indices & Hget & Hsel & Hs).
  exists indices. split; [exact Hget|]. split; [|exact Hs].
  rewrite Hsel. by vm_compute.
Defined.

(** C6 as the specification states it fails: next to an index in range, a
    subdirectory [lost+found.idx] is not skipped; the query fails. *)
Lemma C6_counterexample :
  let dirs := [serve.mkFileInfo "2020_01_01-00_00_00.idx" true;
               serve.mkFileInfo "lost+found.idx" true]%string in
  let start := 1577836799 * 1000000000 in
  let end_ := 1577836920 * 1000000000 in
  serve.getIndexPaths serve.parseFileTime (Some dirs) start end_
  = serve.Err "unable to parse time from directory"
  ∧ serve.Name <$> filter (λ dir, serve.selected serve.parseFileTime start end_ dir) dirs
    = ["2020_01_01-00_00_00.idx"]%string.
Proof. split; by vm_compute. Qed.

(** ** The indexer: what a packet is filed under *)

Section indexer_puts.
Import index capture.

Lemma To4_fixpoint (ip ip4 : list byte) :
  To4 ip = Some ip4 → NewIPv4Key ip4 = Some (mkKey IPv4Type ip4).
Proof.
  unfold To4. intros H.
  assert (Hlen : length ip4 = 4%nat).
  { destruct (decide (length ip = 4%nat)) as [E|_]; [congruence|].
    destruct (decide _) as [[E _]|_]; [|done]. injection H as <-.
    rewrite length_drop. lia. }
  unfold NewIPv4Key, To4. by rewrite decide_True.
Qed.

Lemma To16_fixpoint (ip ip6 : list byte) :
  To4 ip = None → To16 ip = Some ip6 → NewIPv6Key ip6 = Some (mkKey IPv6Type ip6).
Proof.
  unfold To4, To16. intros H4 H.
  destruct (decide (length ip = 4%nat)) as [E|Hne]; [done|].
  destruct (decide (length ip = 16%nat)) as [E|_]; [|done]. injection H as <-.
  unfold NewIPv6Key, To16. rewrite decide_False by done. by rewrite decide_True.
Qed.

Lemma ipKeys_tag (ip : list byte) (k : Key) :
  k ∈ ipKeys ip → RecType k = IPv4Type ∨ RecType k = IPv6Type.
Proof.
  unfold ipKeys. destruct (To4 ip); [|destruct (To16 ip)]; intros Hk.
  - apply list_elem_of_singleton in Hk as ->. by left.
  - apply list_elem_of_singleton in Hk as ->. by right.
  - by apply elem_of_nil in Hk.
Qed.

Lemma distinct_keys_prefix (ops l1 l2 : list (Key * ValueElement)) (n : nat) :
  (distinct_keys (ops ++ l1 ++ l2) ≤ n)%nat → (distinct_keys (ops ++ l1) ≤ n)%nat.
Proof.
  intros H. pose proof (distinct_keys_app_le (ops ++ l1) l2) as Hle.
  rewrite <- app_assoc in Hle. lia.
Qed.

(** The puts of a list of keys, one after the other, as the Indexer makes
    them. *)
Lemma putProto_total (fuel : nat) (m : MemIndex) (pr : byte) (ve : ValueElement)
    (ops : list (Key * ValueElement)) :
  MemIndex_inv m → represents m ops →
  (distinct_keys (ops ++ under ve [NewProtoKey pr]) ≤ fuel)%nat →
  Z.of_nat (distinct_keys (ops ++ under ve [NewProtoKey pr])) ≤ 2 ^ 32 →
  ∃ m', putProto fuel m (Some (VByte pr)) ve = Done m'
        ∧ MemIndex_inv m' ∧ represents m' (ops ++ under ve [NewProtoKey pr]).
Proof. intros Hinv Hrep Hfuel Hroom. by apply Put_total. Qed.

Lemma putPort_total (fuel : nat) (m : MemIndex) (port : Z) (ve : ValueElement)
    (ops : list (Key * ValueElement)) :
  MemIndex_inv m → represents m ops →
  (distinct_keys (ops ++ under ve [NewPortKey port]) ≤ fuel)%nat →
  Z.of_nat (distinct_keys (ops ++ under ve [NewPortKey port])) ≤ 2 ^ 32 →
  ∃ m', putPort fuel m (Some (VUint16 port)) ve = Done m'
        ∧ MemIndex_inv m' ∧ represents m' (ops ++ under ve [NewPortKey port]).
Proof. intros Hinv Hrep Hfuel Hroom. by apply Put_total. Qed.

Lemma putIP_total (fuel : nat) (m : MemIndex) (ip : list byte) (ve : ValueElement)
    (ops : list (Key * ValueElement)) :
  MemIndex_inv m → represents m ops →
  (distinct_keys (ops ++ under ve (ipKeys ip)) ≤ fuel)%nat →
  Z.of_nat (distinct_keys (ops ++ under ve (ipKeys ip))) ≤ 2 ^ 32 →
  ∃ m', putIP fuel m (Some (VIP ip)) ve = Done m'
        ∧ MemIndex_inv m' ∧ represents m' (ops ++ under ve (ipKeys ip)).
Proof.
  intros Hinv Hrep Hfuel Hroom. unfold putIP, ipKeys in *.
  cbn [asIP mbind outcome_bind obind].
  destruct (To4 ip) as [ip4|] eqn:H4.
  - rewrite (To4_fixpoint ip ip4 H4). cbn [must mbind outcome_bind obind].
    by apply Put_total.
  - destruct (To16 ip) as [ip6|] eqn:H6.
    + rewrite (To16_fixpoint ip ip6 H4 H6). cbn [must mbind outcome_bind obind].
      by apply Put_total.
    + exists m. unfold under. cbn [fmap list_fmap]. by rewrite app_nil_r.
Qed.

(** All the puts that the Indexer makes for the results [r] of
    [ParsePacket]. *)
Lemma index_puts_total (fuel : nat) (m : MemIndex) (r : common.Parsed)
    (ve : ValueElement) (ops : list (Key * ValueElement)) :
  MemIndex_inv m → represents m ops →
  (distinct_keys (ops ++ under ve (indexedKeys r)) ≤ fuel)%nat →
  Z.of_nat (distinct_keys (ops ++ under ve (indexedKeys r))) ≤ 2 ^ 32 →
  ∃ m',
    (m1 ← putProto fuel m (Some (VByte (common.proto r))) ve;
     m2 ← putIP fuel m1 (Some (VIP (common.sIP r))) ve;
     m3 ← putIP fuel m2 (Some (VIP (common.dIP r))) ve;
     m4 ← putPort fuel m3 (Some (VUint16 (common.sPort r))) ve;
     putPort fuel m4 (Some (VUint16 (common.dPort r))) ve) = Done m'
    ∧ MemIndex_inv m' ∧ represents m' (ops ++ under ve (indexedKeys r)).
Proof.
  intros Hinv Hrep Hfuel Hroom.
  unfold indexedKeys, under in *. rewrite !fmap_app in *.
  set (o1 := (λ k, (k, ve)) <$> [NewProtoKey (common.proto r)]) in *.
  set (o2 := (λ k, (k, ve)) <$> ipKeys (common.sIP r)) in *.
  set (o3 := (λ k, (k, ve)) <$> ipKeys (common.dIP r)) in *.
  change ((λ k, (k, ve)) <$> [NewPortKey (common.sPort r); NewPortKey (common.dPort r)])
    with (((λ k, (k, ve)) <$> [NewPortKey (common.sPort r)])
          ++ ((λ k, (k, ve)) <$> [NewPortKey (common.dPort r)])) in *.
  set (o4 := (λ k, (k, ve)) <$> [NewPortKey (common.sPort r)]) in *.
  set (o5 := (λ k, (k, ve)) <$> [NewPortKey (common.dPort r)]) in *.
  assert (Hmono : ∀ l1 l2 n, (distinct_keys (l1 ++ l2) ≤ n)%nat
                             → (distinct_keys l1 ≤ n)%nat).
  { intros l1 l2 n H. pose proof (distinct_keys_app_le l1 l2). lia. }
  assert (HmonoZ : ∀ l1 l2, Z.of_nat (distinct_keys (l1 ++ l2)) ≤ 2 ^ 32
                            → Z.of_nat (distinct_keys l1) ≤ 2 ^ 32).
  { intros l1 l2 H. pose proof (distinct_keys_app_le l1 l2). lia. }
  replace (ops ++ o1 ++ o2 ++ o3 ++ o4 ++ o5)
    with (((((ops ++ o1) ++ o2) ++ o3) ++ o4) ++ o5) in *
    by (by rewrite <- !app_assoc).
  destruct (putProto_total fuel m (common.proto r) ve ops Hinv Hrep)
    as (m1 & E1 & Hinv1 & Hrep1); [by do 4 eapply Hmono|by do 4 eapply HmonoZ|].
  destruct (putIP_total fuel m1 (common.sIP r) ve _ Hinv1 Hrep1)
    as (m2 & E2 & Hinv2 & Hrep2); [by do 3 eapply Hmono|by do 3 eapply HmonoZ|].
  destruct (putIP_total fuel m2 (common.dIP r) ve _ Hinv2 Hrep2)
    as (m3 & E3 & Hinv3 & Hrep3); [by do 2 eapply Hmono|by do 2 eapply HmonoZ|].
  destruct (putPort_total fuel m3 (common.sPort r) ve _ Hinv3 Hrep3)
    as (m4 & E4 & Hinv4 & Hrep4); [by eapply Hmono|by eapply HmonoZ|].
  destruct (putPort_total fuel m4 (common.dPort r) ve _ Hinv4 Hrep4)
    as (m5 & E5 & Hinv5 & Hrep5); [done|done|].
  exists m5. rewrite E1. cbn [mbind outcome_bind obind]. rewrite E2.
  cbn [mbind outcome_bind obind]. rewrite E3. cbn [mbind outcome_bind obind].
  rewrite E4. cbn [mbind outcome_bind obind]. done.
Qed.

(** Without a TCP or UDP layer the ports of [ParsePacket] keep the zero
    value of their type. *)
Lemma ParsePacket_no_transport (p : Packet) :
  LayerTCP p = false → LayerUDP p = false →
  ∃ r, common.ParsePacket p = Done r
       ∧ common.sPort r = 0 ∧ common.dPort r = 0
       ∧ (LayerEthernet p = None ∨ NetworkLayer p = None
          ∨ (LayerICMPv4 p = false ∧ LayerICMPv6 p = false)
          → common.proto r = x00).
Proof.
  intros Htcp Hudp. unfold common.ParsePacket. rewrite Htcp, Hudp.
  destruct (LayerEthernet p) as [[srcMAC dstMAC]|];
    [|eexists; split_and!; done].
  destruct (NetworkLayer p) as [[src dst]|]; [|eexists; split_and!; done].
  cbn [orb]. eexists. split_and!; [done|done|done|].
  intros [?|[?|[H4 H6]]]; [done|done|]. rewrite H4, H6. done.
Qed.

(** What the Extractor attaches to a packet message. *)
Lemma extractPacket_step_packet (msg : Message) (p : Packet) (r : common.Parsed) :
  msgType msg = msgTypePacket →
  Get msg msgPayloadPacket = Some (VPacket p) →
  common.ParsePacket p = Done r →
  ∃ msg', extractPacket_step msg = Done msg'
    ∧ msgType msg' = msgTypePacket
    ∧ Get msg' msgPayloadIPProto = Some (VByte (common.proto r))
    ∧ Get msg' msgPayloadSrcIP = Some (VIP (common.sIP r))
    ∧ Get msg' msgPayloadDstIP = Some (VIP (common.dIP r))
    ∧ Get msg' msgPayloadSrcPort = Some (VUint16 (common.sPort r))
    ∧ Get msg' msgPayloadDstPort = Some (VUint16 (common.dPort r))
    ∧ Get msg' msgPayloadPcapFilename = Get msg msgPayloadPcapFilename
    ∧ Get msg' msgPayloadPcapIdx = Get msg msgPayloadPcapIdx
    ∧ Get msg' msgPayloadOffset = Get msg msgPayloadOffset.
Proof.
  intros Hty Hget Hparse. unfold extractPacket_step.
  rewrite decide_True by done. rewrite Hget.
  cbn [asPacket mbind outcome_bind obind]. rewrite Hparse.
  cbn [mbind outcome_bind obind]. eexists. split; [done|].
  unfold Get, Set_. cbn [payload msgType].
  split_and!; try done;
    repeat (rewrite lookup_insert_eq || rewrite lookup_insert_ne by done); done.
Qed.

(** The Indexer on a packet message that went through the Writer and the
    Extractor. *)
Lemma index_step_packet (fuel : nat) (cache : indexCache) (msg : Message)
    (b : string) (im : indexMeta) (idx : byte) (off : Z) (r : common.Parsed)
    (ops : list (Key * ValueElement)) :
  msgType msg = msgTypePacket →
  Get msg msgPayloadPcapFilename = Some (VString b) →
  Get msg msgPayloadPcapIdx = Some (VByte idx) →
  Get msg msgPayloadOffset = Some (VUint32 off) →
  Get msg msgPayloadIPProto = Some (VByte (common.proto r)) →
  Get msg msgPayloadSrcIP = Some (VIP (common.sIP r)) →
  Get msg msgPayloadDstIP = Some (VIP (common.dIP r)) →
  Get msg msgPayloadSrcPort = Some (VUint16 (common.sPort r)) →
  Get msg msgPayloadDstPort = Some (VUint16 (common.dPort r)) →
  cache !! b = Some im →
  MemIndex_inv (index_ im) → represents (index_ im) ops →
  let ve := NewValueElement idx off in
  (distinct_keys (ops ++ under ve (indexedKeys r)) ≤ fuel)%nat →
  Z.of_nat (distinct_keys (ops ++ under ve (indexedKeys r))) ≤ 2 ^ 32 →
  ∃ m', index_step fuel cache msg
        = Done (<[b := mkMeta m' (openWriters im)]> cache, [])
    ∧ MemIndex_inv m' ∧ represents m' (ops ++ under ve (indexedKeys r)).
Proof.
  intros Hty Hb Hidx Hoff Hpr Hsip Hdip Hsp Hdp Hc Hinv Hrep ve Hfuel Hroom.
  destruct (index_puts_total fuel (index_ im) r ve ops Hinv Hrep Hfuel Hroom)
    as (m' & Hputs & Hinv' & Hrep').
  exists m'. split; [|done].
  unfold index_step. rewrite Hty, Hb. cbn [asString mbind outcome_bind obind].
  rewrite Hc. cbn [must mbind outcome_bind obind]. rewrite Hidx, Hoff.
  cbn [asByte asUint32 mbind outcome_bind obind].
  rewrite Hpr, Hsip, Hdip, Hsp, Hdp. fold ve.
  destruct (putProto fuel (index_ im) (Some (VByte (common.proto r))) ve)
    as [m1| |]; cbn [mbind outcome_bind obind] in *; [|done..].
  destruct (putIP fuel m1 (Some (VIP (common.sIP r))) ve)
    as [m2| |]; cbn [mbind outcome_bind obind] in *; [|done..].
  destruct (putIP fuel m2 (Some (VIP (common.dIP r))) ve)
    as [m3| |]; cbn [mbind outcome_bind obind] in *; [|done..].
  destruct (putPort fuel m3 (Some (VUint16 (common.sPort r))) ve)
    as [m4| |]; cbn [mbind outcome_bind obind] in *; [|done..].
  rewrite Hputs. done.
Qed.

Lemma put_under_app (k : Key) (l1 l2 : list (Key * ValueElement)) :
  put_under k (l1 ++ l2) = put_under k l1 ++ put_under k l2.
Proof. unfold put_under. by rewrite filter_app, fmap_app. Qed.

Lemma put_under_other (k : Key) (ve : ValueElement) (keys : list Key) :
  k ∉ keys → put_under k (under ve keys) = [].
Proof.
  intros Hnin. apply put_under_absent. unfold under.
  rewrite <- list_fmap_compose. by rewrite list_fmap_id.
Qed.

(** A packet with ports 0 is filed twice under the port key 0, and once
    under the protocol key 0 if its protocol number is 0. *)
Lemma put_under_port_zero (r : common.Parsed) (ve : ValueElement) :
  common.sPort r = 0 → common.dPort r = 0 →
  put_under (NewPortKey 0) (under ve (indexedKeys r)) = [ve; ve]
  ∧ (common.proto r = x00 →
     put_under (NewProtoKey x00) (under ve (indexedKeys r)) = [ve]).
Proof.
  intros Hs Hd. unfold indexedKeys, under. rewrite Hs, Hd, !fmap_app.
  fold (under ve [NewProtoKey (common.proto r)]).
  fold (under ve (ipKeys (common.sIP r))). fold (under ve (ipKeys (common.dIP r))).
  fold (under ve [NewPortKey 0; NewPortKey 0]).
  rewrite !put_under_app.
  assert (Hip : ∀ ip k, RecType k ≠ IPv4Type → RecType k ≠ IPv6Type →
                        put_under k (under ve (ipKeys ip)) = []).
  { intros ip k H4 H6. apply put_under_other. intros Hin.
    apply ipKeys_tag in Hin as [?|?]; done. }
  split.
  - rewrite (put_under_other (NewPortKey 0) ve [NewProtoKey _]).
    + rewrite !Hip by done. done.
    + intros Hin. by apply list_elem_of_singleton in Hin.
  - intros ->. rewrite !Hip by done. done.
Qed.

(** The store that [writeIndexFile] leaves holds the binary form of the
    value under the binary form of its key. *)
Lemma foldl_insert_other {A} (f : A → list byte) (g : A → list byte) (l : list A) :
  ∀ (db : gmap (list byte) (list byte)) (key : list byte),
  key ∉ f <$> l →
  foldl (λ db v, <[f v := g v]> db) db l !! key = db !! key.
Proof.
  induction l as [|a l IH]; intros db key Hnin; [done|].
  rewrite fmap_cons, not_elem_of_cons in Hnin. destruct Hnin as [Hne Hnin].
  cbn [foldl]. rewrite IH by done. by rewrite lookup_insert_ne.
Qed.

Lemma foldl_insert_lookup {A} (f : A → list byte) (g : A → list byte) (l : list A) (x : A) :
  ∀ (db : gmap (list byte) (list byte)),
  NoDup (f <$> l) → x ∈ l →
  foldl (λ db v, <[f v := g v]> db) db l !! f x = Some (g x).
Proof.
  induction l as [|a l IH]; intros db Hnd Hin; [by apply elem_of_nil in Hin|].
  rewrite fmap_cons in Hnd. apply NoDup_cons in Hnd as [Ha Hnd]. cbn [foldl].
  destruct (decide (f x = f a)) as [E|Hne].
  - rewrite E. rewrite foldl_insert_other by done. rewrite lookup_insert_eq.
    apply elem_of_cons in Hin as [->|Hin]; [done|].
    exfalso. apply Ha. rewrite <- E. apply list_elem_of_fmap. eauto.
  - apply elem_of_cons in Hin as [->|Hin]; [done|]. by apply IH.
Qed.

Lemma writeIndexFile_lookup (m : MemIndex) (k : Key) (v : Value) :
  MemIndex_inv m → retrieve m k = [v] →
  writeIndexFile m ∅ !! Key_MarshalBinary k = Some (Value_MarshalBinary v).
Proof.
  intros Hinv Hret. unfold retrieve in Hret.
  destruct (filter (λ e, K e = k) (entries m)) as [|e [|e' l]] eqn:Hf; try done.
  injection Hret as <-.
  assert (He : e ∈ filter (λ e, K e = k) (entries m)) by (rewrite Hf; left).
  apply list_elem_of_filter in He as [<- He].
  unfold writeIndexFile.
  apply (foldl_insert_lookup (λ v, Key_MarshalBinary (K v))
                             (λ v, Value_MarshalBinary (V v))); [|done].
  rewrite (list_fmap_compose K Key_MarshalBinary).
  apply NoDup_fmap_2; [|by apply inv_keys_NoDup].
  intros [t1 d1] [t2 d2] [= -> ->]. done.
Qed.

Lemma put_under_wf (k : Key) (ops : list (Key * ValueElement)) :
  Forall ValueElement_wf ops.*2 → Forall ValueElement_wf (put_under k ops).
Proof.
  intros H. unfold put_under. rewrite Forall_forall in *. intros ve Hin.
  apply H. apply list_elem_of_fmap in Hin as (op & -> & Hin).
  apply list_elem_of_filter in Hin as [_ Hin]. apply list_elem_of_fmap. eauto.
Qed.

End indexer_puts.

(** C9.  A packet message without a TCP or UDP layer (ICMP, say) leaves
    the Extractor with source and destination port payloads of value 0.
    The Indexer, on the message that the Writer annotated and the
    Extractor filled in, therefore puts the element of the packet twice
    under the port key 0, and once under the protocol key 0 when no
    protocol layer was recognised; the index written from that mem index
    answers a query for port 0 with a value that ends in those two
    elements. *)
Theorem C9_port_zero (fuel : nat) (cache : capture.indexCache)
    (msg : capture.Message) (p : Packet) (b : string) (idx : byte) (off : Z)
    (im : capture.indexMeta) (ops : list (index.Key * index.ValueElement))
    (spare : list byte) :
  capture.msgType msg = capture.msgTypePacket →
  capture.Get msg capture.msgPayloadPacket = Some (capture.VPacket p) →
  capture.Get msg capture.msgPayloadPcapFilename = Some (capture.VString b) →
  capture.Get msg capture.msgPayloadPcapIdx = Some (capture.VByte idx) →
  capture.Get msg capture.msgPayloadOffset = Some (capture.VUint32 off) →
  LayerTCP p = false → LayerUDP p = false →
  cache !! b = Some im →
  index.MemIndex_inv (capture.index_ im) →
  index.represents (capture.index_ im) ops →
  Forall index.ValueElement_wf ops.*2 → 0 ≤ off < 2 ^ 32 →
  let ve := index.NewValueElement idx off in
  ∃ r msg',
    common.ParsePacket p = Done r
    ∧ capture.extractPacket_step msg = Done msg'
    ∧ capture.Get msg' capture.msgPayloadSrcPort = Some (capture.VUint16 0)
    ∧ capture.Get msg' capture.msgPayloadDstPort = Some (capture.VUint16 0)
    ∧ (LayerEthernet p = None ∨ NetworkLayer p = None
       ∨ (LayerICMPv4 p = false ∧ LayerICMPv6 p = false)
       → capture.Get msg' capture.msgPayloadIPProto = Some (capture.VByte x00))
    ∧ ((index.distinct_keys (ops ++ capture.under ve (capture.indexedKeys r)) ≤ fuel)%nat →
       Z.of_nat (index.distinct_keys (ops ++ capture.under ve (capture.indexedKeys r)))
         ≤ 2 ^ 32 →
       ∃ m',
         capture.index_step fuel cache msg'
           = Done (<[b := capture.mkMeta m' (capture.openWriters im)]> cache, [])
         ∧ index.retrieve m' (index.NewPortKey 0)
           = [index.put_under (index.NewPortKey 0) ops ++ [ve; ve]]
         ∧ (capture.Get msg' capture.msgPayloadIPProto = Some (capture.VByte x00) →
            index.retrieve m' (index.NewProtoKey x00)
            = [index.put_under (index.NewProtoKey x00) ops ++ [ve]])
         ∧ ∃ key,
             serve.createKey (serve.QueryPort 0) = serve.Ok key
             ∧ serve.lookupValue (capture.writeIndexFile m' ∅) key spare
               = Done (index.put_under (index.NewPortKey 0) ops ++ [ve; ve])).
Proof.
  intros Hty Hget Hb Hidx Hoff Htcp Hudp Hc Hinv Hrep Hwf Hoffr ve.
  fold ve.
  destruct (ParsePacket_no_transport p Htcp Hudp) as (r & Hparse & Hs & Hd & Hproto).
  destruct (extractPacket_step_packet msg p r Hty Hget Hparse)
    as (msg' & Hext & Hty' & Hpr & Hsip & Hdip & Hsp & Hdp & Hb' & Hidx' & Hoff').
  exists r, msg'. rewrite Hs in Hsp. rewrite Hd in Hdp.
  split_and!; [done|done|done|done| |].
  { intros H. by rewrite Hpr, (Hproto H). }
  intros Hfuel Hroom.
  rewrite <- Hs in Hsp. rewrite <- Hd in Hdp.
  rewrite Hb in Hb'. rewrite Hidx in Hidx'. rewrite Hoff in Hoff'.
  destruct (index_step_packet fuel cache msg' b im idx off r ops Hty' Hb' Hidx' Hoff'
              Hpr Hsip Hdip Hsp Hdp Hc Hinv Hrep Hfuel Hroom)
    as (m' & Hstep & Hinv' & Hrep').
  fold ve in Hrep'.
  destruct (put_under_port_zero r ve Hs Hd) as [Hport Hprot].
  assert (Hret : index.retrieve m' (index.NewPortKey 0)
                 = [index.put_under (index.NewPortKey 0) ops ++ [ve; ve]]).
  { rewrite (retrieve_represents m' _ _ Hinv' Hrep').
    rewrite decide_True.
    - by rewrite put_under_app, Hport.
    - rewrite fmap_app. apply elem_of_app. right.
      unfold capture.under, capture.indexedKeys. rewrite <- list_fmap_compose.
      rewrite list_fmap_id, Hs. rewrite !elem_of_app. right. right. right. left. }
  exists m'. split_and!; [done|done| |].
  - rewrite Hpr. intros [= Hz].
    rewrite (retrieve_represents m' _ _ Hinv' Hrep').
    rewrite decide_True.
    + by rewrite put_under_app, (Hprot Hz).
    + rewrite fmap_app. apply elem_of_app. right.
      unfold capture.under, capture.indexedKeys. rewrite <- list_fmap_compose.
      rewrite list_fmap_id, Hz. rewrite !elem_of_app. left. left.
  - eexists. split; [reflexivity|].
    unfold serve.lookupValue.
    change (wrap 16 0) with 0.
    rewrite (writeIndexFile_lookup m' _ _ Hinv' Hret).
    apply Value_roundtrip. apply Forall_app. split.
    + by apply put_under_wf.
    + apply Forall_cons_2; [done|]. apply Forall_cons_2; [done|]. apply Forall_nil_2.
Qed.

(** The ICMP packet p3 of scenario S1, written at offset 24 of file 0, in
    a fresh index. *)
Lemma C9_port_zero_witness :
  let b := "2020_01_01-00_00_00"%string in
  let msg := capture.Set_ (capture.Set_ (capture.Set_ (samples.read samples.p3)
               capture.msgPayloadPcapIdx (capture.VByte x00))
               capture.msgPayloadOffset (capture.VUint32 24))
               capture.msgPayloadPcapFilename (capture.VString b) in
  let cache : capture.indexCache := {[ b := capture.mkMeta index.NewMemIndex 1 ]} in
  let ve := index.NewValueElement x00 24 in
  ∃ msg' m',
    capture.extractPacket_step msg = Done msg'
    ∧ capture.Get msg' capture.msgPayloadSrcPort = Some (capture.VUint16 0)
    ∧ capture.Get msg' capture.msgPayloadDstPort = Some (capture.VUint16 0)
    ∧ capture.index_step 5 cache msg'
      = Done (<[b := capture.mkMeta m' 1]> cache, [])
    ∧ index.retrieve m' (index.NewPortKey 0) = [[ve; ve]]
    ∧ serve.lookupValue (capture.writeIndexFile m' ∅) [x04; x00; x00] []
      = Done [ve; ve].
Proof.
  intros b msg cache ve.
  destruct (C9_port_zero 5 cache msg samples.p3 b x00 24
              (capture.mkMeta index.NewMemIndex 1) [] [])
    as (r & msg' & Hparse & Hext & Hsp & Hdp & _ & Hindex);
    [reflexivity|reflexivity|reflexivity|reflexivity|reflexivity|reflexivity
    |reflexivity|reflexivity|exact inv_empty|exact represents_empty
    |apply Forall_nil_2|lia|].
  vm_compute in Hparse. injection Hparse as <-.
  destruct Hindex as (m' & Hstep & Hret & _ & key & Hkey & Hlook);
    [vm_compute; lia|by vm_compute|].
  injection Hkey as <-.
  exists msg', m'. split_and!; [exact Hext|exact Hsp|exact Hdp|exact Hstep|exact Hret|exact Hlook].
Defined.

(** ** The indexer: when an index is flushed *)

Section indexer_flush.
Import capture.

Ltac inv_bind H :=
  repeat match type of H with
    | @mbind _ _ _ _ _ ?e = Done _ =>
        let x := fresh "x" in
        let E := fresh "E" in
        destruct e as [x| |] eqn:E;
        cbn [mbind outcome_bind obind] in H; [|discriminate H..]
    end.

Lemma count_nil {A} (f : A → bool) : count f [] = 0%nat.
Proof. done. Qed.

Lemma count_cons {A} (f : A → bool) (x : A) (l : list A) :
  count f (x :: l) = ((if f x then 1 else 0) + count f l)%nat.
Proof. unfold count. rewrite filter_cons_bool. by destruct (f x). Qed.

Lemma count_app {A} (f : A → bool) (l1 l2 : list A) :
  count f (l1 ++ l2) = (count f l1 + count f l2)%nat.
Proof. unfold count. by rewrite filter_app, length_app. Qed.

Lemma opened_snoc (b : string) (pre : list Message) (msg : Message) :
  opened b (pre ++ [msg]) = opened b pre + (if isNew b msg then 1 else 0).
Proof.
  unfold opened. rewrite count_app, count_cons, count_nil.
  destruct (isNew b msg); lia.
Qed.

Lemma closed_snoc (b : string) (pre : list Message) (msg : Message) :
  closed b (pre ++ [msg]) = closed b pre + (if isClosed b msg then 1 else 0).
Proof.
  unfold closed. rewrite count_app, count_cons, count_nil.
  destruct (isClosed b msg); lia.
Qed.

Lemma asString_Done (x : option value) (s : string) :
  asString x = Done s → x = Some (VString s).
Proof. destruct x as [[]|]; simpl; congruence. Qed.

Lemma named_eq (b s : string) : named b (Some (VString s)) = bool_decide (s = b).
Proof. done. Qed.

(** A message of another type, or about another file, counts for
    nothing. *)
Lemma not_about (b : string) (msg : Message) (t : messageType) (f : string) :
  msgType msg = t →
  Get msg msgPayloadPcapFilename = Some (VString f) →
  isNew b msg = bool_decide (t = msgTypeNewPcapFile) && bool_decide (f = b)
  ∧ isClosed b msg = bool_decide (t = msgTypeFileClosed) && bool_decide (f = b).
Proof. intros Ht Hf. unfold isNew, isClosed. by rewrite Ht, Hf. Qed.

Lemma isClosed_type (b : string) (msg : Message) :
  msgType msg ≠ msgTypeFileClosed → isClosed b msg = false.
Proof. intros H. unfold isClosed. by rewrite bool_decide_eq_false_2. Qed.

Lemma isNew_type (b : string) (msg : Message) :
  msgType msg ≠ msgTypeNewPcapFile → isNew b msg = false.
Proof. intros H. unfold isNew. by rewrite bool_decide_eq_false_2. Qed.

(** A step that changes no count and keeps the number of open writers of
    every entry keeps the invariant. *)
Lemma cache_inv_keep (cache cache' : indexCache) (pre : list Message) (msg : Message) :
  cache_inv cache pre →
  msgType msg ≠ msgTypeFileClosed → msgType msg ≠ msgTypeNewPcapFile →
  (∀ b, openWriters <$> cache' !! b = openWriters <$> cache !! b) →
  cache_inv cache' (pre ++ [msg]).
Proof.
  intros Hinv Hc Hn Hsame b. specialize (Hinv b). specialize (Hsame b).
  rewrite opened_snoc, closed_snoc, isClosed_type, isNew_type by done.
  destruct (cache' !! b) as [im'|], (cache !! b) as [im|]; simpl in Hsame; try done.
  - injection Hsame as ->. lia.
  - lia.
Qed.

Lemma index_step_counts (fuel : nat) (cache cache' : indexCache)
    (pre out : list Message) (msg : Message) :
  cache_inv cache pre →
  index_step fuel cache msg = Done (cache', out) →
  cache_inv cache' (pre ++ [msg])
  ∧ ∀ b, count (isMemoryIndex b) out = if balances b pre msg then 1%nat else 0%nat.
Proof.
  intros Hinv Hstep. unfold index_step in Hstep.
  destruct (msgType msg) eqn:Hty.
  - (* a packet *)
    inv_bind Hstep. injection Hstep as <- <-.
    apply asString_Done in E.
    destruct (cache !! x) as [im|] eqn:Hc; [|done]. injection E0 as <-.
    split.
    + apply (cache_inv_keep cache); [done|congruence|congruence|].
      intros b. destruct (decide (b = x)) as [->|Hne].
      * by rewrite lookup_insert_eq, Hc.
      * by rewrite lookup_insert_ne.
    + intros b. unfold balances. by rewrite isClosed_type by congruence.
  - (* a file was closed *)
    inv_bind Hstep. apply asString_Done in E.
    destruct (cache !! x) as [im|] eqn:Hc; [|done]. injection E0 as <-.
    cbn [openWriters index_] in Hstep.
    assert (Habout : ∀ b, isNew b msg = false ∧ isClosed b msg = bool_decide (x = b)).
    { intros b. destruct (not_about b msg _ x Hty E) as [-> ->].
      split; [by rewrite bool_decide_eq_false_2|by rewrite bool_decide_eq_true_2]. }
    pose proof (Hinv x) as Hx. rewrite Hc in Hx. destruct Hx as [Hx Hpos].
    destruct (decide (openWriters im - 1 = 0)) as [Hz|Hnz];
      injection Hstep as <- <-.
    + split.
      * intros b. destruct (Habout b) as [Hn Hcl].
        rewrite opened_snoc, closed_snoc, Hn, Hcl.
        destruct (decide (x = b)) as [<-|Hne].
        -- rewrite lookup_delete_eq, bool_decide_eq_true_2 by done. lia.
        -- rewrite lookup_delete_ne, bool_decide_eq_false_2 by done.
           specialize (Hinv b). destruct (cache !! b); lia.
      * intros b. destruct (Habout b) as [Hn Hcl].
        rewrite count_cons, count_nil. unfold balances.
        rewrite opened_snoc, closed_snoc, Hn, Hcl.
        unfold isMemoryIndex, memoryIndexMessage, Get, Set_. cbn [msgType payload].
        rewrite lookup_insert_eq, named_eq.
        destruct (decide (x = b)) as [<-|Hne].
        -- rewrite !bool_decide_eq_true_2; [done|lia|done|done].
        -- by rewrite !(bool_decide_eq_false_2 (x = b)).
    + split.
      * intros b. destruct (Habout b) as [Hn Hcl].
        rewrite opened_snoc, closed_snoc, Hn, Hcl.
        destruct (decide (x = b)) as [<-|Hne].
        -- rewrite lookup_insert_eq, bool_decide_eq_true_2 by done.
           cbn [openWriters]. lia.
        -- rewrite lookup_insert_ne, bool_decide_eq_false_2 by done.
           specialize (Hinv b). destruct (cache !! b); lia.
      * intros b. destruct (Habout b) as [Hn Hcl].
        rewrite count_nil. unfold balances.
        rewrite opened_snoc, closed_snoc, Hn, Hcl.
        destruct (decide (x = b)) as [<-|Hne].
        -- rewrite bool_decide_eq_true_2 by done.
           rewrite bool_decide_eq_false_2; [done|lia].
        -- by rewrite bool_decide_eq_false_2.
  - (* a new file *)
    inv_bind Hstep. apply asString_Done in E.
    assert (Habout : ∀ b, isNew b msg = bool_decide (x = b) ∧ isClosed b msg = false).
    { intros b. destruct (not_about b msg _ x Hty E) as [-> ->].
      split; [by rewrite bool_decide_eq_true_2|by rewrite bool_decide_eq_false_2]. }
    pose proof (Hinv x) as Hx.
    split.
    + intros b. destruct (Habout b) as [Hn Hcl].
      rewrite opened_snoc, closed_snoc, Hn, Hcl.
      destruct (cache !! x) as [im|] eqn:Hc; injection Hstep as <- <-.
      * destruct (decide (x = b)) as [<-|Hne].
        -- rewrite lookup_insert_eq, bool_decide_eq_true_2 by done.
           cbn [openWriters]. lia.
        -- rewrite lookup_insert_ne, bool_decide_eq_false_2 by done.
           specialize (Hinv b). destruct (cache !! b); lia.
      * destruct (decide (x = b)) as [<-|Hne].
        -- rewrite lookup_insert_eq, bool_decide_eq_true_2 by done.
           cbn [openWriters]. lia.
        -- rewrite lookup_insert_ne, bool_decide_eq_false_2 by done.
           specialize (Hinv b). destruct (cache !! b); lia.
    + intros b. destruct (Habout b) as [_ Hcl]. unfold balances. rewrite Hcl.
      destruct (cache !! x); by injection Hstep as <- <-.
  - (* a memory index *)
    injection Hstep as <- <-. split.
    + apply (cache_inv_keep cache); [done|congruence|congruence|done].
    + intros b. unfold balances. by rewrite isClosed_type by congruence.
Qed.

Lemma index_run_counts (fuel : nat) (l : list Message) :
  ∀ (cache cache' : indexCache) (pre out : list Message),
  cache_inv cache pre →
  index_run fuel cache l = Done (cache', out) →
  cache_inv cache' (pre ++ l)
  ∧ ∀ b, count (isMemoryIndex b) out = balanced b pre l.
Proof.
  induction l as [|msg l IH]; intros cache cache' pre out Hinv Hrun.
  - injection Hrun as <- <-. by rewrite app_nil_r.
  - cbn [index_run] in Hrun. inv_bind Hrun.
    destruct x as [cache1 out1]. inv_bind Hrun.
    destruct x as [cache2 out2]. injection Hrun as <- <-.
    destruct (index_step_counts _ _ _ _ _ _ Hinv E) as [Hinv1 Hcount1].
    destruct (IH _ _ _ _ Hinv1 E0) as [Hinv2 Hcount2].
    split.
    + by rewrite <- app_assoc in Hinv2.
    + intros b. rewrite count_app, Hcount1, Hcount2. done.
Qed.

Lemma cache_inv_empty : cache_inv ∅ [].
Proof. intros b. by rewrite lookup_empty. Qed.

Lemma cache_inv_open (cache : indexCache) (pre : list Message) (b : string) :
  cache_inv cache pre → is_Some (cache !! b) ↔ closed b pre < opened b pre.
Proof.
  intros Hinv. specialize (Hinv b). destruct (cache !! b) as [im|].
  - split; [lia|by eexists].
  - split; [by intros [? ?]|lia].
Qed.

(** [flushAll] when no write fails: one call for each entry. *)
Lemma flushAll_loop_ok (todo : list (string * indexMeta)) :
  ∀ cache,
  (flushAll_loop (λ _, false) todo cache).1.1
  = (λ fi, (fi.1 +:+ "." +:+ common.IndexNameSuffix, index_ fi.2)) <$> todo
  ∧ (flushAll_loop (λ _, false) todo cache).2 = false.
Proof.
  induction todo as [|[f im] todo IH]; intros cache; [done|].
  cbn [flushAll_loop].
  destruct (IH (delete f (<[f := mkMeta (index_ im) 0]> cache))) as [IH1 IH2].
  destruct (flushAll_loop (λ _, false) todo _) as [[calls c] err].
  simpl in *. by rewrite IH1, IH2.
Qed.

Lemma string_length_app (a t : string) :
  String.length (a +:+ t) = (String.length a + String.length t)%nat.
Proof. induction a as [|c a IH]; simpl; [done|]. by rewrite IH. Qed.

Lemma string_app_inj_r (a b t : string) : a +:+ t = b +:+ t → a = b.
Proof.
  revert b. induction a as [|c a IH]; intros [|d b] H.
  - done.
  - apply (f_equal String.length) in H.
    rewrite !string_length_app in H. simpl in H. lia.
  - apply (f_equal String.length) in H.
    rewrite !string_length_app in H. simpl in H. lia.
  - simpl in H. injection H as -> H. f_equal. by apply IH.
Qed.

Lemma count_key (l : list (string * indexMeta)) (b : string) :
  NoDup l.*1 →
  count (λ c, bool_decide (c.1 = b +:+ "." +:+ common.IndexNameSuffix))
    ((λ fi, (fi.1 +:+ "." +:+ common.IndexNameSuffix, index_ fi.2)) <$> l)
  = if decide (b ∈ l.*1) then 1%nat else 0%nat.
Proof.
  induction l as [|[f im] l IH]; intros Hnd; [done|].
  rewrite fmap_cons in Hnd. apply NoDup_cons in Hnd as [Hf Hnd]. simpl in Hf.
  rewrite fmap_cons, count_cons, IH by done. cbn [fst snd].
  destruct (decide (f = b)) as [->|Hne].
  - rewrite bool_decide_eq_true_2 by done.
    rewrite decide_False by done. rewrite decide_True; [done|]. left.
  - rewrite bool_decide_eq_false_2.
    + destruct (decide (b ∈ l.*1)) as [Hin|Hnin].
      * rewrite decide_True; [done|]. by right.
      * rewrite decide_False; [done|]. rewrite fmap_cons, not_elem_of_cons. done.
    + intros E. by apply string_app_inj_r in E.
Qed.

Lemma flushAll_ok (cache : indexCache) (b : string) :
  flushed b (flushAll (λ _, false) cache).1.1
  = (if decide (is_Some (cache !! b)) then 1%nat else 0%nat)
  ∧ (flushAll (λ _, false) cache).2 = false.
Proof.
  unfold flushAll, flushed.
  destruct (flushAll_loop_ok (map_to_list cache) cache) as [-> ->].
  split; [|done]. rewrite count_key by apply NoDup_fst_map_to_list.
  assert (Hiff : b ∈ (map_to_list cache).*1 ↔ is_Some (cache !! b)).
  { rewrite list_elem_of_fmap. split.
    - intros ([f im] & -> & Hin). apply elem_of_map_to_list in Hin. by eexists.
    - intros [im Him]. exists (b, im). split; [done|]. by apply elem_of_map_to_list. }
  destruct (decide (b ∈ (map_to_list cache).*1)), (decide (is_Some (cache !! b)));
    tauto.
Qed.

End indexer_flush.

(** C8 (as amended: once for every time the writers of a file have all
    closed it).  Let the Indexer have received the messages [pre] without
    a panic.  For every logical file [b]: the [MemoryIndex] messages for
    [b] that it has emitted are as many as the [FileClosed] for [b] that
    brought the number of [FileClosed] for [b] up to the number of
    [NewPcapFile] for [b]; its next step emits one exactly when the
    message is such a [FileClosed]; and at input close, [flushAll], when
    no write fails, calls [writeIndexFile] for [b] once if more
    [NewPcapFile] than [FileClosed] for [b] were received, and not at all
    otherwise. *)
Theorem C8_indexer_flush (fuel : nat) (pre : list capture.Message)
    (msg : capture.Message) (cache cache' : capture.indexCache)
    (out0 out : list capture.Message) (b : string) :
  capture.index_run fuel ∅ pre = Done (cache, out0) →
  capture.index_step fuel cache msg = Done (cache', out) →
  capture.count (capture.isMemoryIndex b) out0 = capture.balanced b [] pre
  ∧ capture.count (capture.isMemoryIndex b) out
    = (if capture.balances b pre msg then 1%nat else 0%nat)
  ∧ capture.flushed b (capture.flushAll (λ _, false) cache).1.1
    = (if decide (capture.closed b pre < capture.opened b pre) then 1%nat else 0%nat)
  ∧ (capture.flushAll (λ _, false) cache).2 = false.
Proof.
  intros Hrun Hstep.
  destruct (index_run_counts fuel pre ∅ cache [] out0 cache_inv_empty Hrun)
    as [Hinv Hcount].
  rewrite app_nil_l in Hinv.
  destruct (index_step_counts fuel cache cache' pre out msg Hinv Hstep) as [_ Hstepc].
  destruct (flushAll_ok cache b) as [Hfl Herr].
  split_and!; [done|done| |done].
  rewrite Hfl. pose proof (cache_inv_open cache pre b Hinv) as Hopen.
  destruct (decide (is_Some (cache !! b))),
           (decide (capture.closed b pre < capture.opened b pre)); tauto.
Qed.

(** Two writers open the file [b]; the first of them closes it. *)
Lemma C8_indexer_flush_witness :
  let b := "2020_01_01-00_00_00"%string in
  let new := capture.Set_ (capture.NewMessage capture.msgTypeNewPcapFile)
               capture.msgPayloadPcapFilename (capture.VString b) in
  let pre := [new; new] in
  let msg := capture.fileClosedMessage b x00 in
  let cache : capture.indexCache := {[ b := capture.mkMeta index.NewMemIndex 2 ]} in
  capture.count (capture.isMemoryIndex b) [] = capture.balanced b [] pre
  ∧ capture.count (capture.isMemoryIndex b) []
    = (if capture.balances b pre msg then 1%nat else 0%nat)
  ∧ capture.flushed b (capture.flushAll (λ _, false) cache).1.1
    = (if decide (capture.closed b pre < capture.opened b pre) then 1%nat else 0%nat)
  ∧ (capture.flushAll (λ _, false) cache).2 = false.
Proof.
  intros b new pre msg cache.
  apply (C8_indexer_flush 0 pre msg cache
           {[ b := capture.mkMeta index.NewMemIndex 1 ]} [] [] b).
  - by vm_compute.
  - by vm_compute.
Defined.

(** C8 as the specification states it fails.  One writer; two packets stamped
    with the same second arrive more than a minute apart, so that the
    Scheduler rotates twice to the same base name.  The Writer closes the
    file and opens it again, and the Indexer gives the index of that base
    away twice: in a [MemoryIndex] message when the file is closed, and in
    [flushAll] at input close. *)
Lemma C8_counterexample :
  let b := "2020_01_01-00_00_00"%string in
  let input := [(samples.read samples.p1, 0, 1);
                (samples.read samples.p2, 61000000000, 61000000001)] in
  let ok := capture.mkEnv false false (Some 24) false in
  ∃ st sent out1 out2 cache out3,
    capture.schedule_run ["/data/a"%string] (capture.schedStart 1 0) input
      = Done (st, sent)
    ∧ capture.writePcap_run capture.writerStart
        ((λ m, (m, ok)) <$> capture.channel 0 sent) = Done out1
    ∧ capture.extractPacket_run out1 = Done out2
    ∧ capture.msgType <$> out2
      = [capture.msgTypeNewPcapFile; capture.msgTypePacket;
         capture.msgTypeFileClosed; capture.msgTypeNewPcapFile;
         capture.msgTypePacket]
    ∧ capture.index_run 10 ∅ out2 = Done (cache, out3)
    ∧ capture.count (capture.isMemoryIndex b) out3 = 1%nat
    ∧ capture.flushed b (capture.flushAll (λ _, false) cache).1.1 = 1%nat.
Proof.
  intros b input ok. eexists _, _, _, _, _, _.
  split; [vm_compute; reflexivity|].
  split; [vm_compute; reflexivity|].
  split; [vm_compute; reflexivity|].
  split; [vm_compute; reflexivity|].
  split; [vm_compute; reflexivity|].
  split; vm_compute; reflexivity.
Qed.

(* ===================================================================== *)
(** * Further properties of the code                                     *)
(* ===================================================================== *)

(** ** Further properties of the index package *)

Section index_binary.
Import index.

(** Bytes that do not overlap are joined by [|] as by [+]. *)
Lemma lor_shiftl_add (a b n : Z) :
  0 ≤ n → 0 ≤ a < 2 ^ n → Z.lor a (Z.shiftl b n) = a + b * 2 ^ n.
Proof.
  intros Hn Ha. rewrite <- Z.shiftl_mul_pow2 by done.
  assert (Hland : Z.land a (Z.shiftl b n) = 0).
  { apply Z.bits_inj'. intros i Hi. rewrite Z.land_spec, Z.bits_0.
    destruct (decide (i < n)).
    - rewrite Z.shiftl_spec_low by done. apply andb_false_r.
    - destruct (decide (a = 0)) as [->|Hne]; [by rewrite Z.bits_0|].
      rewrite (Z.bits_above_log2 a i); [done|lia|].
      assert (Z.log2 a < n) by (apply Z.log2_lt_pow2; lia). lia. }
  rewrite <- Z.lxor_lor by done. symmetry. by apply Z.add_nocarry_lxor.
Qed.

Lemma word32_sum (b0 b1 b2 b3 : byte) :
  LittleEndian.word32 b0 b1 b2 b3
  = byte_to_Z b0 + byte_to_Z b1 * 2 ^ 8 + byte_to_Z b2 * 2 ^ 16
    + byte_to_Z b3 * 2 ^ 24.
Proof.
  pose proof (byte_to_Z_range b0). pose proof (byte_to_Z_range b1).
  pose proof (byte_to_Z_range b2). pose proof (byte_to_Z_range b3).
  unfold LittleEndian.word32.
  rewrite (lor_shiftl_add (byte_to_Z b0)) by lia.
  rewrite (lor_shiftl_add _ (byte_to_Z b2)) by lia.
  rewrite (lor_shiftl_add _ (byte_to_Z b3)) by lia. done.
Qed.

Lemma word32_range (b0 b1 b2 b3 : byte) :
  0 ≤ LittleEndian.word32 b0 b1 b2 b3 < 2 ^ 32.
Proof.
  pose proof (byte_to_Z_range b0). pose proof (byte_to_Z_range b1).
  pose proof (byte_to_Z_range b2). pose proof (byte_to_Z_range b3).
  rewrite word32_sum. lia.
Qed.

Lemma byte_of_Z_eq (z : Z) (b : byte) : z mod 256 = byte_to_Z b → byte_of_Z z = b.
Proof.
  intros E. rewrite <- (byte_of_to_Z b). rewrite <- E.
  unfold byte_of_Z, wrap. change (2 ^ 8) with 256. by rewrite Z.mod_mod.
Qed.

Lemma PutUint32_word32 (b0 b1 b2 b3 : byte) :
  LittleEndian.PutUint32 (LittleEndian.word32 b0 b1 b2 b3) = [b0; b1; b2; b3].
Proof.
  pose proof (byte_to_Z_range b0). pose proof (byte_to_Z_range b1).
  pose proof (byte_to_Z_range b2). pose proof (byte_to_Z_range b3).
  unfold LittleEndian.PutUint32. rewrite word32_sum.
  rewrite !Z.shiftr_div_pow2 by lia.
  set (v := byte_to_Z b0 + byte_to_Z b1 * 2 ^ 8 + byte_to_Z b2 * 2 ^ 16
            + byte_to_Z b3 * 2 ^ 24).
  assert (E0 : v mod 256 = byte_to_Z b0).
  { unfold v.
    replace (byte_to_Z b0 + byte_to_Z b1 * 2 ^ 8 + byte_to_Z b2 * 2 ^ 16
             + byte_to_Z b3 * 2 ^ 24)
      with (byte_to_Z b0 + (byte_to_Z b1 + byte_to_Z b2 * 2 ^ 8
                            + byte_to_Z b3 * 2 ^ 16) * 256) by lia.
    rewrite Z.mod_add by lia. apply Z.mod_small. lia. }
  assert (E1 : (v / 2 ^ 8) mod 256 = byte_to_Z b1).
  { unfold v.
    replace (byte_to_Z b0 + byte_to_Z b1 * 2 ^ 8 + byte_to_Z b2 * 2 ^ 16
             + byte_to_Z b3 * 2 ^ 24)
      with (byte_to_Z b0 + (byte_to_Z b1 + (byte_to_Z b2
                            + byte_to_Z b3 * 2 ^ 8) * 256) * 2 ^ 8) by lia.
    rewrite Z.div_add by lia. rewrite (Z.div_small (byte_to_Z b0)) by lia.
    rewrite Z.add_0_l, Z.mod_add by lia. apply Z.mod_small. lia. }
  assert (E2 : (v / 2 ^ 16) mod 256 = byte_to_Z b2).
  { unfold v.
    replace (byte_to_Z b0 + byte_to_Z b1 * 2 ^ 8 + byte_to_Z b2 * 2 ^ 16
             + byte_to_Z b3 * 2 ^ 24)
      with (byte_to_Z b0 + byte_to_Z b1 * 2 ^ 8
            + (byte_to_Z b2 + byte_to_Z b3 * 256) * 2 ^ 16) by lia.
    rewrite Z.div_add by lia.
    rewrite (Z.div_small (byte_to_Z b0 + byte_to_Z b1 * 2 ^ 8)) by lia.
    rewrite Z.add_0_l, Z.mod_add by lia. apply Z.mod_small. lia. }
  assert (E3 : (v / 2 ^ 24) mod 256 = byte_to_Z b3).
  { unfold v.
    rewrite Z.div_add by lia.
    rewrite (Z.div_small (byte_to_Z b0 + byte_to_Z b1 * 2 ^ 8
                          + byte_to_Z b2 * 2 ^ 16)) by lia.
    rewrite Z.add_0_l. apply Z.mod_small. lia. }
  by rewrite (byte_of_Z_eq _ _ E0), (byte_of_Z_eq _ _ E1),
             (byte_of_Z_eq _ _ E2), (byte_of_Z_eq _ _ E3).
Qed.

End index_binary.

(** [Key.UnmarshalBinary] checks neither the tag nor the length of the
    data: it panics on the empty input and on no other, and what it
    decodes from an input that is not empty marshals back to that input.
    Two keys with the same binary form are the same key. *)
Theorem Key_binary_inverse (data : list byte) :
  (index.Key_UnmarshalBinary data = Panic ↔ data = [])
  ∧ (∀ k, index.Key_UnmarshalBinary data = Done k
          ↔ data ≠ [] ∧ index.Key_MarshalBinary k = data)
  ∧ (∀ k1 k2, index.Key_MarshalBinary k1 = index.Key_MarshalBinary k2 → k1 = k2).
Proof.
  split_and!.
  - destruct data; simpl; split; done.
  - intros [t d]. destruct data as [|t' d']; simpl.
    + split; [done|]. by intros [? _].
    + unfold index.Key_MarshalBinary. simpl. split.
      * by intros [= -> ->].
      * by intros [_ [= -> ->]].
  - intros [t1 d1] [t2 d2]. unfold index.Key_MarshalBinary. simpl.
    by intros [= -> ->].
Qed.

(** [ValueElement.UnmarshalBinary] panics exactly on an input of fewer
    than five bytes.  On a longer input it reads the first five bytes
    only: the element that it returns has an offset below [2^32] and
    marshals back to those five bytes. *)
Theorem ValueElement_binary_inverse (data : list byte) :
  (index.ValueElement_UnmarshalBinary data = Panic ↔ (length data < 5)%nat)
  ∧ (∀ ve, index.ValueElement_UnmarshalBinary data = Done ve
           ↔ (5 ≤ length data)%nat
             ∧ index.ValueElement_wf ve
             ∧ index.ValueElement_MarshalBinary ve = take 5 data).
Proof.
  destruct data as [|b0 [|b1 [|b2 [|b3 [|b4 rest]]]]];
    try (split; [split; [simpl; lia|done]|];
         intros ve; split; [done|]; simpl; intros [? _]; lia).
  split.
  - simpl. split; [done|lia].
  - intros [pi off]. cbn [index.ValueElement_UnmarshalBinary LittleEndian.Uint32
      mbind outcome_bind obind].
    unfold index.ValueElement_wf, index.ValueElement_MarshalBinary.
    cbn [index.PathIdx index.Offset take length]. split.
    + intros [= <- <-]. split; [lia|]. split; [apply word32_range|].
      by rewrite PutUint32_word32.
    + intros (_ & Hoff & E).
      assert (pi = b0 ∧ LittleEndian.PutUint32 off = [b1; b2; b3; b4]) as [-> E'].
      { unfold LittleEndian.PutUint32 in *. split; congruence. }
      pose proof (Uint32_PutUint32 off [] Hoff) as Hu.
      rewrite app_nil_r, E' in Hu. simpl in Hu. congruence.
Qed.

(** The key constructors.  [NewProtoKey], [NewPortKey], [NewIPv4Key] and
    [NewIPv6Key] give data of the length fixed for the tag;
    [NewMACKey] keeps the address that it is given, of whatever length.
    [NewIPv4Key] returns nil unless the address has 4 bytes, or 16 bytes
    with the IPv4-in-IPv6 prefix, and its key is the same for the two
    forms of one address; [NewIPv6Key] returns nil unless the address has
    4 or 16 bytes, and widens 4 bytes with the prefix. *)
Theorem Key_constructors (proto : byte) (port : Z) (mac ip : list byte) :
  index.Key_wf (index.NewProtoKey proto)
  ∧ index.Key_wf (index.NewPortKey port)
  ∧ (index.Key_wf (index.NewMACKey mac) ↔ length mac = 6%nat)
  ∧ match index.NewIPv4Key ip with
    | Some k =>
        index.Key_wf k ∧ index.RecType k = index.IPv4Type
        ∧ (ip = index.Data k ∨ ip = index.v4InV6Prefix ++ index.Data k)
        ∧ index.NewIPv4Key (index.Data k) = Some k
        ∧ index.NewIPv4Key (index.v4InV6Prefix ++ index.Data k) = Some k
    | None =>
        length ip ≠ 4%nat
        ∧ ¬ (length ip = 16%nat ∧ take 12 ip = index.v4InV6Prefix)
    end
  ∧ match index.NewIPv6Key ip with
    | Some k =>
        index.Key_wf k ∧ index.RecType k = index.IPv6Type
        ∧ index.Data k = (if decide (length ip = 4%nat)
                          then index.v4InV6Prefix ++ ip else ip)
    | None => length ip ≠ 4%nat ∧ length ip ≠ 16%nat
    end.
Proof.
  split_and!.
  - done.
  - done.
  - unfold index.Key_wf. simpl. split; [by intros [= ->]|by intros ->].
  - unfold index.NewIPv4Key, index.To4.
    destruct (decide (length ip = 4%nat)) as [H4|H4].
    + unfold index.Key_wf. cbn [index.RecType index.Data index.fixedLen].
      rewrite H4. split_and!; [done|done|by left| |].
      * by rewrite decide_True.
      * rewrite decide_False by (rewrite length_app, H4; simpl; lia).
        rewrite decide_True.
        -- by rewrite drop_app_length'.
        -- rewrite length_app, H4. split; [done|]. by rewrite take_app_length'.
    + destruct (decide (length ip = 16%nat ∧ take 12 ip = index.v4InV6Prefix))
        as [[H16 Hpre]|Hno]; [|done].
      assert (Hd : length (drop 12 ip) = 4%nat) by (rewrite length_drop; lia).
      unfold index.Key_wf. cbn [index.RecType index.Data index.fixedLen].
      rewrite Hd. split_and!; [done|done| | |].
      * right. by rewrite <- Hpre, take_drop.
      * by rewrite decide_True.
      * rewrite <- Hpre, take_drop. rewrite decide_False by lia.
        by rewrite decide_True.
  - unfold index.NewIPv6Key, index.To16.
    destruct (decide (length ip = 4%nat)) as [H4|H4].
    + unfold index.Key_wf. cbn [index.RecType index.Data index.fixedLen].
      rewrite length_app, H4. done.
    + destruct (decide (length ip = 16%nat)) as [H16|H16]; [|done].
      unfold index.Key_wf. cbn [index.RecType index.Data index.fixedLen].
      by rewrite H16.
Qed.

Section port_key.

Lemma word16_PutUint16 (port : Z) :
  0 ≤ port < 2 ^ 16 →
  LittleEndian.Uint16 (LittleEndian.PutUint16 port) = Done port.
Proof.
  intros Hp. unfold LittleEndian.PutUint16, LittleEndian.Uint16.
  rewrite !byte_to_of_Z. f_equal.
  rewrite Z.shiftr_div_pow2 by lia.
  rewrite lor_shiftl_add; [|lia|].
  - rewrite (Z.mod_small (port / 2 ^ 8)).
    + pose proof (Z.div_mod port 256 ltac:(lia)) as E.
      change (2 ^ 8) with 256. lia.
    + split; [apply Z.div_pos; lia|]. apply Z.div_lt_upper_bound; lia.
  - change (2 ^ 8) with 256. apply Z.mod_pos_bound. lia.
Qed.

End port_key.

(** [NewPortKey] stores the port in two bytes, the low byte first:
    [LittleEndian.Uint16], with which [Key.String] reads it, gives the
    port back, so that two ports have the same key only if they are
    equal. *)
Theorem NewPortKey_port (port : Z) :
  0 ≤ port < 2 ^ 16 →
  index.RecType (index.NewPortKey port) = index.PortType
  ∧ LittleEndian.Uint16 (index.Data (index.NewPortKey port)) = Done port
  ∧ ∀ port', 0 ≤ port' < 2 ^ 16 →
             index.NewPortKey port' = index.NewPortKey port → port' = port.
Proof.
  intros Hp. split_and!; [done|by apply word16_PutUint16|].
  intros port' Hp' E.
  pose proof (word16_PutUint16 port Hp) as H1.
  pose proof (word16_PutUint16 port' Hp') as H2.
  assert (E' : LittleEndian.PutUint16 port' = LittleEndian.PutUint16 port).
  { unfold index.NewPortKey in E. congruence. }
  rewrite E' in H2. congruence.
Qed.

Lemma NewPortKey_port_witness :
  0 ≤ 443 < 2 ^ 16
  ∧ LittleEndian.Uint16 (index.Data (index.NewPortKey 443)) = Done 443.
Proof.
  split; [lia|]. apply (NewPortKey_port 443). lia.
Defined.

Section probing.
Import index.

Lemma Put_loop_blocked (fuel : nat) :
  ∀ (m : MemIndex) (k : Key) (ve : ValueElement) (d0 : nat),
  blocked m k d0 (d0 + fuel) →
  Put_loop fuel m k ve (slot k d0) = OutOfFuel.
Proof.
  induction fuel as [|fuel IH]; intros m k ve d0 Hb; [done|].
  rewrite Put_loop_unfold.
  destruct (Hb d0 ltac:(lia)) as (miv & Hm & HK).
  unfold put_at. rewrite Hm. rewrite decide_False by done.
  apply IH. intros j Hj. apply Hb. lia.
Qed.

End probing.

(** Open addressing.  [Put] probes the slots [hash(k)], [hash(k) + 1],
    ..., counting modulo [2^32].  When the first [d] of them hold other
    keys and the next one is free or holds [k], [Put] leaves the loop in
    its round [d + 1] and changes that slot only: a free slot receives
    the key with the element alone, a slot of [k] has the element
    appended to its value. *)
Theorem Put_probes (fuel : nat) (m : index.MemIndex) (k : index.Key)
    (ve : index.ValueElement) (d : nat) :
  index.blocked m k 0 d →
  (∀ miv, m !! index.slot k d = Some miv → index.K miv = k) →
  index.slot k d = wrap 32 (index.Key_Hash k + Z.of_nat d)
  ∧ index.Put fuel m k ve =
      if decide (d < fuel)%nat then
        Done (<[index.slot k d :=
                  match m !! index.slot k d with
                  | None => index.mkMiValue k [ve]
                  | Some miv => index.mkMiValue (index.K miv) (index.V miv ++ [ve])
                  end]> m)
      else OutOfFuel.
Proof.
  intros Hb Hk. split; [done|]. unfold index.Put. rewrite <- slot_0.
  destruct (decide (d < fuel)%nat) as [Hlt|Hge].
  - apply (Put_loop_reaches d fuel m _ k ve 0%nat); [done| |done].
    simpl. unfold index.put_at.
    destruct (m !! index.slot k d) as [miv|] eqn:Hm; [|done].
    by rewrite decide_True by (by apply Hk).
  - apply Put_loop_blocked. intros j Hj. apply Hb. lia.
Qed.

Lemma Put_probes_witness :
  let a := index.mkKey index.IPv6Type
             [x20; x01; x0d; xb8; x00; x00; x00; x00;
              xf5; xca; xef; x08; x19; x4b; x5d; xf6] in
  let b := index.mkKey index.IPv6Type
             [x20; x01; x0d; xb8; x00; x00; x00; x00;
              x7b; x45; xb2; x4a; x5d; xb7; x19; x52] in
  let e1 := index.NewValueElement x00 24 in
  let e2 := index.NewValueElement x00 140 in
  let m : index.MemIndex := {[ 1311546587 := index.mkMiValue a [e1] ]} in
  index.Put 1 index.NewMemIndex a e1 = Done m
  ∧ index.Put 2 m b e2 = Done (<[1311546588 := index.mkMiValue b [e2]]> m)
  ∧ index.Put 1 m b e2 = OutOfFuel.
Proof.
  intros a b e1 e2 m.
  assert (Hb : index.blocked m b 0 1).
  { intros j Hj. assert (j = 0%nat) as -> by lia.
    exists (index.mkMiValue a [e1]). split; [by vm_compute|discriminate]. }
  assert (Hk : ∀ miv, m !! index.slot b 1 = Some miv → index.K miv = b).
  { intros miv Hm. vm_compute in Hm. discriminate Hm. }
  split_and!.
  - by vm_compute.
  - destruct (Put_probes 2 m b e2 1 Hb Hk) as [_ ->]. by vm_compute.
  - destruct (Put_probes 1 m b e2 1 Hb Hk) as [_ ->]. by vm_compute.
Defined.

Section stored.
Import index capture.

Lemma marshal_inj (k1 k2 : Key) :
  Key_MarshalBinary k1 = Key_MarshalBinary k2 → k1 = k2.
Proof. destruct k1, k2. unfold Key_MarshalBinary. simpl. by intros [= -> ->]. Qed.

(** The batch of [writeIndexFile] on a store that holds entries already:
    a key of the mem index is set to the value of the mem index, every
    other key of the store keeps what it had. *)
Lemma writeIndexFile_on (m : MemIndex) (db : gmap (list byte) (list byte))
    (ops : list (Key * ValueElement)) :
  MemIndex_inv m → represents m ops →
  (∀ k, k ∈ ops.*1 →
        writeIndexFile m db !! Key_MarshalBinary k
        = Some (Value_MarshalBinary (put_under k ops)))
  ∧ (∀ key, (∀ k, k ∈ ops.*1 → Key_MarshalBinary k ≠ key) →
            writeIndexFile m db !! key = db !! key).
Proof.
  intros Hinv Hrep. split.
  - intros k Hin.
    pose proof (retrieve_represents m ops k Hinv Hrep) as Hret.
    rewrite decide_True in Hret by done. unfold retrieve in Hret.
    destruct (filter (λ e, K e = k) (entries m)) as [|e [|e' l]] eqn:Hf; try done.
    injection Hret as <-.
    assert (He : e ∈ filter (λ e, K e = k) (entries m)) by (rewrite Hf; left).
    apply list_elem_of_filter in He as [<- He].
    unfold writeIndexFile.
    apply (foldl_insert_lookup (λ v, Key_MarshalBinary (K v))
                               (λ v, Value_MarshalBinary (V v))); [|done].
    rewrite (list_fmap_compose K Key_MarshalBinary).
    apply NoDup_fmap_2; [|by apply inv_keys_NoDup].
    intros k1 k2. apply marshal_inj.
  - intros key Hkey. unfold writeIndexFile.
    apply (foldl_insert_other (λ v, Key_MarshalBinary (K v))
                              (λ v, Value_MarshalBinary (V v))).
    intros Hin. apply list_elem_of_fmap in Hin as (e & -> & He).
    apply elem_of_entries in He as [h Hm].
    destruct Hrep as [Hrep1 _]. destruct (Hrep1 h e Hm) as [HK _].
    by apply (Hkey (K e)).
Qed.

End stored.

(** From [Put] to the answer of a query.  The elements put under the keys
    of a sequence of operations, written by [writeIndexFile] to a new
    store and looked up there by the binary form of a key, as
    [QueryStream] does, come back as the list of the elements put under
    that key, in input order; a key that was never put gives no
    element. *)
Theorem put_write_lookup (fuel : nat) (ops : list (index.Key * index.ValueElement))
    (m : index.MemIndex) (k : index.Key) (spare : list byte) :
  index.PutAll fuel index.NewMemIndex ops = Done m →
  Forall index.ValueElement_wf ops.*2 →
  serve.lookupValue (capture.writeIndexFile m ∅) (index.Key_MarshalBinary k) spare
  = Done (index.put_under k ops).
Proof.
  intros Hput Hwf.
  destruct (PutAll_sound ops fuel index.NewMemIndex m [] inv_empty represents_empty
              Hput) as [Hinv Hrep]. rewrite app_nil_l in Hrep.
  destruct (writeIndexFile_on m ∅ ops Hinv Hrep) as [Hin Hout].
  unfold serve.lookupValue.
  destruct (decide (k ∈ ops.*1)) as [Hk|Hk].
  - rewrite (Hin k Hk). apply Value_roundtrip. by apply put_under_wf.
  - rewrite Hout.
    + rewrite lookup_empty. by rewrite put_under_absent.
    + intros k' Hk' E. apply marshal_inj in E. congruence.
Qed.

Lemma put_write_lookup_witness :
  let a := index.NewPortKey 443 in
  let b := index.NewProtoKey x06 in
  let e1 := index.NewValueElement x00 24 in
  let e2 := index.NewValueElement x01 140 in
  let ops := [(a, e1); (b, e1); (a, e2)] in
  ∃ m, index.PutAll 2 index.NewMemIndex ops = Done m
       ∧ serve.lookupValue (capture.writeIndexFile m ∅)
           (index.Key_MarshalBinary a) [] = Done [e1; e2]
       ∧ serve.lookupValue (capture.writeIndexFile m ∅)
           (index.Key_MarshalBinary (index.NewPortKey 80)) [] = Done [].
Proof.
  intros a b e1 e2 ops.
  destruct (index.PutAll 2 index.NewMemIndex ops) as [m| |] eqn:Hput;
    [|by vm_compute in Hput..].
  assert (Hwf : Forall index.ValueElement_wf ops.*2).
  { repeat apply Forall_cons_2; [split; by vm_compute..|apply Forall_nil_2]. }
  exists m. split_and!; [done| |].
  - by rewrite (put_write_lookup 2 ops m a [] Hput Hwf).
  - by rewrite (put_write_lookup 2 ops m (index.NewPortKey 80) [] Hput Hwf).
Defined.

(** Writing a mem index to a store that exists already, as happens when
    the index of one base name is written a second time: every key of
    the mem index gets the value of the mem index, in place of what the
    store held under it, and every other key of the store is kept. *)
Theorem writeIndexFile_overwrites (fuel : nat)
    (ops : list (index.Key * index.ValueElement)) (m : index.MemIndex)
    (db : gmap (list byte) (list byte)) :
  index.PutAll fuel index.NewMemIndex ops = Done m →
  (∀ k, k ∈ ops.*1 →
        capture.writeIndexFile m db !! index.Key_MarshalBinary k
        = Some (index.Value_MarshalBinary (index.put_under k ops)))
  ∧ (∀ key, (∀ k, k ∈ ops.*1 → index.Key_MarshalBinary k ≠ key) →
            capture.writeIndexFile m db !! key = db !! key).
Proof.
  intros Hput.
  destruct (PutAll_sound ops fuel index.NewMemIndex m [] inv_empty represents_empty
              Hput) as [Hinv Hrep]. rewrite app_nil_l in Hrep.
  by apply writeIndexFile_on.
Qed.

Lemma writeIndexFile_overwrites_witness :
  let a := index.NewPortKey 443 in
  let b := index.NewPortKey 80 in
  let e1 := index.NewValueElement x00 24 in
  let e2 := index.NewValueElement x00 140 in
  let old : gmap (list byte) (list byte) :=
    {[ index.Key_MarshalBinary a := index.Value_MarshalBinary [e1];
       index.Key_MarshalBinary b := index.Value_MarshalBinary [e1] ]} in
  ∃ m, index.PutAll 1 index.NewMemIndex [(a, e2)] = Done m
       ∧ capture.writeIndexFile m old !! index.Key_MarshalBinary a
         = Some (index.Value_MarshalBinary [e2])
       ∧ capture.writeIndexFile m old !! index.Key_MarshalBinary b
         = Some (index.Value_MarshalBinary [e1]).
Proof.
  intros a b e1 e2 old.
  destruct (index.PutAll 1 index.NewMemIndex [(a, e2)]) as [m| |] eqn:Hput;
    [|by vm_compute in Hput..].
  destruct (writeIndexFile_overwrites 1 [(a, e2)] m old Hput) as [Hin Hout].
  exists m. split_and!; [done| |].
  - rewrite Hin; [done|]. by left.
  - rewrite Hout; [done|].
    intros k Hk. apply list_elem_of_singleton in Hk as ->. discriminate.
Defined.

(** The mem index has one entry for each distinct key, whatever the
    collisions among the hashes: after a sequence of [Put] operations that
    ran to its end its size is the number of distinct keys of the
    sequence, and at most [2^32]. *)
Theorem PutAll_size (fuel : nat) (ops : list (index.Key * index.ValueElement))
    (m : index.MemIndex) :
  index.PutAll fuel index.NewMemIndex ops = Done m →
  size m = index.distinct_keys ops ∧ Z.of_nat (size m) ≤ 2 ^ 32.
Proof.
  intros Hput.
  destruct (PutAll_sound ops fuel index.NewMemIndex m [] inv_empty represents_empty
              Hput) as [Hinv Hrep]. rewrite app_nil_l in Hrep.
  split; [by apply size_distinct_keys|].
  pose proof (inv_size_le m Hinv) as Hle. rewrite <- table_size_Z. lia.
Qed.

Lemma PutAll_size_witness :
  let a := index.mkKey index.IPv6Type
             [x20; x01; x0d; xb8; x00; x00; x00; x00;
              xf5; xca; xef; x08; x19; x4b; x5d; xf6] in
  let b := index.mkKey index.IPv6Type
             [x20; x01; x0d; xb8; x00; x00; x00; x00;
              x7b; x45; xb2; x4a; x5d; xb7; x19; x52] in
  let e := index.NewValueElement x00 24 in
  ∃ m, index.PutAll 2 index.NewMemIndex [(a, e); (b, e); (a, e)] = Done m
       ∧ size m = 2%nat.
Proof.
  intros a b e.
  destruct (index.PutAll 2 index.NewMemIndex [(a, e); (b, e); (a, e)])
    as [m| |] eqn:Hput; [|by vm_compute in Hput..].
  exists m. split; [done|].
  destruct (PutAll_size 2 _ m Hput) as [-> _]. by vm_compute.
Defined.

(** ** File names *)

Section file_names.
Import common serve.

Lemma digitValue_digit (d : Z) : digitValue (digit d) = Some (d mod 10).
Proof.
  pose proof (Z.mod_pos_bound d 10 eq_refl) as Hd.
  unfold digitValue, digit. rewrite N_ascii_embedding by lia.
  rewrite Z2N.id by lia. rewrite decide_True by lia. f_equal. lia.
Qed.

Lemma number_pad2 (n : Z) :
  0 ≤ n < 100 → number 0 [digit (n / 10); digit n] = Some n.
Proof.
  intros Hn. cbn [number]. rewrite !digitValue_digit.
  cbn [mbind option_bind]. f_equal. Z.div_mod_to_equations. lia.
Qed.

Lemma number_pad4 (n : Z) :
  0 ≤ n < 10000 →
  number 0 [digit (n / 1000); digit (n / 100); digit (n / 10); digit n] = Some n.
Proof.
  intros Hn. cbn [number]. rewrite !digitValue_digit.
  cbn [mbind option_bind]. f_equal. Z.div_mod_to_equations. lia.
Qed.

End file_names.

(** The base name that [GetFileBaseName] gives to the files of a
    rotation parses back, by the same layout, to the instant of the
    calendar fields that it was made from: the time that the query
    service reads from the name of an index directory is the timestamp,
    to the second, of the packet that caused the rotation. *)
Theorem GetFileBaseName_parses (d : Time) :
  0 ≤ Year d < 10000 → 1 ≤ Month d ≤ 12 →
  1 ≤ Day d ≤ serve.daysIn (Month d) (Year d) →
  0 ≤ Hour d < 24 → 0 ≤ Minute d < 60 → 0 ≤ Second d < 60 →
  serve.parseFileTime (common.GetFileBaseName d)
  = Some ((serve.daysFromCivil (Year d) (Month d) (Day d) * 86400
           + Hour d * 3600 + Minute d * 60 + Second d) * 1000000000).
Proof.
  intros Hy Hm Hd Hh Hi Hs.
  assert (Hd' : Day d ≤ 31).
  { unfold serve.daysIn in Hd. repeat case_decide; try lia.
    destruct (serve.isLeap (Year d)); lia. }
  unfold serve.parseFileTime, common.GetFileBaseName, common.pad4, common.pad2.
  cbv [String.append String.list_ascii_of_string].
  rewrite decide_True by done.
  rewrite number_pad4 by done. cbn [mbind option_bind].
  rewrite !number_pad2 by lia. cbn [mbind option_bind].
  by rewrite decide_True by lia.
Qed.

Lemma GetFileBaseName_parses_witness :
  serve.parseFileTime (common.GetFileBaseName (Date 2021 3 1 12 30 59))
  = Some (1614601859 * 1000000000).
Proof.
  rewrite (GetFileBaseName_parses (Date 2021 3 1 12 30 59));
    [reflexivity|simpl; try lia..].
  vm_compute. split; discriminate.
Defined.

(** ** Keys of the Indexer and keys of the queries *)

Section query_keys.
Import index capture serve.

Lemma createKey_ip (ip : list byte) (k : Key) :
  k ∈ ipKeys ip → createKey (QueryIP ip) = Ok (Key_MarshalBinary k).
Proof.
  unfold ipKeys, createKey, NewIPv4Key, NewIPv6Key.
  destruct (To4 ip) as [ip4|] eqn:E4.
  - intros Hin. by apply list_elem_of_singleton in Hin as ->.
  - destruct (To16 ip) as [ip6|] eqn:E6.
    + intros Hin. by apply list_elem_of_singleton in Hin as ->.
    + intros Hin. by apply elem_of_nil in Hin.
Qed.

Lemma ParsePacket_port_range (p : Packet) (r : common.Parsed) :
  common.ParsePacket p = Done r →
  wrap 16 (common.sPort r) = common.sPort r
  ∧ wrap 16 (common.dPort r) = common.dPort r.
Proof.
  unfold common.ParsePacket.
  destruct (LayerEthernet p) as [[srcMAC dstMAC]|]; [|by intros [= <-]].
  destruct (NetworkLayer p) as [[src dst]|]; [|by intros [= <-]].
  destruct (LayerTCP p || LayerUDP p); [|by intros [= <-]].
  destruct (TransportLayer p) as [[sp dp]|]; [|done].
  cbn [must mbind outcome_bind obind fst snd]. intros [= <-].
  cbn [common.sPort common.dPort]. unfold wrap.
  by rewrite !Z.mod_mod.
Qed.

Lemma ParsePacket_proto (p : Packet) (r : common.Parsed) :
  common.ParsePacket p = Done r →
  common.proto r ∈ [x00; x06; x11; x01; x3a].
Proof.
  unfold common.ParsePacket.
  destruct (LayerEthernet p) as [[srcMAC dstMAC]|];
    [|intros [= <-]; simpl; set_solver].
  destruct (NetworkLayer p) as [[src dst]|]; [|intros [= <-]; simpl; set_solver].
  destruct (LayerTCP p), (LayerUDP p), (LayerICMPv4 p), (LayerICMPv6 p);
    cbn [orb]; try (destruct (TransportLayer p) as [[sp dp]|]; [|done]);
    cbn [must mbind outcome_bind obind fst snd];
    intros [= <-]; cbn [common.proto]; set_solver.
Qed.

End query_keys.

(** What the Indexer stores and what a query can ask for.  Of the keys
    under which the Indexer puts the element of a packet, every one but
    the protocol key 0 is the lookup key of some query: its addresses by
    an [ip] query, its ports by a [port] query, its protocol by the name
    [tcp], [udp], [icmp] or [icmp6].  No query, of whatever type and
    argument, has the lookup key of protocol 0, under which the packets
    without a recognised protocol layer are stored. *)
Theorem indexed_keys_queryable (p : Packet) (r : common.Parsed) (k : index.Key) :
  common.ParsePacket p = Done r →
  k ∈ capture.indexedKeys r →
  (∃ q, serve.createKey q = serve.Ok (index.Key_MarshalBinary k))
  ↔ k ≠ index.NewProtoKey x00.
Proof.
  intros Hparse Hin. split.
  - intros [q Hq] ->. destruct q as [ip|port|name|mac]; simpl in Hq.
    + unfold index.NewIPv4Key, index.NewIPv6Key in Hq.
      destruct (index.To4 ip); [discriminate Hq|].
      destruct (index.To16 ip); discriminate Hq.
    + discriminate Hq.
    + repeat case_decide; discriminate Hq.
    + discriminate Hq.
  - intros Hne. unfold capture.indexedKeys in Hin.
    apply elem_of_app in Hin as [Hin|Hin].
    { apply list_elem_of_singleton in Hin as ->.
      pose proof (ParsePacket_proto p r Hparse) as Hpr.
      repeat (apply elem_of_cons in Hpr as [Hpr|Hpr]);
        [congruence| | | | |by apply elem_of_nil in Hpr]; rewrite Hpr.
      - by exists (serve.QueryProtocol "tcp").
      - by exists (serve.QueryProtocol "udp").
      - by exists (serve.QueryProtocol "icmp").
      - by exists (serve.QueryProtocol "icmp6"). }
    apply elem_of_app in Hin as [Hin|Hin].
    { exists (serve.QueryIP (common.sIP r)). by apply createKey_ip. }
    apply elem_of_app in Hin as [Hin|Hin].
    { exists (serve.QueryIP (common.dIP r)). by apply createKey_ip. }
    destruct (ParsePacket_port_range p r Hparse) as [Hs Hd].
    apply elem_of_cons in Hin as [->|Hin].
    { exists (serve.QueryPort (common.sPort r)). simpl. by rewrite Hs. }
    apply list_elem_of_singleton in Hin as ->.
    exists (serve.QueryPort (common.dPort r)). simpl. by rewrite Hd.
Qed.

Lemma indexed_keys_queryable_witness :
  (∃ q, serve.createKey q
        = serve.Ok (index.Key_MarshalBinary (index.NewPortKey 53)))
  ∧ ¬ (∃ q, serve.createKey q
            = serve.Ok (index.Key_MarshalBinary (index.NewProtoKey x00))).
Proof.
  split.
  - apply (indexed_keys_queryable samples.p1 _ _ eq_refl); [|discriminate].
    vm_compute. do 3 right. left.
  - intros Hq.
    apply (indexed_keys_queryable (samples.frame 60) _ _ eq_refl) in Hq; [done|].
    vm_compute. left.
Defined.

(** [ParsePacket].  It panics exactly on a packet with an Ethernet and a
    network layer and a TCP or UDP layer for which [TransportLayer()] is
    nil.  Without an Ethernet layer every result is the zero value,
    whatever other layers the packet has; without a network layer the
    addresses, the ports and the protocol are.  The protocol checks run
    in order and the last one that matches wins: ICMPv6 before ICMP
    before UDP before TCP; IPv6 wins over IPv4 for the version.  The
    ports are below [2^16]. *)
Theorem ParsePacket_cases (p : Packet) :
  (common.ParsePacket p = Panic ↔
     is_Some (LayerEthernet p) ∧ is_Some (NetworkLayer p)
     ∧ LayerTCP p || LayerUDP p = true ∧ TransportLayer p = None)
  ∧ common.ParsePacket p ≠ OutOfFuel
  ∧ ∀ r, common.ParsePacket p = Done r →
      (LayerEthernet p = None → r = common.mkParsed 0 [] [] [] [] 0 0 x00 "")
      ∧ (NetworkLayer p = None →
         common.sIP r = [] ∧ common.dIP r = []
         ∧ common.sPort r = 0 ∧ common.dPort r = 0
         ∧ common.proto r = x00 ∧ common.protoStr r = ""%string)
      ∧ (is_Some (LayerEthernet p) →
         common.vers r
         = if LayerIPv6 p then 6 else if LayerIPv4 p then 4 else 0)
      ∧ (is_Some (LayerEthernet p) → is_Some (NetworkLayer p) →
         (common.proto r, common.protoStr r)
         = if LayerICMPv6 p then (x3a, "ICMPv6"%string)
           else if LayerICMPv4 p then (x01, "ICMP"%string)
           else if LayerUDP p then (x11, "UDP"%string)
           else if LayerTCP p then (x06, "TCP"%string)
           else (x00, ""%string))
      ∧ (LayerTCP p || LayerUDP p = false →
         common.sPort r = 0 ∧ common.dPort r = 0)
      ∧ 0 ≤ common.sPort r < 2 ^ 16 ∧ 0 ≤ common.dPort r < 2 ^ 16.
Proof.
  assert (Hnone : ∀ A, ¬ is_Some (@None A)) by (intros A [? [=]]).
  unfold common.ParsePacket.
  destruct (LayerEthernet p) as [[srcMAC dstMAC]|], (NetworkLayer p) as [[src dst]|],
    (LayerTCP p), (LayerUDP p), (TransportLayer p) as [[sp dp]|];
    cbn [orb must mbind outcome_bind obind fst snd];
    (split_and!;
     [ split; [intros H; try discriminate H; split_and!; by eauto
              |intros (H1 & H2 & H3 & H4);
               try discriminate H3; try discriminate H4;
               try (by apply Hnone in H1); try (by apply Hnone in H2); done]
     | done
     | intros r [= <-]; cbn;
       try (pose proof (Z.mod_pos_bound sp (2 ^ 16) eq_refl);
            pose proof (Z.mod_pos_bound dp (2 ^ 16) eq_refl));
       unfold wrap;
       split_and!; try done; try lia;
       try (intros H1; by apply Hnone in H1);
       try (intros _ H1; by apply Hnone in H1);
       try (intros _; by destruct (LayerIPv6 p), (LayerIPv4 p));
       try (intros _ _; by destruct (LayerICMPv4 p), (LayerICMPv6 p)) ]).
Qed.

(** ** Records of a pcap file *)

Section records.
Import serve.

Lemma PutUint32_length (v : Z) : length (LittleEndian.PutUint32 v) = 4%nat.
Proof. done. Qed.

Lemma ReadAt_middle (pre body post : list byte) :
  ReadAt (pre ++ body ++ post) (length body) (Z.of_nat (length pre)) = Ok body.
Proof.
  unfold ReadAt. rewrite decide_False by lia.
  destruct (decide (length body = 0%nat)) as [E|E].
  - by apply nil_length_inv in E as ->.
  - rewrite Nat2Z.id. rewrite decide_True by (rewrite !length_app; lia).
    by rewrite drop_app_length, take_app_length.
Qed.

End records.

(** Reading a record back.  In a file that has, at an offset below
    [2^32 - 16], a record header of four little-endian words (seconds,
    microseconds, captured length, original length) followed by as many
    bytes as the captured length says, the two reads of [QueryStream]
    return the instant of the header, the captured length and exactly
    those bytes.  A file that ends before the sixteenth byte of the
    header gives an error, not a packet. *)
Theorem readRecord_layout (pre data post : list byte) (sec usec caplen origlen : Z) :
  0 ≤ sec < 2 ^ 32 → 0 ≤ usec < 1000000 →
  0 ≤ caplen < 2 ^ 32 → 0 ≤ origlen < 2 ^ 32 →
  length data = Z.to_nat caplen →
  Z.of_nat (length pre) + 16 < 2 ^ 32 →
  serve.readRecord
    (pre ++ (LittleEndian.PutUint32 sec ++ LittleEndian.PutUint32 usec
             ++ LittleEndian.PutUint32 caplen ++ LittleEndian.PutUint32 origlen)
         ++ data ++ post)
    (Z.of_nat (length pre))
  = serve.Ok (sec * 1000000000 + usec * 1000, caplen, data)
  ∧ ∀ (file : list byte) (offset : Z),
      (length file < Z.to_nat offset + 16)%nat →
      ∃ e, serve.readRecord file offset = serve.Err e.
Proof.
  intros Hsec Husec Hcap Horig Hlen Hoff. split.
  - unfold serve.readRecord, serve.readHeaderFromFile.
    set (hdr := LittleEndian.PutUint32 sec ++ LittleEndian.PutUint32 usec
                ++ LittleEndian.PutUint32 caplen ++ LittleEndian.PutUint32 origlen).
    change 16%nat with (length hdr) at 1.
    rewrite (ReadAt_middle pre hdr (data ++ post)).
    unfold hdr.
    replace (take 4 (LittleEndian.PutUint32 sec ++ LittleEndian.PutUint32 usec
               ++ LittleEndian.PutUint32 caplen ++ LittleEndian.PutUint32 origlen))
      with (LittleEndian.PutUint32 sec ++ []) by done.
    replace (take 4 (drop 4 (LittleEndian.PutUint32 sec ++ LittleEndian.PutUint32 usec
               ++ LittleEndian.PutUint32 caplen ++ LittleEndian.PutUint32 origlen)))
      with (LittleEndian.PutUint32 usec ++ []) by done.
    replace (take 4 (drop 8 (LittleEndian.PutUint32 sec ++ LittleEndian.PutUint32 usec
               ++ LittleEndian.PutUint32 caplen ++ LittleEndian.PutUint32 origlen)))
      with (LittleEndian.PutUint32 caplen ++ []) by done.
    rewrite !Uint32_PutUint32 by lia.
    unfold serve.readPacketFromFile.
    replace (wrap 32 (Z.of_nat (length pre) + 16))
      with (Z.of_nat (length (pre ++ hdr))).
    2: { rewrite length_app. unfold wrap. rewrite Z.mod_small by lia.
         unfold hdr. simpl. lia. }
    rewrite <- Hlen. fold hdr.
    rewrite (app_assoc pre hdr).
    rewrite (ReadAt_middle (pre ++ hdr) data post).
    unfold wrap. rewrite (Z.mod_small (usec * 1000)) by lia. done.
  - intros file offset Hshort.
    unfold serve.readRecord, serve.readHeaderFromFile, serve.ReadAt.
    destruct (decide (offset < 0)); [by eexists|].
    rewrite decide_False by done. rewrite decide_False by lia. by eexists.
Qed.

Lemma readRecord_layout_witness :
  serve.readRecord
    (replicate 24 x00
     ++ [x00; xe1; x0b; x5e; x20; xa1; x07; x00; x02; x00; x00; x00; x3c; x00; x00; x00]
     ++ [xca; xfe] ++ [x07]) 24
  = serve.Ok (1577836800 * 1000000000 + 500000 * 1000, 2, [xca; xfe]).
Proof.
  apply (readRecord_layout (replicate 24 x00) [xca; xfe] [x07] 1577836800 500000 2 60);
    try reflexivity; try lia.
Defined.

(** ** The pcap file of an element *)

Section pcap_names.
Import common serve.

Lemma digit_not_dot (d : Z) : digit d ≠ "."%char.
Proof.
  pose proof (Z.mod_pos_bound d 10 eq_refl) as Hd.
  unfold digit. intros E. apply (f_equal N_of_ascii) in E.
  rewrite N_ascii_embedding in E by lia. simpl in E. lia.
Qed.

Lemma Replace1_skip (c : ascii) (s old' new : string) (o : ascii) :
  c ≠ o →
  Replace1 (String c s) (String o old') new = String c (Replace1 s (String o old') new).
Proof.
  intros Hne. cbn [Replace1 String.prefix].
  destruct (ascii_dec o c) as [->|_]; done.
Qed.

Lemma GetFileBaseName_trim (d : Time) :
  Replace1 (GetFileBaseName d +:+ "." +:+ IndexNameSuffix)
           ("." +:+ IndexNameSuffix) ""
  = GetFileBaseName d.
Proof.
  unfold GetFileBaseName, pad4, pad2, IndexNameSuffix.
  cbv [String.append].
  repeat (rewrite Replace1_skip by (apply digit_not_dot || discriminate);
          f_equal).
Qed.

End pcap_names.

(** The writer of index [i] is told the directory [pcapPaths[i]] and
    the index [byte(i)], and creates in that directory the file
    [<base name>_<i>.pcap]; the elements of its packets carry
    [byte(i)], and the Indexer names the index [<base name>.idx].  For
    an element of one of the first 256 writers, the query service, run
    with the same list of directories, rebuilds from the index name and
    the element exactly that directory and that file name.  An element
    whose index lies beyond the list of the query service makes
    [QueryStream] panic. *)
Theorem pcapFilePath_of_writer (pcapPaths : list string) (d : Time) (i : nat)
    (dir : string) (off : Z) :
  pcapPaths !! i = Some dir → (i < 256)%nat →
  let b := common.GetFileBaseName d in
  (∃ msg, capture.newFileMessages pcapPaths b !! i = Some (i, msg)
          ∧ capture.Get msg capture.msgPayloadPcapPathBase = Some (capture.VString dir)
          ∧ capture.Get msg capture.msgPayloadPcapFilename = Some (capture.VString b)
          ∧ capture.Get msg capture.msgPayloadPcapIdx
            = Some (capture.VByte (byte_of_Z (Z.of_nat i))))
  ∧ serve.pcapFilePath pcapPaths (b +:+ "." +:+ common.IndexNameSuffix)
      (index.NewValueElement (byte_of_Z (Z.of_nat i)) off)
    = Done (dir, b +:+ "_" +:+ common.decimal (Z.of_nat i) +:+ ".pcap")
  ∧ ∀ (idx : byte) (name : string),
      (length pcapPaths ≤ Z.to_nat (byte_to_Z idx))%nat →
      serve.pcapFilePath pcapPaths name (index.NewValueElement idx off) = Panic.
Proof.
  intros Hdir Hi b. split_and!.
  - eexists. split.
    + unfold capture.newFileMessages. rewrite list_lookup_imap, Hdir. done.
    + done.
  - unfold serve.pcapFilePath. cbn [index.PathIdx].
    rewrite byte_to_of_Z, Z.mod_small by lia. rewrite Nat2Z.id, Hdir.
    cbn [must mbind outcome_bind obind]. unfold b.
    by rewrite GetFileBaseName_trim.
  - intros idx name Hlen. unfold serve.pcapFilePath. cbn [index.PathIdx].
    by rewrite lookup_ge_None_2.
Qed.

Lemma pcapFilePath_of_writer_witness :
  serve.pcapFilePath ["/data/a"; "/data/b"]%string "2021_03_01-12_30_59.idx"
    (index.NewValueElement x01 24)
  = Done ("/data/b", "2021_03_01-12_30_59_1.pcap")%string.
Proof.
  by destruct (pcapFilePath_of_writer ["/data/a"; "/data/b"]%string
                 (Date 2021 3 1 12 30 59) 1 "/data/b" 24 eq_refl ltac:(lia))
    as (_ & H & _).
Defined.

(** ** Further properties of the Scheduler *)

Section scheduler_more.
Import capture.

(** The loop of the smallest count keeps the first index among equals. *)
Lemma smallest_first (l : list Z) :
  ∀ (i : nat) (m0 : Z) (j0 : nat) (m : Z) (j : nat),
  (j0 ≤ i)%nat →
  smallest i l m0 j0 = (m, j) →
  m ≤ m0
  ∧ ∀ k x, l !! k = Some x → m ≤ x ∧ ((i + k < j)%nat → m < x).
Proof.
  induction l as [|v l IH]; intros i m0 j0 m j Hj0 Hs; simpl in Hs.
  - injection Hs as <- <-. split; [lia|]. intros k x Hk. by destruct k.
  - destruct (decide (v < m0)) as [Hlt|Hge].
    + destruct (IH (S i) v i m j ltac:(lia) Hs) as [Hle Hall].
      split; [lia|]. intros [|k] x Hk; simpl in Hk.
      * injection Hk as <-. split; [done|]. intros Hj.
        destruct (smallest_spec l (S i) v i m j Hs)
          as [(-> & -> & _)|(k' & _ & -> & Hlt' & _)]; lia.
      * destruct (Hall k x Hk) as [H1 H2]. split; [done|]. intros Hj.
        apply H2. lia.
    + destruct (IH (S i) m0 j0 m j ltac:(lia) Hs) as [Hle Hall].
      split; [done|]. intros [|k] x Hk; simpl in Hk.
      * injection Hk as <-. split; [lia|]. intros Hj.
        destruct (smallest_spec l (S i) m0 j0 m j Hs)
          as [(-> & -> & _)|(k' & _ & -> & Hlt' & _)]; lia.
      * destruct (Hall k x Hk) as [H1 H2]. split; [done|]. intros Hj.
        apply H2. lia.
Qed.

(** The step written out, with the index that the loop of the smallest
    count returns. *)
Lemma schedule_step_eq (paths : list string) (st : schedState) (msg : Message)
    (p : Packet) (tSince tNow : Z) :
  paths ≠ [] → sched_ok (length paths) st →
  Get msg msgPayloadPacket = Some (VPacket p) → 0 ≤ CaptureLength p < 2 ^ 32 →
  ∃ (minB : Z) (k : nat),
    smallest 0 (fileBytes st) MaxUint64 0 = (minB, k)
    ∧ fileBytes st !! k = Some minB ∧ (k < length paths)%nat ∧
    let s := CaptureLength p + 16 in
    let fire := createNewFile st = true ∨ 2 ^ 32 - 1 ≤ minB + s
                ∨ common.MaxPcapFileTime ≤ tSince - createNewFileTime st in
    let routed := (k, Set_ msg msgPayloadPcapIdx (VByte (byte_of_Z (Z.of_nat k)))) in
    schedule_step paths st msg tSince tNow =
      if decide fire
      then Done (mkSched false tNow (<[k := 24 + s]> (replicate (length paths) 24)),
                 newFileMessages paths (common.GetFileBaseName (Timestamp p))
                 ++ [routed])
      else Done (mkSched false (createNewFileTime st) (<[k := minB + s]> (fileBytes st)),
                 [routed]).
Proof.
  intros Hne [Hlen Hrange] Hget Hcap.
  destruct (smallest 0 (fileBytes st) MaxUint64 0) as [minB k] eqn:Hsm.
  assert (Hne' : fileBytes st ≠ []).
  { intros E. rewrite E in Hlen. destruct paths; [done|]. simpl in Hlen. lia. }
  assert (Hlt : Forall (λ x, x < MaxUint64) (fileBytes st)).
  { eapply Forall_impl; [exact Hrange|]. unfold MaxUint64. simpl. lia. }
  destruct (smallest_min _ _ _ Hne' Hlt Hsm) as [Hk Hmin].
  assert (Hk' : (k < length paths)%nat).
  { rewrite <- Hlen. by eapply lookup_lt_Some. }
  exists minB, k. split_and!; [done|done|done|]. intros s fire routed.
  assert (HminB : 24 ≤ minB < 2 ^ 33).
  { rewrite Forall_forall in Hrange. apply Hrange. by eapply list_elem_of_lookup_2. }
  assert (Hsize : wrap 64 (wrap 64 (CaptureLength p) + 16) = s).
  { unfold wrap, s. rewrite (Z.mod_small (CaptureLength p)) by lia.
    apply Z.mod_small. lia. }
  assert (Hsum : wrap 64 (minB + s) = minB + s).
  { unfold wrap, s. apply Z.mod_small. lia. }
  unfold schedule_step. rewrite Hsm, Hget. cbn [asPacket mbind outcome_bind obind].
  rewrite Hsize, Hsum. unfold maxPcapFileSize, MaxUint32.
  destruct (decide fire) as [Hfire|Hno].
  - assert ((if decide (common.MaxPcapFileTime ≤ tSince - createNewFileTime st)
             then true
             else if decide (2 ^ 32 - 1 ≤ minB + s) then true else createNewFile st)
            = true) as ->.
    { repeat case_decide; try done. destruct Hfire as [?|[?|?]]; done. }
    rewrite decide_True by done. cbn [fileBytes createNewFile createNewFileTime].
    rewrite Hlen. rewrite lookup_replicate_2 by done.
    cbn [must mbind outcome_bind obind].
    replace (wrap 64 (24 + s)) with (24 + s); [done|].
    unfold wrap, s. symmetry. apply Z.mod_small. lia.
  - assert ((if decide (common.MaxPcapFileTime ≤ tSince - createNewFileTime st)
             then true
             else if decide (2 ^ 32 - 1 ≤ minB + s) then true else createNewFile st)
            = false) as ->.
    { repeat case_decide; try (exfalso; apply Hno; unfold fire; tauto).
      destruct (createNewFile st); [exfalso; apply Hno; unfold fire; tauto|done]. }
    rewrite decide_True by done. cbn [fileBytes createNewFile createNewFileTime].
    rewrite Hk. cbn [must mbind outcome_bind obind]. by rewrite Hsum.
Qed.

(** Induction over the runs of the Scheduler from its start: a property
    of the state and of the messages sent that holds at the start and is
    kept by a step that rotates and by a step that does not holds after
    every stream of packets. *)
Lemma schedule_run_induction (paths : list string) (t0 : Z)
    (Q : Message → Prop) (P : schedState → list (nat * Message) → Prop) :
  paths ≠ [] →
  P (schedStart (length paths) t0) [] →
  (∀ st acc msg p tSince tNow minB k,
     sched_inv (length paths) st acc → P st acc →
     msgType msg = msgTypePacket → Q msg →
     Get msg msgPayloadPacket = Some (VPacket p) → 0 ≤ CaptureLength p < 2 ^ 32 →
     smallest 0 (fileBytes st) MaxUint64 0 = (minB, k) →
     fileBytes st !! k = Some minB → (k < length paths)%nat →
     let s := CaptureLength p + 16 in
     let routed := (k, Set_ msg msgPayloadPcapIdx (VByte (byte_of_Z (Z.of_nat k)))) in
     (createNewFile st = true ∨ 2 ^ 32 - 1 ≤ minB + s
      ∨ common.MaxPcapFileTime ≤ tSince - createNewFileTime st →
      P (mkSched false tNow (<[k := 24 + s]> (replicate (length paths) 24)))
        (acc ++ newFileMessages paths (common.GetFileBaseName (Timestamp p))
             ++ [routed]))
     ∧ (acc ≠ [] → 
        P (mkSched false (createNewFileTime st) (<[k := minB + s]> (fileBytes st)))
          (acc ++ [routed]))) →
  ∀ input, Forall (λ i, packet_message i.1.1 ∧ Q i.1.1) input →
  ∃ st sent,
    schedule_run paths (schedStart (length paths) t0) input = Done (st, sent)
    ∧ sched_inv (length paths) st sent ∧ P st sent.
Proof.
  intros Hne Hstart Hstep.
  assert (Hgen : ∀ input st acc,
    sched_inv (length paths) st acc → P st acc →
    Forall (λ i, packet_message i.1.1 ∧ Q i.1.1) input →
    ∃ st' sent, schedule_run paths st input = Done (st', sent)
                ∧ sched_inv (length paths) st' (acc ++ sent) ∧ P st' (acc ++ sent)).
  { induction input as [|[[msg tSince] tNow] input IH]; intros st acc Hinv HP Hin.
    - exists st, []. by rewrite app_nil_r.
    - apply Forall_cons in Hin as [[Hmsg HQ] Hin]. simpl in Hmsg, HQ.
      destruct (schedule_step_inv paths st acc msg tSince tNow Hne Hinv Hmsg)
        as (st1 & sent1 & Hs1 & Hinv1).
      pose proof Hmsg as (Hty & p & Hget & Hcap).
      destruct Hinv as (Hok & Hlatch & Hspread).
      destruct (schedule_step_eq paths st msg p tSince tNow Hne Hok Hget Hcap)
        as (minB & k & Hsm & Hk & Hklt & Heq). cbv zeta in Heq.
      destruct (Hstep st acc msg p tSince tNow minB k
                  (conj Hok (conj Hlatch Hspread)) HP Hty HQ Hget Hcap Hsm Hk Hklt)
        as [Hfire Hnofire].
      assert (HP1 : P st1 (acc ++ sent1)).
      { rewrite Hs1 in Heq. case_decide as Hf.
        - injection Heq as -> ->. by apply Hfire.
        - injection Heq as -> ->. apply Hnofire. intros ->.
          apply Hf. left. by apply Hlatch. }
      destruct (IH st1 (acc ++ sent1) Hinv1 HP1 Hin) as (st2 & sent2 & Hrun & Hinv2 & HP2).
      exists st2, (sent1 ++ sent2). rewrite app_assoc. split_and!; [|done|done].
      cbn [schedule_run]. rewrite Hs1. cbn [mbind outcome_bind obind].
      by rewrite Hrun. }
  intros input Hin.
  destruct (Hgen input _ [] (sched_inv_start _ t0) Hstart Hin)
    as (st & sent & Hrun & Hinv & HP).
  by exists st, sent.
Qed.

End scheduler_more.

Section scheduler_order.
Import capture.

(** What a step sends, in whatever state: the rotation messages, if any,
    and then the message itself, stamped, to a channel that exists. *)
Lemma schedule_step_shape (paths : list string) (st st' : schedState)
    (msg : Message) (tSince tNow : Z) (sent : list (nat * Message)) :
  schedule_step paths st msg tSince tNow = Done (st', sent) →
  ∃ block k,
    sent = block ++ [(k, Set_ msg msgPayloadPcapIdx (VByte (byte_of_Z (Z.of_nat k))))]
    ∧ Forall (λ im, msgType im.2 = msgTypeNewPcapFile) block
    ∧ (k < length paths)%nat.
Proof.
  unfold schedule_step.
  destruct (smallest 0 (fileBytes st) MaxUint64 0) as [minB k].
  destruct (asPacket (Get msg msgPayloadPacket)) as [p| |]; [|done..].
  cbn [mbind outcome_bind obind].
  set (fire := if decide (common.MaxPcapFileTime ≤ tSince - createNewFileTime st)
               then true else _).
  destruct fire.
  - destruct (decide (k < length paths)%nat) as [Hk|]; [|done].
    cbn [fileBytes createNewFile createNewFileTime].
    destruct (replicate (length (fileBytes st)) 24 !! k) as [old|]; [|done].
    cbn [must mbind outcome_bind obind]. intros [= <- <-].
    eexists _, k. split_and!; [done|apply newFileMessages_type|done].
  - destruct (decide (k < length paths)%nat) as [Hk|]; [|done].
    cbn [fileBytes createNewFile createNewFileTime].
    destruct (fileBytes st !! k) as [old|]; [|done].
    cbn [must mbind outcome_bind obind]. intros [= <- <-].
    exists [], k. split_and!; [done|apply Forall_nil_2|done].
Qed.

Lemma filter_packets_block (block : list (nat * Message)) :
  Forall (λ im, msgType im.2 = msgTypeNewPcapFile) block →
  filter (λ im : nat * Message, msgType im.2 = msgTypePacket) block = [].
Proof.
  intros Hb. apply filter_none. intros im Hin Hty.
  rewrite Forall_forall in Hb. specialize (Hb im Hin). congruence.
Qed.

End scheduler_order.

(** The Scheduler loses no packet, sends none twice and keeps their
    order: the [Packet] messages that it has sent, over all channels and
    in the order of sending, are the messages of its input in input
    order, each sent to a channel that exists and changed only by the
    pcap index payload, which is set to the number of that channel as a
    byte. *)
Theorem schedule_forwards_all (paths : list string) (input : list (capture.Message * Z * Z))
    (st0 st : capture.schedState) (sent : list (nat * capture.Message)) :
  Forall (λ i, capture.msgType i.1.1 = capture.msgTypePacket) input →
  capture.schedule_run paths st0 input = Done (st, sent) →
  Forall2
    (λ (im : nat * capture.Message) (i : capture.Message * Z * Z),
       (im.1 < length paths)%nat
       ∧ im.2 = capture.Set_ i.1.1 capture.msgPayloadPcapIdx
                  (capture.VByte (byte_of_Z (Z.of_nat im.1))))
    (filter (λ im : nat * capture.Message, capture.msgType im.2 = capture.msgTypePacket)
            sent)
    input.
Proof.
  revert st0 st sent.
  induction input as [|[[msg tSince] tNow] input IH]; intros st0 st sent Hty Hrun.
  - injection Hrun as <- <-. apply Forall2_nil_2.
  - apply Forall_cons in Hty as [Hmsg Hty]. simpl in Hmsg.
    cbn [capture.schedule_run] in Hrun.
    destruct (capture.schedule_step paths st0 msg tSince tNow)
      as [[st1 sent1]| |] eqn:Hstep; [|done..].
    cbn [mbind outcome_bind obind] in Hrun.
    destruct (capture.schedule_run paths st1 input) as [[st2 sent2]| |] eqn:Hrun';
      [|done..].
    cbn [mbind outcome_bind obind] in Hrun. injection Hrun as <- <-.
    destruct (schedule_step_shape _ _ _ _ _ _ _ Hstep) as (block & k & -> & Hb & Hk).
    rewrite !filter_app, (filter_packets_block block Hb).
    rewrite filter_cons_True by done. rewrite filter_nil. cbn [app].
    apply Forall2_cons_2; [done|]. by eapply IH.
Qed.

Lemma schedule_forwards_all_witness :
  let input := [(samples.read samples.p1, 0, 0); (samples.read samples.p2, 1, 1)] in
  ∃ st sent,
    capture.schedule_run ["a"; "b"]%string (capture.schedStart 2 0) input
    = Done (st, sent)
    ∧ Forall2
        (λ (im : nat * capture.Message) (i : capture.Message * Z * Z),
           (im.1 < 2)%nat
           ∧ im.2 = capture.Set_ i.1.1 capture.msgPayloadPcapIdx
                      (capture.VByte (byte_of_Z (Z.of_nat im.1))))
        (filter (λ im : nat * capture.Message,
                   capture.msgType im.2 = capture.msgTypePacket) sent)
        input.
Proof.
  intros input.
  destruct (capture.schedule_run ["a"; "b"]%string (capture.schedStart 2 0) input)
    as [[st sent]| |] eqn:Hrun; [|by vm_compute in Hrun..].
  exists st, sent. split; [done|].
  apply (schedule_forwards_all ["a"; "b"]%string input (capture.schedStart 2 0)
           st sent); [|exact Hrun].
  repeat apply Forall_cons_2; [done..|apply Forall_nil_2].
Defined.

Section scheduler_counts.
Import capture.

Lemma routed_since_app (i : nat) (acc sent : list (nat * Message)) :
  routed_since i (acc ++ sent) = fold_left (routed_step i) sent (routed_since i acc).
Proof. unfold routed_since. apply fold_left_app. Qed.

Lemma routed_all_new (i : nat) (l : list (nat * Message)) :
  ∀ start, l ≠ [] → Forall (λ im, msgType im.2 = msgTypeNewPcapFile) l →
  fold_left (routed_step i) l start = [].
Proof.
  induction l as [|im l IH]; intros start Hne Hty; [done|].
  apply Forall_cons in Hty as [Him Hty]. cbn [fold_left].
  unfold routed_step at 2. rewrite Him.
  destruct l as [|im' l]; [done|]. by apply IH.
Qed.

Lemma onDisk_snoc (l : list Message) (msg : Message) :
  onDisk (l ++ [msg]) = onDisk l + (captureLengthOf msg + 16).
Proof.
  unfold onDisk. rewrite fmap_app, foldr_app. cbn [fmap list_fmap foldr].
  generalize ((λ msg0, captureLengthOf msg0 + 16) <$> l). intros zs.
  induction zs as [|z zs IH]; cbn [foldr]; lia.
Qed.

Lemma replicate_fmap_seq {A} (n : nat) (x : A) (j : nat) :
  replicate n x = (λ _, x) <$> seq j n.
Proof. revert j. induction n as [|n IH]; intros j; simpl; [done|]. by rewrite <- IH. Qed.

Lemma insert_fmap_seq {A} (f g : nat → A) (n k : nat) (v : A) :
  (k < n)%nat → g k = v → (∀ j, j ≠ k → g j = f j) →
  <[k := v]> (f <$> seq 0 n) = g <$> seq 0 n.
Proof.
  intros Hk Hgk Hother. apply list_eq. intros j.
  destruct (decide (j = k)) as [->|Hne].
  - rewrite list_lookup_insert_eq by (by rewrite length_fmap, length_seq).
    rewrite list_lookup_fmap, lookup_seq_lt by done. simpl. by rewrite Hgk.
  - rewrite list_lookup_insert_ne by done. rewrite !list_lookup_fmap.
    destruct (decide (j < n)%nat).
    + rewrite lookup_seq_lt by done. simpl. by rewrite Hother.
    + by rewrite lookup_seq_ge by lia.
Qed.

End scheduler_counts.

(** The byte counts of the Scheduler are the sizes of the files as the
    writers build them: after every stream of packets, the count of
    writer [i] is the size of a pcap file that holds the packets routed
    to [i] since the last rotation, the packet that caused the rotation
    included. *)
Theorem fileBytes_accounts (paths : list string) (t0 : Z)
    (input : list (capture.Message * Z * Z)) :
  paths ≠ [] →
  Forall (λ i, capture.packet_message i.1.1) input →
  ∃ st sent,
    capture.schedule_run paths (capture.schedStart (length paths) t0) input
      = Done (st, sent)
    ∧ capture.fileBytes st
      = (λ i, capture.onDisk (capture.routed_since i sent)) <$> seq 0 (length paths).
Proof.
  intros Hne Hin.
  destruct (schedule_run_induction paths t0 (λ _, True)
    (λ st acc, capture.fileBytes st
               = (λ i, capture.onDisk (capture.routed_since i acc))
                   <$> seq 0 (length paths)) Hne) with (input := input)
    as (st & sent & Hrun & _ & HP).
  - simpl. apply replicate_fmap_seq.
  - intros st acc msg p tSince tNow minB k Hinv HP Hty _ Hget Hcap Hsm Hk Hklt s routed.
    subst s routed. split.
    + intros _. cbn [capture.fileBytes].
      rewrite (replicate_fmap_seq _ _ 0).
      apply insert_fmap_seq; [done| |].
      * rewrite app_assoc, !routed_since_app.
        rewrite (routed_all_new _ (capture.newFileMessages paths _));
          [|by destruct paths|apply newFileMessages_type].
        cbn [fold_left]. unfold capture.routed_step at 1. cbn [snd fst capture.Set_ capture.msgType].
        rewrite Hty. rewrite decide_True by done.
        unfold capture.onDisk. cbn [app fmap list_fmap foldr].
        rewrite (captureLengthOf_routed msg p) by done. lia.
      * intros j Hj. rewrite app_assoc, !routed_since_app.
        rewrite (routed_all_new _ (capture.newFileMessages paths _));
          [|by destruct paths|apply newFileMessages_type].
        cbn [fold_left]. unfold capture.routed_step at 1. cbn [snd fst capture.Set_ capture.msgType].
        rewrite Hty. by rewrite decide_False by done.
    + intros _. cbn [capture.fileBytes]. rewrite HP.
      apply insert_fmap_seq; [done| |].
      * rewrite routed_since_app.
        cbn [fold_left]. unfold capture.routed_step at 1. cbn [snd fst capture.Set_ capture.msgType].
        rewrite Hty. rewrite decide_True by done.
        rewrite onDisk_snoc. rewrite (captureLengthOf_routed msg p) by done.
        rewrite HP in Hk. rewrite list_lookup_fmap, lookup_seq_lt in Hk by done.
        simpl in Hk. injection Hk as <-. lia.
      * intros j Hj. rewrite routed_since_app.
        cbn [fold_left]. unfold capture.routed_step at 1. cbn [snd fst capture.Set_ capture.msgType].
        rewrite Hty. by rewrite decide_False by done.
  - eapply Forall_impl; [exact Hin|]. by intros [[msg a] b] H.
  - by exists st, sent.
Qed.

Lemma fileBytes_accounts_witness :
  let paths := ["/data/a"; "/data/b"]%string in
  let input := [(samples.read samples.p1, 10, 11);
                (samples.read samples.p2, 20, 21);
                (samples.read samples.p3, 30, 31)] in
  ∃ st sent,
    capture.schedule_run paths (capture.schedStart (length paths) 0) input
      = Done (st, sent)
    ∧ capture.fileBytes st
      = (λ i, capture.onDisk (capture.routed_since i sent)) <$> seq 0 (length paths).
Proof.
  intros paths input. apply fileBytes_accounts.
  - done.
  - repeat apply Forall_cons_2; try apply Forall_nil_2;
      (split; [reflexivity|]); eexists; (split; [reflexivity|]); simpl; lia.
Defined.

(** The routing of a packet.  After any stream of packets, the next
    packet goes to the writer whose byte count was the smallest before
    the step, the one of lowest index among equals, also in a step that
    rotates and sets all the counts to 24 before the packet is counted. *)
Theorem schedule_least_loaded (paths : list string) (t0 : Z)
    (input : list (capture.Message * Z * Z))
    (msg : capture.Message) (tSince tNow : Z) :
  paths ≠ [] →
  Forall (λ i, capture.packet_message i.1.1) input →
  capture.packet_message msg →
  ∃ st sent0 st' sent k minB,
    capture.schedule_run paths (capture.schedStart (length paths) t0) input
      = Done (st, sent0)
    ∧ capture.schedule_step paths st msg tSince tNow = Done (st', sent)
    ∧ last sent
      = Some (k, capture.Set_ msg capture.msgPayloadPcapIdx
                   (capture.VByte (byte_of_Z (Z.of_nat k))))
    ∧ capture.fileBytes st !! k = Some minB
    ∧ ∀ j x, capture.fileBytes st !! j = Some x →
             minB ≤ x ∧ ((j < k)%nat → minB < x).
Proof.
  intros Hne Hin (Hty & p & Hget & Hcap).
  destruct (schedule_run_inv paths input (capture.schedStart (length paths) t0) []
              Hne (sched_inv_start _ t0) Hin) as (st & sent0 & Hrun & Hinv).
  destruct Hinv as (Hok & _ & _).
  destruct (schedule_step_eq paths st msg p tSince tNow Hne Hok Hget Hcap)
    as (minB & k & Hsm & Hk & Hklt & Heq). cbv zeta in Heq.
  destruct (smallest_first _ _ _ _ _ _ (Nat.le_refl 0) Hsm) as [_ Hfirst].
  case_decide.
  - eexists st, sent0, _, _, k, minB. split_and!; [done|exact Heq| |done|done].
    by rewrite last_snoc.
  - eexists st, sent0, _, _, k, minB. split_and!; [done|exact Heq|done|done|done].
Qed.

Lemma schedule_least_loaded_witness :
  let paths := ["/data/a"; "/data/b"]%string in
  let input := [(samples.read samples.p1, 10, 11)] in
  ∃ st sent0 st' sent k minB,
    capture.schedule_run paths (capture.schedStart (length paths) 0) input
      = Done (st, sent0)
    ∧ capture.schedule_step paths st (samples.read samples.p2) 20 21 = Done (st', sent)
    ∧ last sent
      = Some (k, capture.Set_ (samples.read samples.p2) capture.msgPayloadPcapIdx
                   (capture.VByte (byte_of_Z (Z.of_nat k))))
    ∧ capture.fileBytes st !! k = Some minB
    ∧ ∀ j x, capture.fileBytes st !! j = Some x →
             minB ≤ x ∧ ((j < k)%nat → minB < x).
Proof.
  intros paths input. apply schedule_least_loaded.
  - done.
  - repeat apply Forall_cons_2; try apply Forall_nil_2;
      (split; [reflexivity|]); eexists; (split; [reflexivity|]); simpl; lia.
  - split; [reflexivity|]. eexists. split; [reflexivity|]. simpl. lia.
Defined.

(** Where the Scheduler panics.  In a state with one count for each
    writer, a message makes the step panic exactly when it carries no
    packet (the type assertion on the payload fails) or when there is no
    writer at all (the send to channel 0 is out of range). *)
Theorem schedule_step_panics (paths : list string) (st : capture.schedState)
    (msg : capture.Message) (tSince tNow : Z) :
  capture.sched_ok (length paths) st →
  (capture.schedule_step paths st msg tSince tNow = Panic
   ↔ paths = [] ∨ ∀ p, capture.Get msg capture.msgPayloadPacket
                       ≠ Some (capture.VPacket p)).
Proof.
  intros [Hlen Hrange]. split.
  - intros Hpanic.
    destruct (decide (paths = [])) as [->|Hne]; [by left|]. right. intros p Hget.
    unfold capture.schedule_step in Hpanic.
    destruct (capture.smallest 0 (capture.fileBytes st) MaxUint64 0) as [minB k] eqn:Hsm.
    rewrite Hget in Hpanic. cbn [capture.asPacket mbind outcome_bind obind] in Hpanic.
    assert (Hne' : capture.fileBytes st ≠ []).
    { intros E. rewrite E in Hlen. destruct paths; [done|]. simpl in Hlen. lia. }
    assert (Hlt : Forall (λ x, x < MaxUint64) (capture.fileBytes st)).
    { eapply Forall_impl; [exact Hrange|]. unfold MaxUint64. simpl. lia. }
    destruct (smallest_min _ _ _ Hne' Hlt Hsm) as [Hk _].
    assert (Hk' : (k < length paths)%nat).
    { rewrite <- Hlen. by eapply lookup_lt_Some. }
    destruct (if decide (common.MaxPcapFileTime
                         ≤ tSince - capture.createNewFileTime st) then true else _);
      rewrite (decide_True (P := (k < length paths)%nat)) in Hpanic by done;
      cbn [capture.fileBytes] in Hpanic.
    + rewrite Hlen in Hpanic. rewrite lookup_replicate_2 in Hpanic by done.
      cbn [must mbind outcome_bind obind] in Hpanic. discriminate Hpanic.
    + rewrite Hk in Hpanic.
      cbn [must mbind outcome_bind obind] in Hpanic. discriminate Hpanic.
  - intros [->|Hno].
    + unfold capture.schedule_step.
      destruct (capture.smallest 0 (capture.fileBytes st) MaxUint64 0) as [minB k].
      destruct (capture.Get msg capture.msgPayloadPacket) as [[]|]; try done.
      cbn [capture.asPacket mbind outcome_bind obind].
      destruct (if decide (common.MaxPcapFileTime
                           ≤ tSince - capture.createNewFileTime st) then true else _);
        by rewrite decide_False by (simpl; lia).
    + unfold capture.schedule_step.
      destruct (capture.smallest 0 (capture.fileBytes st) MaxUint64 0) as [minB k].
      destruct (capture.Get msg capture.msgPayloadPacket) as [[]|] eqn:Hget; try done.
      by destruct (Hno p).
Qed.

Lemma schedule_step_panics_witness :
  capture.schedule_step [] (capture.schedStart 0 0) (samples.read samples.p1) 0 0 = Panic
  ∧ capture.schedule_step ["/data/a"%string] (capture.schedStart 1 0)
      (capture.NewMessage capture.msgTypePacket) 0 0 = Panic.
Proof.
  split.
  - apply (schedule_step_panics [] (capture.schedStart 0 0)).
    + split; [done|apply Forall_nil_2].
    + by left.
  - apply (schedule_step_panics ["/data/a"%string] (capture.schedStart 1 0)).
    + split; [done|]. apply Forall_cons_2; [simpl; lia|apply Forall_nil_2].
    + right. intros p. discriminate.
Defined.

(** ** Further properties of the Writer *)

(** A failed [os.Create] or [WriteFileHeader] ends the Writer.  The
    [FileClosed] message of the file that was open, if one was, has
    been sent by then; the [NewPcapFile] message itself is not forwarded,
    and no message that follows on the input channel is read. *)
Theorem writePcap_stops (st : capture.writerState) (msg : capture.Message)
    (env : capture.writerEnv) (rest : list (capture.Message * capture.writerEnv))
    (base b : string) (idx : byte) :
  capture.msgType msg = capture.msgTypeNewPcapFile →
  capture.Get msg capture.msgPayloadPcapPathBase = Some (capture.VString base) →
  capture.Get msg capture.msgPayloadPcapFilename = Some (capture.VString b) →
  capture.Get msg capture.msgPayloadPcapIdx = Some (capture.VByte idx) →
  capture.createErr env = true ∨ capture.headerErr env = true →
  capture.writePcap_run st ((msg, env) :: rest)
  = Done (match capture.pcapFile st with
          | Some _ => [capture.fileClosedMessage (capture.pcapFilename st) idx]
          | None => []
          end).
Proof.
  intros Hty Hbase Hb Hidx Herr.
  cbn [capture.writePcap_run]. unfold capture.writePcap_step.
  rewrite Hty, Hbase, Hb, Hidx.
  destruct (capture.pcapFile st);
    cbn [capture.asByte capture.asString mbind outcome_bind obind];
    destruct (capture.createErr env), (capture.headerErr env);
    cbn [mbind outcome_bind obind]; try done; by destruct Herr.
Qed.

Lemma writePcap_stops_witness :
  let new b := capture.Set_ (capture.Set_ (capture.Set_
                 (capture.NewMessage capture.msgTypeNewPcapFile)
                 capture.msgPayloadPcapPathBase (capture.VString "/data/a"))
                 capture.msgPayloadPcapFilename (capture.VString b))
                 capture.msgPayloadPcapIdx (capture.VByte x00) in
  let st := capture.mkWriter "2020_01_01-00_00_00" x00
              (Some ("/data/a", "2020_01_01-00_00_00", x00))%string in
  capture.writePcap_run st
    [(new "2020_01_01-00_01_00"%string, capture.mkEnv true false None false);
     (samples.read samples.p1, capture.mkEnv false false (Some 24) false)]
  = Done [capture.fileClosedMessage "2020_01_01-00_00_00" x00].
Proof.
  intros new st.
  apply (writePcap_stops st (new "2020_01_01-00_01_00"%string) _ _
           "/data/a" "2020_01_01-00_01_00" x00); try reflexivity. by left.
Defined.

Section writer_protocol.
Import capture.

Lemma writer_input_weaken (input : list Message) :
  ∀ open, writer_input open input → writer_input true input.
Proof.
  induction input as [|msg input IH]; intros open H; [done|].
  cbn [writer_input] in *. destruct (msgType msg); try done.
  destruct H as (_ & Hp & H). split_and!; [done|done|]. by eapply IH.
Qed.

(** Whatever the operating system answers, a writer whose input has the
    shape [writer_input] runs without a panic and its output has the
    shape [writer_protocol]. *)
Lemma writePcap_run_protocol (input : list (Message * writerEnv)) :
  ∀ st, writer_input (bool_decide (is_Some (pcapFile st))) input.*1 →
  ∃ out, writePcap_run st input = Done out ∧ writer_protocol (openName st) out.
Proof.
  induction input as [|[msg env] input IH]; intros st Hin.
  - by exists [].
  - cbn [fmap list_fmap fst writer_input] in Hin. cbn [writePcap_run].
    unfold writePcap_step.
    destruct (msgType msg) eqn:Hty; try done.
    + (* a packet *)
      destruct Hin as (Hopen & (p & idx & Hget & Hdec & Hidx) & Hin).
      apply bool_decide_eq_true in Hopen. destruct Hopen as [f Hf].
      rewrite Hf.
      destruct (IH st Hin) as (out & Hrun & Hproto).
      destruct (seekResult env) as [offset|]; cbn [mbind outcome_bind obind].
      2: { rewrite Hrun. cbn [mbind outcome_bind obind]. by exists out. }
      assert (Hget2 : Get (Set_ (Set_ msg msgPayloadOffset (VUint32 (wrap 32 offset)))
                             msgPayloadPcapFilename (VString (pcapFilename st)))
                        msgPayloadPacket = Some (VPacket p)).
      { unfold Get, Set_. simpl. by rewrite !lookup_insert_ne by done. }
      rewrite Hget2. cbn [asPacket mbind outcome_bind obind].
      destruct (writeErr env); cbn [mbind outcome_bind obind]; rewrite Hrun;
        cbn [mbind outcome_bind obind]; [by exists out|].
      eexists. split; [done|]. cbn [app writer_protocol].
      cbn [msgType Set_]. rewrite Hty.
      assert (Get (Set_ (Set_ msg msgPayloadOffset (VUint32 (wrap 32 offset)))
                     msgPayloadPcapFilename (VString (pcapFilename st)))
                msgPayloadPcapFilename = Some (VString (pcapFilename st))) as ->.
      { unfold Get, Set_. simpl. by rewrite lookup_insert_eq. }
      split_and!.
      * unfold openName. by rewrite Hf.
      * exists p, idx, (wrap 32 offset). split_and!; [done|done| |].
        -- unfold Get, Set_ in *. simpl. by rewrite !lookup_insert_ne by done.
        -- unfold Get, Set_. simpl. rewrite lookup_insert_ne by done.
           by rewrite lookup_insert_eq.
      * done.
    + (* a new file *)
      destruct Hin as ((base & b & idx & Hbase & Hb & Hidx) & Hin).
      rewrite Hbase, Hb, Hidx.
      set (st' := mkWriter b idx (Some (base, b, idx))).
      assert (Hin' : writer_input (bool_decide (is_Some (pcapFile st'))) input.*1).
      { by rewrite bool_decide_eq_true_2 by (by eexists). }
      destruct (IH st' Hin') as (out & Hrun & Hproto).
      assert (Hnew : writer_protocol None (msg :: out)).
      { cbn [writer_protocol]. by rewrite Hty, Hb. }
      assert (Hclosed : ∀ old, writer_protocol (Some old)
                                 [fileClosedMessage old idx]).
      { intros old. cbn [writer_protocol]. done. }
      destruct (pcapFile st) as [f|] eqn:Hf;
        cbn [asByte asString mbind outcome_bind obind];
        destruct (createErr env); cbn [mbind outcome_bind obind];
        try destruct (headerErr env); cbn [mbind outcome_bind obind];
        try (fold st'; rewrite Hrun; cbn [mbind outcome_bind obind]);
        eexists; (split; [done|]); unfold openName; rewrite Hf; done.
Qed.

End writer_protocol.


Section scheduler_to_writer.
Import capture.

Lemma writer_input_app (l1 l2 : list Message) :
  ∀ open, writer_input open l1 → writer_input false l2 → writer_input open (l1 ++ l2).
Proof.
  induction l1 as [|msg l1 IH]; intros open H1 H2.
  - destruct open; [by apply (writer_input_weaken _ false)|done].
  - cbn [app writer_input] in *. destruct (msgType msg); try done.
    + destruct H1 as (Ho & Hp & H1). split_and!; [done|done|by apply IH].
    + destruct H1 as (Hp & H1). split; [done|by apply IH].
Qed.

Lemma writer_input_snoc_packet (l : list Message) (msg : Message) :
  ∀ open, writer_input open l →
  open = true ∨ Exists (λ m, msgType m = msgTypeNewPcapFile) l →
  writer_input true [msg] →
  writer_input open (l ++ [msg]).
Proof.
  induction l as [|m l IH]; intros open H1 Hopen H2.
  - destruct Hopen as [->|Hex]; [done|]. by apply Exists_nil in Hex.
  - cbn [app writer_input] in *. destruct (msgType m) eqn:Hm; try done.
    + destruct H1 as (Ho & Hp & H1). split_and!; [done|done|].
      apply IH; [done|by left|done].
    + destruct H1 as (Hp & H1). split; [done|]. apply IH; [done|by left|done].
Qed.

Lemma writer_input_take (n : nat) (l : list Message) :
  ∀ open, writer_input open l → writer_input open (take n l).
Proof.
  revert n. induction l as [|msg l IH]; intros [|n] open H; try done.
  cbn [take writer_input] in *. destruct (msgType msg); try done.
  - destruct H as (Ho & Hp & H). split_and!; [done|done|by apply IH].
  - destruct H as (Hp & H). split; [done|by apply IH].
Qed.

(** A list of well-formed [NewPcapFile] messages is a good input. *)
Lemma writer_input_news (l : list Message) (open : bool) :
  Forall (λ msg, msgType msg = msgTypeNewPcapFile
                 ∧ ∃ base b idx,
                     Get msg msgPayloadPcapPathBase = Some (VString base)
                     ∧ Get msg msgPayloadPcapFilename = Some (VString b)
                     ∧ Get msg msgPayloadPcapIdx = Some (VByte idx)) l →
  writer_input open l.
Proof.
  revert open. induction l as [|msg l IH]; intros open H; [done|].
  apply Forall_cons in H as [[Hty Hp] H]. cbn [writer_input]. rewrite Hty.
  split; [done|]. by apply IH.
Qed.

Lemma channel_app (i : nat) (l1 l2 : list (nat * Message)) :
  channel i (l1 ++ l2) = channel i l1 ++ channel i l2.
Proof. unfold channel. by rewrite filter_app, fmap_app. Qed.

Lemma channel_elem (i : nat) (l : list (nat * Message)) (msg : Message) :
  msg ∈ channel i l ↔ (i, msg) ∈ l.
Proof.
  unfold channel. rewrite list_elem_of_fmap. split.
  - intros ([j m] & -> & Hin). apply list_elem_of_filter in Hin as [Hj Hin].
    simpl in Hj. by subst.
  - intros Hin. exists (i, msg). split; [done|]. by apply list_elem_of_filter.
Qed.

Lemma newFileMessages_wf (paths : list string) (timeStr : string) (im : nat * Message) :
  im ∈ newFileMessages paths timeStr →
  msgType im.2 = msgTypeNewPcapFile
  ∧ ∃ base b idx,
      Get im.2 msgPayloadPcapPathBase = Some (VString base)
      ∧ Get im.2 msgPayloadPcapFilename = Some (VString b)
      ∧ Get im.2 msgPayloadPcapIdx = Some (VByte idx).
Proof.
  intros Hin. unfold newFileMessages in Hin.
  apply elem_of_lookup_imap in Hin as (k & p & -> & _). simpl.
  split; [done|]. by eexists _, _, _.
Qed.

Lemma channel_block (paths : list string) (timeStr : string) (i : nat) :
  writer_input false (channel i (newFileMessages paths timeStr))
  ∧ ((i < length paths)%nat →
     Exists (λ m, msgType m = msgTypeNewPcapFile)
       (channel i (newFileMessages paths timeStr))).
Proof.
  split.
  - apply writer_input_news. apply Forall_forall. intros msg Hin.
    apply channel_elem in Hin. exact (newFileMessages_wf paths timeStr (i, msg) Hin).
  - intros Hi. apply lookup_lt_is_Some in Hi as [p Hp].
    apply Exists_exists.
    exists (Set_ (Set_ (Set_ (NewMessage msgTypeNewPcapFile)
                          msgPayloadPcapPathBase (VString p))
                     msgPayloadPcapFilename (VString timeStr))
                msgPayloadPcapIdx (VByte (byte_of_Z (Z.of_nat i)))).
    split; [|done]. apply channel_elem. unfold newFileMessages.
    apply elem_of_lookup_imap. by exists i, p.
Qed.

Lemma channel_routed (i k : nat) (msg : Message) :
  channel i [(k, msg)] = if decide (k = i) then [msg] else [].
Proof.
  unfold channel. rewrite filter_cons, filter_nil. simpl.
  repeat case_decide; simplify_eq; done.
Qed.

Lemma Exists_app_l {A} (P : A → Prop) (l1 l2 : list A) :
  Exists P l1 → Exists P (l1 ++ l2).
Proof. intros H. apply Exists_app. by left. Qed.

End scheduler_to_writer.

Section scheduler_channels.
Import capture.

(** Whatever the stream of packets, every writer finds on its channel a
    [NewPcapFile] message before its first packet. *)
Lemma schedule_run_channels (paths : list string) (t0 : Z)
    (input : list (Message * Z * Z)) :
  paths ≠ [] →
  Forall (λ i, packet_message i.1.1
               ∧ ∀ p, Get i.1.1 msgPayloadPacket = Some (VPacket p) → decodes p)
         input →
  ∃ st sent,
    schedule_run paths (schedStart (length paths) t0) input = Done (st, sent)
    ∧ ∀ i, writer_input false (channel i sent).
Proof.
  intros Hne Hin.
  destruct (schedule_run_induction paths t0
    (λ msg, ∀ p, Get msg msgPayloadPacket = Some (VPacket p) → decodes p)
    (λ st acc, ∀ i,
       writer_input false (channel i acc)
       ∧ (acc ≠ [] → (i < length paths)%nat →
          Exists (λ m, msgType m = msgTypeNewPcapFile) (channel i acc))) Hne)
    with (input := input) as (st & sent & Hrun & _ & HP).
  - intros i. split; [done|]. by intros [].
  - intros st acc msg p tSince tNow minB k Hinv HP Hty HQ Hget Hcap Hsm Hk Hklt s routed.
    subst s routed.
    assert (Hrouted : writer_input true
      [Set_ msg msgPayloadPcapIdx (VByte (byte_of_Z (Z.of_nat k)))]).
    { cbn [writer_input Set_ msgType]. rewrite Hty.
      split_and!; [done| |done]. exists p, (byte_of_Z (Z.of_nat k)).
      split_and!; [|by apply HQ|].
      - unfold Get, Set_ in *. simpl. by rewrite lookup_insert_ne.
      - unfold Get, Set_. simpl. by rewrite lookup_insert_eq. }
    split.
    + intros _ i. destruct (HP i) as [Hacc _].
      destruct (channel_block paths (common.GetFileBaseName (Timestamp p)) i)
        as [Hblock Hex].
      rewrite !channel_app, channel_routed. split.
      * apply writer_input_app; [done|].
        destruct (decide (k = i)) as [->|Hki].
        -- apply writer_input_snoc_packet; [done|right; by apply Hex|done].
        -- by rewrite app_nil_r.
      * intros _ Hi. apply Exists_app. right. apply Exists_app_l. by apply Hex.
    + intros Hacc i. destruct (HP i) as [Hin_i Hex_i].
      rewrite channel_app, channel_routed. split.
      * destruct (decide (k = i)) as [->|Hki].
        -- apply writer_input_snoc_packet; [done|right; by apply Hex_i|done].
        -- by rewrite app_nil_r.
      * intros _ Hi. apply Exists_app_l. by apply Hex_i.
  - done.
  - exists st, sent. split; [done|]. intros i. by destruct (HP i).
Qed.

(** A writer on a prefix of its channel, as long as the answers of the
    operating system that are supplied reach. *)
Lemma writePcap_run_channel (l : list Message) (envs : list writerEnv) :
  writer_input false l →
  ∃ out, writePcap_run writerStart (zip l envs) = Done out
         ∧ writer_protocol None out.
Proof.
  intros Hl. apply writePcap_run_protocol. cbn [writerStart pcapFile].
  rewrite bool_decide_eq_false_2 by (by intros [? [=]]).
  destruct (decide (length l ≤ length envs)%nat).
  - by rewrite fst_zip.
  - assert (zip l envs = zip (take (length envs) l) envs) as ->.
    { symmetry. apply zip_with_take_l. }
    rewrite fst_zip by (rewrite length_take; lia). by apply writer_input_take.
Qed.

End scheduler_channels.

(** From the Scheduler to the writers.  Whatever the stream of packets,
    every writer finds on its channel a [NewPcapFile] message before its
    first packet.  So no writer meets a packet without an open file,
    which would be a nil dereference: whatever the operating system
    answers to its calls, and however far it gets into its channel, a
    writer ends without a panic, and what it has put on its output queue
    opens and closes one file after the other, every packet stamped with
    the base name of the file that is open. *)
Theorem scheduler_to_writer (paths : list string) (t0 : Z)
    (input : list (capture.Message * Z * Z)) :
  paths ≠ [] →
  Forall (λ i, capture.packet_message i.1.1
               ∧ ∀ p, capture.Get i.1.1 capture.msgPayloadPacket
                      = Some (capture.VPacket p) → capture.decodes p) input →
  ∃ st sent,
    capture.schedule_run paths (capture.schedStart (length paths) t0) input
      = Done (st, sent)
    ∧ ∀ (i : nat) (envs : list capture.writerEnv),
        ∃ out,
          capture.writePcap_run capture.writerStart (zip (capture.channel i sent) envs)
            = Done out
          ∧ capture.writer_protocol None out.
Proof.
  intros Hne Hin.
  destruct (schedule_run_channels paths t0 input Hne Hin) as (st & sent & Hrun & Hch).
  exists st, sent. split; [done|]. intros i envs.
  by apply writePcap_run_channel.
Qed.

Lemma scheduler_to_writer_witness :
  let paths := ["/data/a"; "/data/b"]%string in
  let input := [(samples.read samples.p1, 10, 11);
                (samples.read samples.p2, 20, 21);
                (samples.read samples.p3, 30, 31)] in
  ∃ st sent,
    capture.schedule_run paths (capture.schedStart (length paths) 0) input
      = Done (st, sent)
    ∧ ∀ (i : nat) (envs : list capture.writerEnv),
        ∃ out,
          capture.writePcap_run capture.writerStart (zip (capture.channel i sent) envs)
            = Done out
          ∧ capture.writer_protocol None out.
Proof.
  intros paths input. apply scheduler_to_writer.
  - done.
  - repeat apply Forall_cons_2; try apply Forall_nil_2;
      (split; [split; [reflexivity|]; eexists; (split; [reflexivity|]); simpl; lia|]);
      intros p [= <-]; discriminate.
Defined.

(** ** Further properties of the Extractor and of the Indexer *)

(** The Extractor passes every message on, in order.  A message that is
    not a [Packet] is passed unchanged.  A [Packet] message keeps its
    type and every payload but the seven that the Extractor sets (the two
    MAC addresses, the two IP addresses, the two ports, the protocol): so
    the packet, the base name, the pcap index and the offset reach the
    Indexer as the Writer set them.  The step panics exactly on a [Packet]
    message that carries no packet, or one on which [ParsePacket]
    panics. *)
Theorem extractPacket_step_frame (msg : capture.Message) :
  (capture.extractPacket_step msg = Panic
   ↔ capture.msgType msg = capture.msgTypePacket
     ∧ ∀ p, capture.Get msg capture.msgPayloadPacket = Some (capture.VPacket p)
            → common.ParsePacket p = Panic)
  ∧ (∀ msg', capture.extractPacket_step msg = Done msg' →
       capture.msgType msg' = capture.msgType msg
       ∧ (capture.msgType msg ≠ capture.msgTypePacket → msg' = msg)
       ∧ ∀ key,
           key ∉ [capture.msgPayloadSrcMAC; capture.msgPayloadDstMAC;
                  capture.msgPayloadSrcIP; capture.msgPayloadDstIP;
                  capture.msgPayloadSrcPort; capture.msgPayloadDstPort;
                  capture.msgPayloadIPProto] →
           capture.Get msg' key = capture.Get msg key)
  ∧ ∀ input out, capture.extractPacket_run input = Done out →
      Forall2 (λ m m', capture.extractPacket_step m = Done m') input out.
Proof.
  split_and!.
  - unfold capture.extractPacket_step.
    destruct (decide (capture.msgType msg = capture.msgTypePacket)) as [Hty|Hty].
    + destruct (capture.Get msg capture.msgPayloadPacket) as [[p| | | | | | |]|];
        cbn [capture.asPacket mbind outcome_bind obind];
        try (split; [intros _; split; [done|]; intros ? [=]|done]).
      destruct (common.ParsePacket p) as [r| |] eqn:Hp;
        cbn [mbind outcome_bind obind].
      * split; [done|]. intros [_ H]. specialize (H p eq_refl). congruence.
      * split; [|done]. intros _. split; [done|]. by intros ? [= <-].
      * split; [done|]. intros [_ H]. specialize (H p eq_refl). congruence.
    + split; [done|]. by intros [? _].
  - intros msg' Hstep. unfold capture.extractPacket_step in Hstep.
    destruct (decide (capture.msgType msg = capture.msgTypePacket)) as [Hty|Hty].
    + destruct (capture.asPacket _) as [p| |]; [|done..].
      cbn [mbind outcome_bind obind] in Hstep.
      destruct (common.ParsePacket p) as [r| |]; [|done..].
      cbn [mbind outcome_bind obind] in Hstep. injection Hstep as <-.
      split_and!; [done|done|]. intros key Hkey.
      unfold capture.Get, capture.Set_. cbn [capture.payload].
      rewrite !not_elem_of_cons in Hkey.
      destruct Hkey as (? & ? & ? & ? & ? & ? & ? & _).
      by rewrite !lookup_insert_ne by done.
    + by injection Hstep as <-.
  - induction input as [|m input IH]; intros out Hrun.
    + injection Hrun as <-. apply Forall2_nil_2.
    + cbn [capture.extractPacket_run] in Hrun.
      destruct (capture.extractPacket_step m) as [m'| |] eqn:Hm; [|done..].
      cbn [mbind outcome_bind obind] in Hrun.
      destruct (capture.extractPacket_run input) as [out'| |]; [|done..].
      cbn [mbind outcome_bind obind] in Hrun. injection Hrun as <-.
      apply Forall2_cons_2; [done|]. by apply IH.
Qed.

Section indexer_keys.
Import index capture.

Lemma Put_keys (fuel : nat) (m m' : MemIndex) (k : Key) (ve : ValueElement) :
  Put fuel m k ve = Done m' →
  ∀ h miv, m' !! h = Some miv →
    K miv = k ∨ ∃ miv0, m !! h = Some miv0 ∧ K miv0 = K miv.
Proof.
  unfold Put. rewrite <- slot_0. intros Hput.
  apply Put_loop_inv in Hput as (n & _ & _ & Hat). simpl in Hat.
  unfold put_at in Hat. intros h miv Hm.
  destruct (m !! slot k n) as [e|] eqn:He.
  - destruct (decide (K e = k)) as [HK|]; [|done]. injection Hat as <-.
    destruct (decide (h = slot k n)) as [->|Hne].
    + rewrite lookup_insert_eq in Hm. injection Hm as <-. by left.
    + rewrite lookup_insert_ne in Hm by done. right. by exists miv.
  - injection Hat as <-.
    destruct (decide (h = slot k n)) as [->|Hne].
    + rewrite lookup_insert_eq in Hm. injection Hm as <-. by left.
    + rewrite lookup_insert_ne in Hm by done. right. by exists miv.
Qed.

Lemma Put_indexer_keys (fuel : nat) (m m' : MemIndex) (k : Key) (ve : ValueElement) :
  indexer_keys m → indexer_key k → Put fuel m k ve = Done m' → indexer_keys m'.
Proof.
  intros Hm Hk Hput h miv Hm'.
  destruct (Put_keys _ _ _ _ _ Hput h miv Hm') as [->|(miv0 & H0 & <-)]; [done|].
  by eapply Hm.
Qed.

Lemma putProto_indexer_keys (fuel : nat) (m m' : MemIndex) (x : option value)
    (ve : ValueElement) :
  indexer_keys m → putProto fuel m x ve = Done m' → indexer_keys m'.
Proof.
  intros Hm. unfold putProto. destruct x as [v|]; [|by intros [= <-]].
  destruct (asByte (Some v)) as [pr| |]; [|done..]. cbn [mbind outcome_bind obind].
  apply Put_indexer_keys; [done|]. split; [done|discriminate].
Qed.

Lemma putPort_indexer_keys (fuel : nat) (m m' : MemIndex) (x : option value)
    (ve : ValueElement) :
  indexer_keys m → putPort fuel m x ve = Done m' → indexer_keys m'.
Proof.
  intros Hm. unfold putPort. destruct x as [v|]; [|by intros [= <-]].
  destruct (asUint16 (Some v)) as [port| |]; [|done..]. cbn [mbind outcome_bind obind].
  apply Put_indexer_keys; [done|]. split; [done|discriminate].
Qed.

Lemma To4_length (ip ip4 : list byte) : To4 ip = Some ip4 → length ip4 = 4%nat.
Proof.
  unfold To4. repeat case_decide; intros [= <-]; [done|].
  rewrite length_drop. lia.
Qed.

Lemma To16_length (ip ip6 : list byte) : To16 ip = Some ip6 → length ip6 = 16%nat.
Proof.
  unfold To16. repeat case_decide; intros [= <-]; try done.
  rewrite ?length_app. simpl. lia.
Qed.

Lemma putIP_indexer_keys (fuel : nat) (m m' : MemIndex) (x : option value)
    (ve : ValueElement) :
  indexer_keys m → putIP fuel m x ve = Done m' → indexer_keys m'.
Proof.
  intros Hm. unfold putIP. destruct x as [v|]; [|by intros [= <-]].
  destruct (asIP (Some v)) as [ip| |]; [|done..]. cbn [mbind outcome_bind obind].
  destruct (To4 ip) as [ip4|] eqn:E4.
  - rewrite (To4_fixpoint ip ip4 E4). cbn [must mbind outcome_bind obind].
    apply Put_indexer_keys; [done|]. split; [|discriminate].
    unfold Key_wf. simpl. by rewrite (To4_length ip ip4).
  - destruct (To16 ip) as [ip6|] eqn:E6; [|by intros [= <-]].
    rewrite (To16_fixpoint ip ip6 E4 E6). cbn [must mbind outcome_bind obind].
    apply Put_indexer_keys; [done|]. split; [|discriminate].
    unfold Key_wf. simpl. by rewrite (To16_length ip ip6).
Qed.

Lemma index_step_keys (fuel : nat) (cache cache' : indexCache) (msg : Message)
    (out : list Message) :
  cache_keys cache → index_step fuel cache msg = Done (cache', out) →
  cache_keys cache' ∧ out_keys out.
Proof.
  intros Hc Hstep. unfold index_step in Hstep.
  assert (Hnil : out_keys []) by (intros ? ? Hin; by apply elem_of_nil in Hin).
  destruct (msgType msg).
  - (* Packet *)
    destruct (asString _) as [b0| |]; [|done..].
    cbn [mbind outcome_bind obind] in Hstep.
    destruct (cache !! b0) as [im0|] eqn:Him0; [|done].
    cbn [must mbind outcome_bind obind] in Hstep.
    destruct (asByte _) as [idx| |]; [|done..].
    cbn [mbind outcome_bind obind] in Hstep.
    destruct (asUint32 _) as [off| |]; [|done..].
    cbn [mbind outcome_bind obind] in Hstep.
    destruct (putProto _ _ _ _) as [m1| |] eqn:E1; [|done..].
    cbn [mbind outcome_bind obind] in Hstep.
    destruct (putIP _ _ _ _) as [m2| |] eqn:E2; [|done..].
    cbn [mbind outcome_bind obind] in Hstep.
    destruct (putIP _ m2 _ _) as [m3| |] eqn:E3; [|done..].
    cbn [mbind outcome_bind obind] in Hstep.
    destruct (putPort _ _ _ _) as [m4| |] eqn:E4; [|done..].
    cbn [mbind outcome_bind obind] in Hstep.
    destruct (putPort _ m4 _ _) as [m5| |] eqn:E5; [|done..].
    cbn [mbind outcome_bind obind] in Hstep.
    injection Hstep as <- <-. split; [|done].
    intros b im Hb. destruct (decide (b = b0)) as [->|Hne].
    + rewrite lookup_insert_eq in Hb. injection Hb as <-. cbn [index_].
      eapply putPort_indexer_keys; [|exact E5].
      eapply putPort_indexer_keys; [|exact E4].
      eapply putIP_indexer_keys; [|exact E3].
      eapply putIP_indexer_keys; [|exact E2].
      eapply putProto_indexer_keys; [|exact E1].
      by eapply Hc.
    + rewrite lookup_insert_ne in Hb by done. by eapply Hc.
  - (* FileClosed *)
    destruct (asString _) as [b0| |]; [|done..].
    cbn [mbind outcome_bind obind] in Hstep.
    destruct (cache !! b0) as [im0|] eqn:Him0; [|done].
    cbn [must mbind outcome_bind obind openWriters index_] in Hstep. case_decide.
    + injection Hstep as <- <-. split.
      * intros b im Hb. apply lookup_delete_Some in Hb as [_ Hb]. by eapply Hc.
      * intros m' mi Hin Hget. apply list_elem_of_singleton in Hin as ->.
        unfold memoryIndexMessage, Get, Set_ in Hget. simpl in Hget.
        rewrite lookup_insert_ne in Hget by done.
        rewrite lookup_insert_eq in Hget. injection Hget as <-. by eapply Hc.
    + injection Hstep as <- <-. split; [|done].
      intros b im Hb. destruct (decide (b = b0)) as [->|Hne].
      * rewrite lookup_insert_eq in Hb. injection Hb as <-. cbn [index_].
        by eapply Hc.
      * rewrite lookup_insert_ne in Hb by done. by eapply Hc.
  - (* NewPcapFile *)
    destruct (asString _) as [b0| |]; [|done..].
    cbn [mbind outcome_bind obind] in Hstep.
    destruct (cache !! b0) as [im0|] eqn:Him0; injection Hstep as <- <-;
      (split; [|done]); intros b im Hb;
      (destruct (decide (b = b0)) as [->|Hne];
       [rewrite lookup_insert_eq in Hb; injection Hb as <-
       |rewrite lookup_insert_ne in Hb by done; by eapply Hc]).
    + cbn [index_]. by eapply Hc.
    + intros h miv Hm. unfold NewMemIndex in Hm. simpl in Hm.
      by rewrite lookup_empty in Hm.
  - injection Hstep as <- <-. done.
Qed.

Lemma index_run_keys (fuel : nat) (input : list Message) :
  ∀ (cache cache' : indexCache) (out : list Message),
  cache_keys cache → index_run fuel cache input = Done (cache', out) →
  cache_keys cache' ∧ out_keys out.
Proof.
  induction input as [|msg input IH]; intros cache cache' out Hc Hrun.
  - injection Hrun as <- <-. split; [done|].
    intros ? ? Hin. by apply elem_of_nil in Hin.
  - cbn [index_run] in Hrun.
    destruct (index_step fuel cache msg) as [[c1 o1]| |] eqn:Hstep; [|done..].
    cbn [mbind outcome_bind obind] in Hrun.
    destruct (index_run fuel c1 input) as [[c2 o2]| |] eqn:Hrun'; [|done..].
    cbn [mbind outcome_bind obind] in Hrun. injection Hrun as <- <-.
    destruct (index_step_keys _ _ _ _ _ Hc Hstep) as [Hc1 Ho1].
    destruct (IH _ _ _ Hc1 Hrun') as [Hc2 Ho2].
    split; [done|]. intros m mi Hin Hget.
    apply elem_of_app in Hin as [Hin|Hin]; [by eapply Ho1|by eapply Ho2].
Qed.

Lemma writeIndexFile_no_mac (m : MemIndex) (mac : list byte) :
  indexer_keys m →
  writeIndexFile m ∅ !! Key_MarshalBinary (NewMACKey mac) = None.
Proof.
  intros Hm. unfold writeIndexFile.
  rewrite (foldl_insert_other (λ v, Key_MarshalBinary (K v))
                              (λ v, Value_MarshalBinary (V v))).
  - apply lookup_empty.
  - intros Hin. apply list_elem_of_fmap in Hin as (e & E & He).
    apply elem_of_entries in He as [h Hh]. destruct (Hm h e Hh) as [_ Hmac].
    unfold Key_MarshalBinary, NewMACKey in E. simpl in E. congruence.
Qed.

End indexer_keys.

(** The Indexer never stores a MAC address.  Whatever it receives, every
    key of every mem index that it holds or has sent on is a protocol, an
    IPv4, an IPv6 or a port key, with data of the length fixed for the
    tag.  The Extractor sets the MAC payloads, but the Indexer does not
    read them: a query of type [mac] finds nothing in an index written
    from such a mem index. *)
Theorem indexer_never_mac (fuel : nat) (input : list capture.Message)
    (cache : capture.indexCache) (out : list capture.Message) :
  capture.index_run fuel ∅ input = Done (cache, out) →
  (∀ b im h miv, cache !! b = Some im → capture.index_ im !! h = Some miv →
     index.Key_wf (index.K miv) ∧ index.RecType (index.K miv) ≠ index.MACType)
  ∧ ∀ msg m,
      msg ∈ out →
      capture.Get msg capture.msgPayloadMemoryIndex = Some (capture.VMemIndex m) →
      (∀ h miv, m !! h = Some miv →
         index.Key_wf (index.K miv) ∧ index.RecType (index.K miv) ≠ index.MACType)
      ∧ ∀ mac key spare,
          serve.createKey (serve.QueryMAC mac) = serve.Ok key →
          serve.lookupValue (capture.writeIndexFile m ∅) key spare = Done [].
Proof.
  intros Hrun.
  assert (H0 : capture.cache_keys ∅) by (intros b im Hb; by rewrite lookup_empty in Hb).
  destruct (index_run_keys fuel input ∅ cache out H0 Hrun) as [Hc Ho].
  split.
  - intros b im h miv Hb Hm. by apply (Hc b im Hb h miv).
  - intros msg m Hin Hget. pose proof (Ho msg m Hin Hget) as Hm. split.
    + intros h miv Hh. by apply (Hm h miv).
    + intros mac key spare [= <-]. unfold serve.lookupValue.
      by rewrite writeIndexFile_no_mac.
Qed.

Lemma indexer_never_mac_witness :
  let b := "2020_01_01-00_00_00"%string in
  let new := capture.Set_ (capture.NewMessage capture.msgTypeNewPcapFile)
               capture.msgPayloadPcapFilename (capture.VString b) in
  let written := capture.Set_ (capture.Set_ (capture.Set_ (samples.read samples.p1)
                   capture.msgPayloadPcapIdx (capture.VByte x00))
                   capture.msgPayloadOffset (capture.VUint32 24))
                   capture.msgPayloadPcapFilename (capture.VString b) in
  let input := match capture.extractPacket_step written with
               | Done msg => [new; msg; capture.fileClosedMessage b x00]
               | _ => []
               end in
  ∃ m, capture.index_run 10 ∅ input = Done (∅, [capture.memoryIndexMessage m b])
       ∧ size m = 5%nat
       ∧ serve.lookupValue (capture.writeIndexFile m ∅)
           (index.Key_MarshalBinary (index.NewMACKey samples.macA)) [] = Done [].
Proof.
  intros b new written input.
  destruct (capture.index_run 10 ∅ input) as [[cache out]| |] eqn:Hrun;
    [|by vm_compute in Hrun..].
  destruct (indexer_never_mac 10 input cache out Hrun) as [_ Hout].
  vm_compute in Hrun.
  match type of Hrun with
  | Done (_, [capture.mkMessage _ ?pl]) = _ =>
      match pl with
      | context [capture.VMemIndex ?m] => exists m
      end
  end.
  injection Hrun as <- <-. split_and!; [by vm_compute|by vm_compute|].
  match goal with
  | |- serve.lookupValue (capture.writeIndexFile ?m ∅) _ _ = _ =>
      destruct (Hout (capture.memoryIndexMessage m b) m) as [_ Hmac];
        [by left|by vm_compute|]
  end.
  by apply (Hmac samples.macA).
Defined.

Section flush_errors.
Import capture.


End flush_errors.



(** ** From the writers to the Indexer *)

Section mux_to_indexer.
Import index capture.











End mux_to_indexer.

Section pipeline_counts.
Import capture.










End pipeline_counts.

Section pipeline.
Import capture.





End pipeline.


